(** * lib-common: the shared library of the delivery services

    A shallow embedding of the Go packages [kafka] (producer, consumer,
    CloudEvent envelope), [response], [domain] (errors, money, entities,
    pages of results), [resilience] (retry), [middleware] (authentication,
    rate limiting), [auth] (the check of an access token) and [config],
    with the properties of the design document proved or refuted on it and
    further properties read off the code. *)

From Stdlib Require Import ZArith Lia Bool List Ascii String.
From stdpp Require Import base option list gmap strings.

Local Open Scope Z_scope.

(** ** Machine integers

    Go's [int] is 64 bits wide on every platform the services are built
    for; [int(total)] from an [int64] is then the identity. *)

Definition int_min : Z := - 2 ^ 63.
Definition int_max : Z := 2 ^ 63 - 1.

Definition in_int (z : Z) : Prop := int_min <= z <= int_max.

(** Two's-complement wrap-around into the 64-bit range. *)
Definition wrap_int (z : Z) : Z := (z + 2 ^ 63) mod 2 ^ 64 - 2 ^ 63.

(** [x / y] on [int]: a run-time panic when [y = 0], truncation toward
    zero otherwise (the one overflowing quotient wraps). *)
Definition int_quo (x y : Z) : option Z :=
  if y =? 0 then None else Some (wrap_int (Z.quot x y)).

(** [x % y] on [int]: panics when [y = 0]; the sign follows [x]. *)
Definition int_rem (x y : Z) : option Z :=
  if y =? 0 then None else Some (Z.rem x y).

(** ** Bytes, errors, results *)

Abbreviation bytes := (list Byte.byte).

#[global] Instance byte_eq_dec : EqDecision Byte.byte := Byte.byte_eq_dec.

(** [[]byte(s)] and [string(b)]: Go strings are byte strings. *)
Definition bytes_of (s : string) : bytes := String.list_byte_of_string s.
Definition string_of (b : bytes) : string := String.string_of_list_byte b.

(** [byte(n)]: the low eight bits. *)
Definition byte_of_N (n : N) : Byte.byte :=
  match Byte.of_N (n mod 256) with Some b => b | None => Byte.x00 end.

(** Go [error] values, as far as the messaging code tells them apart:
    the two context errors, the errors of [encoding/json], an error of a
    collaborator (broker client, handler, time package), and
    [fmt.Errorf("<prefix>: %w", cause)]. *)
Inductive error : Type :=
  | Canceled
  | DeadlineExceeded
  | SyntaxError
  | UnmarshalTypeError (field : string)
  | UnsupportedTypeError
  | MarshalerError (cause : error)
  | External (msg : string)
  | Errorf (prefix : string) (cause : error).

(** [errors.Unwrap]. *)
Definition Unwrap (e : error) : option error :=
  match e with
  | Errorf _ c => Some c
  | MarshalerError c => Some c
  | _ => None
  end.

Inductive result (A : Type) : Type :=
  | Ok (a : A)
  | Error (e : error).
Arguments Ok {A} a.
Arguments Error {A} e.

Definition is_Ok {A} (r : result A) : Prop :=
  match r with Ok _ => True | Error _ => False end.

(** [time.Time] and its JSON form belong to Go's [time] package: the
    envelope and the producer only stamp, print and read back times.
    [Time_MarshalJSON] is [Time.MarshalJSON] (a quoted RFC 3339 text, or an
    error for a year outside 0..9999) and [Time_UnmarshalJSON data t] is
    the pointer method [UnmarshalJSON] called on a receiver holding [t]. *)
Class TimeCodec : Type := {
  Time : Type;
  Time_zero : Time;
  Time_MarshalJSON : Time -> result bytes;
  Time_UnmarshalJSON : bytes -> Time -> result Time
}.

(** ** The [encoding/json] and [unicode/utf8] facilities the packages call

    The library is not part of the repository; what follows is its
    documented behaviour, for the values the messaging code passes:
    [json.Marshal] with HTML escaping, the scanner that validates a text,
    string unquoting with coercion to well-formed UTF-8, [compact] for
    the output of a [Marshaler], and [json.Unmarshal] into a variable of a
    given type, a number read for an [interface{}] being a [float64]. *)
Module json.

Import Init.Byte.
Local Open Scope N_scope.
Local Open Scope byte_scope.

Definition cc (b : Byte.byte) : N := Byte.to_N b.

(** [b == c], on the codes. *)
Definition eqc (c b : Byte.byte) : bool := cc b =? cc c.

(** *** [unicode/utf8] *)

Definition RuneError : N := 0xFFFD.

(** [utf8.DecodeRune]: the first rune of [p] and its width; an invalid or
    short encoding gives [(RuneError, 1)]. *)
Definition DecodeRune (p : bytes) : N * nat :=
  match p with
  | [] => (RuneError, 0%nat)
  | b0 :: p1 =>
      let c0 := cc b0 in
      if c0 <? 0x80 then (c0, 1%nat)
      else if (c0 <? 0xC2) || (0xF4 <? c0) then (RuneError, 1%nat)
      else
        let lo := if c0 =? 0xE0 then 0xA0 else if c0 =? 0xF0 then 0x90 else 0x80 in
        let hi := if c0 =? 0xED then 0x9F else if c0 =? 0xF4 then 0x8F else 0xBF in
        match p1 with
        | [] => (RuneError, 1%nat)
        | b1 :: p2 =>
            let c1 := cc b1 in
            if (c1 <? lo) || (hi <? c1) then (RuneError, 1%nat)
            else if c0 <? 0xE0 then
              (N.lor (N.shiftl (N.land c0 0x1F) 6) (N.land c1 0x3F), 2%nat)
            else
              match p2 with
              | [] => (RuneError, 1%nat)
              | b2 :: p3 =>
                  let c2 := cc b2 in
                  if (c2 <? 0x80) || (0xBF <? c2) then (RuneError, 1%nat)
                  else if c0 <? 0xF0 then
                    (N.lor (N.shiftl (N.land c0 0x0F) 12)
                       (N.lor (N.shiftl (N.land c1 0x3F) 6) (N.land c2 0x3F)),
                     3%nat)
                  else
                    match p3 with
                    | [] => (RuneError, 1%nat)
                    | b3 :: _ =>
                        let c3 := cc b3 in
                        if (c3 <? 0x80) || (0xBF <? c3) then (RuneError, 1%nat)
                        else
                          (N.lor (N.shiftl (N.land c0 0x07) 18)
                             (N.lor (N.shiftl (N.land c1 0x3F) 12)
                                (N.lor (N.shiftl (N.land c2 0x3F) 6)
                                   (N.land c3 0x3F))),
                           4%nat)
                    end
              end
        end
  end.

(** [utf8.AppendRune] to an empty buffer. *)
Definition AppendRune (r : N) : bytes :=
  if r <=? 0x7F then [byte_of_N r]
  else if r <=? 0x7FF then
    [byte_of_N (N.lor 0xC0 (N.shiftr r 6));
     byte_of_N (N.lor 0x80 (N.land r 0x3F))]
  else if (0x10FFFF <? r) || ((0xD800 <=? r) && (r <=? 0xDFFF)) then
    [xef; xbf; xbd]
  else if r <=? 0xFFFF then
    [byte_of_N (N.lor 0xE0 (N.shiftr r 12));
     byte_of_N (N.lor 0x80 (N.land (N.shiftr r 6) 0x3F));
     byte_of_N (N.lor 0x80 (N.land r 0x3F))]
  else
    [byte_of_N (N.lor 0xF0 (N.shiftr r 18));
     byte_of_N (N.lor 0x80 (N.land (N.shiftr r 12) 0x3F));
     byte_of_N (N.lor 0x80 (N.land (N.shiftr r 6) 0x3F));
     byte_of_N (N.lor 0x80 (N.land r 0x3F))].

(** [utf8.Valid]; [skip] counts the bytes still to pass of a rune already
    checked. *)
Fixpoint Valid_from (skip : nat) (s : bytes) : bool :=
  match s with
  | [] => true
  | b :: rest =>
      match skip with
      | S k => Valid_from k rest
      | O =>
          if cc b <? 0x80 then Valid_from 0 rest
          else
            let '(r, size) := DecodeRune s in
            if (r =? RuneError) && (size =? 1)%nat then false
            else Valid_from (size - 1) rest
      end
  end.

Definition Valid (s : bytes) : bool := Valid_from 0 s.

(** *** Writing a string: [appendString] with [escapeHTML] set *)

Definition hex (n : N) : Byte.byte :=
  if n <? 10 then byte_of_N (48 + n) else byte_of_N (87 + n).

(** [htmlSafeSet]: the ASCII bytes written as they are. *)
Definition htmlSafe (b : Byte.byte) : bool :=
  (0x20 <=? cc b) && (cc b <? 0x80)
  && negb (eqc x22 b || eqc x26 b || eqc x3c b || eqc x3e b || eqc x5c b).

Definition escape_ascii (b : Byte.byte) : bytes :=
  if htmlSafe b then [b]
  else if eqc x5c b || eqc x22 b then [x5c; b]
  else if eqc x08 b then [x5c; x62]
  else if eqc x0c b then [x5c; x66]
  else if eqc x0a b then [x5c; x6e]
  else if eqc x0d b then [x5c; x72]
  else if eqc x09 b then [x5c; x74]
  else [x5c; x75; x30; x30; hex (N.shiftr (cc b) 4); hex (N.land (cc b) 0xF)].

Fixpoint escape (skip : nat) (s : bytes) : bytes :=
  match s with
  | [] => []
  | b :: rest =>
      match skip with
      | S k => escape k rest
      | O =>
          if cc b <? 0x80 then escape_ascii b ++ escape 0 rest
          else
            let '(r, size) := DecodeRune s in
            if (r =? RuneError) && (size =? 1)%nat then
              [x5c; x75; x66; x66; x66; x64] ++ escape 0 rest
            else if (r =? 0x2028) || (r =? 0x2029) then
              [x5c; x75; x32; x30; x32; hex (N.land r 0xF)]
              ++ escape (size - 1) rest
            else take size s ++ escape (size - 1) rest
      end
  end.

Definition appendString (s : string) : bytes :=
  [x22] ++ escape 0 (bytes_of s) ++ [x22].

(** *** Reading a string: the scanner's string states and [unquoteBytes] *)

Definition unhex (b : Byte.byte) : option N :=
  let c := cc b in
  if (0x30 <=? c) && (c <=? 0x39) then Some (c - 0x30)
  else if (0x61 <=? c) && (c <=? 0x66) then Some (c - 0x61 + 10)
  else if (0x41 <=? c) && (c <=? 0x46) then Some (c - 0x41 + 10)
  else None.

(** [getu4] on the four digits after a backslash and [u]. *)
Definition getu4 (h1 h2 h3 h4 : Byte.byte) : option N :=
  match unhex h1, unhex h2, unhex h3, unhex h4 with
  | Some a, Some b, Some c, Some d => Some (((a * 16 + b) * 16 + c) * 16 + d)
  | _, _, _, _ => None
  end.

(** [getu4] on a text that may or may not start with a [u] escape. *)
Definition getu4_at (s : bytes) : option N :=
  match s with
  | b :: u :: h1 :: h2 :: h3 :: h4 :: _ =>
      if eqc x5c b && eqc x75 u then getu4 h1 h2 h3 h4 else None
  | _ => None
  end.

Definition IsSurrogate (r : N) : bool := (0xD800 <=? r) && (r <? 0xE000).

(** [utf16.DecodeRune]. *)
Definition utf16_DecodeRune (r1 r2 : N) : N :=
  if (0xD800 <=? r1) && (r1 <? 0xDC00) && (0xDC00 <=? r2) && (r2 <? 0xE000)
  then N.lor (N.shiftl (r1 - 0xD800) 10) (r2 - 0xDC00) + 0x10000
  else RuneError.

Definition simple_escape (e : Byte.byte) : option Byte.byte :=
  if eqc x22 e || eqc x5c e || eqc x2f e then Some e
  else if eqc x62 e then Some x08
  else if eqc x66 e then Some x0c
  else if eqc x6e e then Some x0a
  else if eqc x72 e then Some x0d
  else if eqc x74 e then Some x09
  else None.

Definition prepend (pre : bytes) (r : option (bytes * bytes))
  : option (bytes * bytes) :=
  match r with
  | Some (t, rest) => Some (pre ++ t, rest)
  | None => None
  end.

(** The text after an opening quote: the decoded string and what follows
    the closing quote.  [None] is a syntax error (unterminated, control
    character, bad escape). *)
Fixpoint unquote (skip : nat) (s : bytes) : option (bytes * bytes) :=
  match s with
  | [] => None
  | b :: rest =>
      match skip with
      | S k => unquote k rest
      | O =>
          if eqc x22 b then Some ([], rest)
          else if eqc x5c b then
            match rest with
            | [] => None
            | e :: rest1 =>
                if eqc x75 e then
                  match rest1 with
                  | h1 :: h2 :: h3 :: h4 :: rest2 =>
                      match getu4 h1 h2 h3 h4 with
                      | None => None
                      | Some rr =>
                          if IsSurrogate rr then
                            match getu4_at rest2 with
                            | Some rr1 =>
                                let dec := utf16_DecodeRune rr rr1 in
                                if dec =? RuneError
                                then prepend (AppendRune RuneError)
                                       (unquote 0 rest2)
                                else prepend (AppendRune dec)
                                       (unquote 6 rest2)
                            | None =>
                                prepend (AppendRune RuneError)
                                  (unquote 0 rest2)
                            end
                          else prepend (AppendRune rr) (unquote 0 rest2)
                      end
                  | _ => None
                  end
                else
                  match simple_escape e with
                  | Some c => prepend [c] (unquote 0 rest1)
                  | None => None
                  end
            end
          else if cc b <? 0x20 then None
          else if cc b <? 0x80 then prepend [b] (unquote 0 rest)
          else
            let '(rr, size) := DecodeRune s in
            prepend (AppendRune rr) (unquote (size - 1) rest)
      end
  end.

(** *** Numbers *)

Definition is_digit (b : Byte.byte) : bool := (0x30 <=? cc b) && (cc b <=? 0x39).

Fixpoint take_digits (s : bytes) : bytes * bytes :=
  match s with
  | b :: r =>
      if is_digit b then let '(d, r') := take_digits r in (b :: d, r')
      else ([], s)
  | [] => ([], [])
  end.

(** The integer part: a lone zero, or a digit from one to nine and more
    digits. *)
Definition scan_int (s : bytes) : option (bytes * bytes) :=
  match s with
  | b :: r =>
      if eqc x30 b then Some ([b], r)
      else if is_digit b then let '(d, r') := take_digits r in Some (b :: d, r')
      else None
  | [] => None
  end.

Definition scan_frac (s : bytes) : option (bytes * bytes) :=
  match s with
  | b :: r =>
      if eqc x2e b then
        match take_digits r with
        | ([], _) => None
        | (d, r') => Some (b :: d, r')
        end
      else Some ([], s)
  | [] => Some ([], [])
  end.

Definition scan_exp (s : bytes) : option (bytes * bytes) :=
  match s with
  | b :: r =>
      if eqc x65 b || eqc x45 b then
        let '(sign, r1) :=
          match r with
          | c :: r' => if eqc x2b c || eqc x2d c then ([c], r') else ([], r)
          | [] => ([], r)
          end in
        match take_digits r1 with
        | ([], _) => None
        | (d, r2) => Some (b :: sign ++ d, r2)
        end
      else Some ([], s)
  | [] => Some ([], [])
  end.

(** A number literal and the text after it. *)
Definition scan_number (s : bytes) : option (bytes * bytes) :=
  let '(sign, s1) :=
    match s with
    | b :: r => if eqc x2d b then ([b], r) else ([], s)
    | [] => ([], s)
    end in
  match scan_int s1 with
  | None => None
  | Some (i, s2) =>
      match scan_frac s2 with
      | None => None
      | Some (f, s3) =>
          match scan_exp s3 with
          | None => None
          | Some (e, s4) => Some (sign ++ i ++ f ++ e, s4)
          end
      end
  end.

(** *** The scanner: texts and the values they denote *)

#[warnings="-register-all"]
Inductive syntax : Type :=
  | JNull
  | JBool (b : bool)
  | JNum (lit : bytes)
  | JStr (s : bytes)
  | JArr (elems : list syntax)
  | JObj (members : list (bytes * bytes * syntax)).

Definition is_space (b : Byte.byte) : bool :=
  eqc x20 b || eqc x09 b || eqc x0d b || eqc x0a b.

Fixpoint skip_ws (s : bytes) : bytes :=
  match s with
  | b :: r => if is_space b then skip_ws r else s
  | [] => []
  end.

(** [s] without the prefix [pre], when it starts with it. *)
Fixpoint strip (pre s : bytes) : option bytes :=
  match pre, s with
  | [], _ => Some s
  | p :: pre', b :: s' => if eqc p b then strip pre' s' else None
  | _ :: _, [] => None
  end.

(** [maxNestingDepth]. *)
Definition maxNestingDepth : N := 10000.

(** One value at the head of [s] (which starts at the value, past any
    white space) and the text after it.  [depth] counts the arrays and
    objects already open; [fuel] bounds the recursion.  A member of an
    object is kept as its key, the text of its value as it stands in the
    input (what a field that is an [Unmarshaler] is handed) and the value. *)
Fixpoint parse_value (fuel : nat) (depth : N) (s : bytes)
  : option (syntax * bytes) :=
  match fuel with
  | O => None
  | S n =>
      match s with
      | [] => None
      | b :: r =>
          if eqc x7b b then
            if maxNestingDepth <? depth + 1 then None
            else
              match skip_ws r with
              | c :: r' =>
                  if eqc x7d c then Some (JObj [], r')
                  else
                    match parse_members n (depth + 1) (c :: r') with
                    | Some (ms, r'') => Some (JObj ms, r'')
                    | None => None
                    end
              | [] => None
              end
          else if eqc x5b b then
            if maxNestingDepth <? depth + 1 then None
            else
              match skip_ws r with
              | c :: r' =>
                  if eqc x5d c then Some (JArr [], r')
                  else
                    match parse_elements n (depth + 1) (c :: r') with
                    | Some (es, r'') => Some (JArr es, r'')
                    | None => None
                    end
              | [] => None
              end
          else if eqc x22 b then
            match unquote 0 r with
            | Some (t, r') => Some (JStr t, r')
            | None => None
            end
          else if eqc x74 b then
            match strip (bytes_of "rue") r with
            | Some r' => Some (JBool true, r')
            | None => None
            end
          else if eqc x66 b then
            match strip (bytes_of "alse") r with
            | Some r' => Some (JBool false, r')
            | None => None
            end
          else if eqc x6e b then
            match strip (bytes_of "ull") r with
            | Some r' => Some (JNull, r')
            | None => None
            end
          else
            match scan_number s with
            | Some (lit, r') => Some (JNum lit, r')
            | None => None
            end
      end
  end

(** The members of an object from the first key on, up to and including
    the closing brace. *)
with parse_members (fuel : nat) (depth : N) (s : bytes)
  : option (list (bytes * bytes * syntax) * bytes) :=
  match fuel with
  | O => None
  | S n =>
      match s with
      | q :: r =>
          if eqc x22 q then
            match unquote 0 r with
            | Some (k, r1) =>
                match skip_ws r1 with
                | c :: r2 =>
                    if eqc x3a c then
                      match parse_value n depth (skip_ws r2) with
                      | Some (v, r3) =>
                          let raw :=
                            take (length (skip_ws r2) - length r3)
                              (skip_ws r2) in
                          match skip_ws r3 with
                          | d :: r4 =>
                              if eqc x2c d then
                                match parse_members n depth (skip_ws r4) with
                                | Some (ms, r5) => Some ((k, raw, v) :: ms, r5)
                                | None => None
                                end
                              else if eqc x7d d then Some ([(k, raw, v)], r4)
                              else None
                          | [] => None
                          end
                      | None => None
                      end
                    else None
                | [] => None
                end
            | None => None
            end
          else None
      | [] => None
      end
  end

(** The elements of an array from the first one on, up to and including
    the closing bracket. *)
with parse_elements (fuel : nat) (depth : N) (s : bytes)
  : option (list syntax * bytes) :=
  match fuel with
  | O => None
  | S n =>
      match parse_value n depth s with
      | Some (v, r1) =>
          match skip_ws r1 with
          | d :: r2 =>
              if eqc x2c d then
                match parse_elements n depth (skip_ws r2) with
                | Some (es, r3) => Some (v :: es, r3)
                | None => None
                end
              else if eqc x5d d then Some ([v], r2)
              else None
          | [] => None
          end
      | None => None
      end
  end.

(** Enough fuel for any text: every step of the recursion reads a byte. *)
Definition fuel_for (s : bytes) : nat := (2 * length s + 2)%nat.

(** The one value of a whole text, white space around it allowed. *)
Definition parse_top (data : bytes) : option syntax :=
  let s := skip_ws data in
  match parse_value (fuel_for s) 0 s with
  | Some (v, rest) =>
      match skip_ws rest with
      | [] => Some v
      | _ :: _ => None
      end
  | None => None
  end.

(** [checkValid]. *)
Definition checkValid (data : bytes) : bool :=
  match parse_top data with Some _ => true | None => false end.

(** *** [compact] with [escapeHTML] set

    What the encoder writes for the text a [Marshaler] returned: the text
    without the white space between tokens, the three HTML characters and
    U+2028, U+2029 escaped; an invalid text is an error.  [in_str] and
    [esc] follow the scanner through strings, [skip] passes the rest of an
    escaped separator. *)
Definition separator_at (c : Byte.byte) (r : bytes) : option Byte.byte :=
  if eqc xe2 c then
    match r with
    | b1 :: b2 :: _ =>
        if eqc x80 b1 && (eqc xa8 b2 || eqc xa9 b2)
        then Some (hex (N.land (cc b2) 0xF)) else None
    | _ => None
    end
  else None.

Fixpoint compact_from (in_str esc : bool) (skip : nat) (s : bytes) : bytes :=
  match s with
  | [] => []
  | c :: r =>
      let in_str' :=
        if in_str then (if esc then true else negb (eqc x22 c))
        else eqc x22 c in
      let esc' := in_str && negb esc && eqc x5c c in
      match skip with
      | S k => compact_from in_str' esc' k r
      | O =>
          if eqc x3c c || eqc x3e c || eqc x26 c then
            [x5c; x75; x30; x30; hex (N.shiftr (cc c) 4); hex (N.land (cc c) 0xF)]
            ++ compact_from in_str' esc' 0 r
          else
            match separator_at c r with
            | Some h =>
                [x5c; x75; x32; x30; x32; h] ++ compact_from in_str' esc' 2 r
            | None =>
                if negb in_str && is_space c
                then compact_from in_str' esc' 0 r
                else c :: compact_from in_str' esc' 0 r
            end
      end
  end.

Definition compact (src : bytes) : result bytes :=
  if checkValid src then Ok (compact_from false false 0 src)
  else Error SyntaxError.

(** *** Go values passed as [interface{}]

    The data of an event as the callers build it: [nil], booleans,
    [int64] numbers, strings, slices and string-keyed maps of such; a map is
    held as its entries in the order of their keys, which is the order
    [Marshal] writes them in.  [VChan] stands for the values [Marshal]
    refuses (channels, functions, complex numbers). *)
#[warnings="-register-all"]
Inductive value : Type :=
  | VNil
  | VBool (b : bool)
  | VInt (z : Z)
  | VString (s : string)
  | VSlice (elems : list value)
  | VMap (entries : list (string * value))
  | VChan.

(** [strconv.AppendInt] in base ten. *)
Fixpoint digits_of (fuel : nat) (n : N) (acc : bytes) : bytes :=
  match fuel with
  | O => acc
  | S f =>
      let acc' := byte_of_N (48 + n mod 10) :: acc in
      if n <? 10 then acc' else digits_of f (n / 10) acc'
  end.

Definition format_uint (n : N) : bytes :=
  digits_of (S (N.to_nat (N.log2 n))) n [].

Definition format_int (z : Z) : bytes :=
  match z with
  | Zneg p => x2d :: format_uint (Npos p)
  | _ => format_uint (Z.to_N z)
  end.

Fixpoint serializable (v : value) : bool :=
  match v with
  | VChan => false
  | VSlice l => forallb serializable l
  | VMap m => forallb (fun kv => serializable kv.2) m
  | _ => true
  end.

(** The text of a value, items separated by commas. *)
Fixpoint encode (v : value) : bytes :=
  match v with
  | VNil => bytes_of "null"
  | VBool true => bytes_of "true"
  | VBool false => bytes_of "false"
  | VInt z => format_int z
  | VString s => appendString s
  | VSlice l =>
      [x5b]
      ++ (fix items (l : list value) : bytes :=
            match l with
            | [] => []
            | [v] => encode v
            | v :: l' => encode v ++ [x2c] ++ items l'
            end) l
      ++ [x5d]
  | VMap m =>
      [x7b]
      ++ (fix items (m : list (string * value)) : bytes :=
            match m with
            | [] => []
            | [(k, v)] => appendString k ++ [x3a] ++ encode v
            | (k, v) :: m' =>
                appendString k ++ [x3a] ++ encode v ++ [x2c] ++ items m'
            end) m
      ++ [x7d]
  | VChan => []
  end.

(** [json.Marshal] of such a value. *)
Definition Marshal (v : value) : result bytes :=
  if serializable v then Ok (encode v) else Error UnsupportedTypeError.

(** *** Reading a text into a variable *)

Fixpoint digits_value (acc : N) (ds : bytes) : N :=
  match ds with
  | [] => acc
  | d :: ds' => digits_value (10 * acc + (cc d - 48)) ds'
  end.

(** [strconv.ParseInt(lit, 10, 64)] on a number literal: digits only,
    within range. *)
Definition int_of_lit (lit : bytes) : option Z :=
  let '(neg, ds) :=
    match lit with
    | b :: r => if eqc x2d b then (true, r) else (false, lit)
    | [] => (false, lit)
    end in
  if forallb is_digit ds && negb (Nat.eqb (length ds) 0) then
    let n := Z.of_N (digits_value 0 ds) in
    let z := (if neg then - n else n)%Z in
    if ((int_min <=? z) && (z <=? int_max))%Z then Some z else None
  else None.

(** *** [float64] numbers

    A finite [float64] other than zero is [m * 2^e], negated when [neg],
    with [m] below [2^53]; it is held in its one form with [2^52 <= m] (a
    normal number, [e] up to 971) or [e = -1074] (a subnormal one). *)
Inductive float64 : Type :=
  | FZero (neg : bool)
  | FFinite (neg : bool) (m : Z) (e : Z).

(** The [float64] nearest to [p / q] for [p >= 0] and [q > 0], a tie going
    to the even [m]: what [strconv.ParseFloat] returns for a decimal text
    and what the conversion [float64(n)] gives for an integer.  [None] is
    a result beyond the largest [float64] ([ErrRange]); a result below the
    smallest is zero. *)
Definition nearest (neg : bool) (p q : Z) : option float64 :=
  (if p =? 0 then Some (FZero neg)
   else
     let e0 := Z.log2 p - Z.log2 q in
     let e :=
       if p * 2 ^ Z.max 0 (- e0) <? q * 2 ^ Z.max 0 e0 then e0 - 1 else e0 in
     let s := Z.max (e - 52) (- 1074) in
     let num := p * 2 ^ Z.max 0 (- s) in
     let den := q * 2 ^ Z.max 0 s in
     let d := num / den in
     let r := num mod den in
     let m :=
       if 2 * r <? den then d
       else if den <? 2 * r then d + 1
       else if Z.even d then d else d + 1 in
     let '(m, s) := if m =? 2 ^ 53 then (2 ^ 52, s + 1) else (m, s) in
     if m =? 0 then Some (FZero neg)
     else if 971 <? s then None
     else Some (FFinite neg m s))%Z.

(** [float64(z)]. *)
Definition float_of_int (z : Z) : option float64 :=
  nearest (z <? 0)%Z (Z.abs z) 1.

(** [strconv.ParseFloat(lit, 64)] on a number literal of a valid text:
    sign, digits, fraction and exponent are read off, and the number they
    denote is rounded. *)
Definition float_of_lit (lit : bytes) : option float64 :=
  let '(neg, s1) :=
    match lit with
    | b :: r => if eqc x2d b then (true, r) else (false, lit)
    | [] => (false, lit)
    end in
  let '(int_ds, s2) := take_digits s1 in
  let '(frac_ds, s3) :=
    match s2 with
    | b :: r => if eqc x2e b then take_digits r else ([], s2)
    | [] => ([], s2)
    end in
  let ex :=
    match s3 with
    | b :: r =>
        if eqc x65 b || eqc x45 b then
          match r with
          | c :: r' =>
              if eqc x2d c then
                (- Z.of_N (digits_value 0 (take_digits r').1))%Z
              else if eqc x2b c then Z.of_N (digits_value 0 (take_digits r').1)
              else Z.of_N (digits_value 0 (take_digits r).1)
          | [] => 0%Z
          end
        else 0%Z
    | [] => 0%Z
    end in
  let n := Z.of_N (digits_value 0 (int_ds ++ frac_ds)) in
  let e10 := (ex - Z.of_nat (length frac_ds))%Z in
  nearest neg (n * 10 ^ Z.max 0 e10)%Z (10 ^ Z.max 0 (- e10))%Z.

(** *** Targets

    The types of the variables a caller hands to [json.Unmarshal] by
    pointer, as far as they are followed here: [interface{}], [bool],
    [int64], [float64], [string], slices and string-keyed maps of such.
    The variable is one just declared, holding the zero value of its
    type. *)
Inductive gotype : Type :=
  | TAny
  | TBool
  | TInt64
  | TFloat64
  | TString
  | TSlice (elem : gotype)
  | TMap (elem : gotype).

(** What such a variable holds: [HNil] is the nil interface, slice or
    map; a map is held as its entries in the order of their keys. *)
#[warnings="-register-all"]
Inductive held : Type :=
  | HNil
  | HBool (b : bool)
  | HInt (z : Z)
  | HFloat (f : float64)
  | HString (s : string)
  | HSlice (elems : list held)
  | HMap (entries : list (string * held)).

Definition zero_of (ty : gotype) : held :=
  match ty with
  | TAny | TSlice _ | TMap _ => HNil
  | TBool => HBool false
  | TInt64 => HInt 0
  | TFloat64 => HFloat (FZero false)
  | TString => HString ""
  end.

(** The type the elements of an array or the values of an object are
    decoded at. *)
Definition elem_of (ty : gotype) : gotype :=
  match ty with
  | TSlice t | TMap t => t
  | _ => TAny
  end.

(** Storing under a key of a map held in key order. *)
Fixpoint map_store {A : Type} (k : string) (v : A) (m : list (string * A))
  : list (string * A) :=
  match m with
  | [] => [(k, v)]
  | (k', v') :: m' =>
      match String.compare k k' with
      | Lt => (k, v) :: m
      | Eq => (k, v) :: m'
      | Gt => (k', v') :: map_store k v m'
      end
  end.

(** What a variable of type [ty] holds after the value [j] of a text has
    been decoded into it.  [null] leaves the variable as it was.  A number
    read for an [interface{}] is a [float64]; read for an [int64] it must
    be written without fraction and exponent and be in range.  [None]
    stands for an [UnmarshalTypeError]: a value of a kind the type does not
    take, or a number out of range. *)
Fixpoint decode (ty : gotype) (j : syntax) : option held :=
  match j with
  | JNull => Some (zero_of ty)
  | JBool b =>
      match ty with
      | TAny | TBool => Some (HBool b)
      | _ => None
      end
  | JNum lit =>
      match ty with
      | TAny | TFloat64 =>
          match float_of_lit lit with Some f => Some (HFloat f) | None => None end
      | TInt64 =>
          match int_of_lit lit with Some z => Some (HInt z) | None => None end
      | _ => None
      end
  | JStr t =>
      match ty with
      | TAny | TString => Some (HString (string_of t))
      | _ => None
      end
  | JArr l =>
      match ty with
      | TAny | TSlice _ =>
          match
            (fix items (l : list syntax) : option (list held) :=
               match l with
               | [] => Some []
               | j :: l' =>
                   match decode (elem_of ty) j, items l' with
                   | Some v, Some vs => Some (v :: vs)
                   | _, _ => None
                   end
               end) l
          with
          | Some vs => Some (HSlice vs)
          | None => None
          end
      | _ => None
      end
  | JObj ms =>
      match ty with
      | TAny | TMap _ =>
          match
            (fix items (ms : list (bytes * bytes * syntax))
                  (acc : list (string * held))
               : option (list (string * held)) :=
               match ms with
               | [] => Some acc
               | (k, _, j) :: ms' =>
                   match decode (elem_of ty) j with
                   | Some v => items ms' (map_store (string_of k) v acc)
                   | None => None
                   end
               end) ms []
          with
          | Some m => Some (HMap m)
          | None => None
          end
      | _ => None
      end
  end.

(** [json.Unmarshal(data, &target)] for a variable [target] of type [ty]
    just declared: what it holds afterwards, or the error. *)
Definition Unmarshal (ty : gotype) (data : bytes) : result held :=
  match parse_top data with
  | None => Error SyntaxError
  | Some j =>
      match decode ty j with
      | Some v => Ok v
      | None => Error (UnmarshalTypeError "")
      end
  end.

(** *** Data that travels

    What the round trip asks of the data: numbers within [int64], strings
    and keys in valid UTF-8, the entries of a map in the strict order of
    their keys, nothing [Marshal] refuses; [vdepth] is the depth of nesting,
    which the decoder bounds by [maxNestingDepth]. *)
Fixpoint vdepth (v : value) : N :=
  match v with
  | VSlice l => 1 + fold_right (fun e acc => N.max (vdepth e) acc) 0 l
  | VMap m => 1 + fold_right (fun kv acc => N.max (vdepth kv.2) acc) 0 m
  | _ => 0
  end.

Fixpoint keys_sorted (ks : list string) : bool :=
  match ks with
  | [] => true
  | k :: rest => forallb (String.ltb k) rest && keys_sorted rest
  end.

Fixpoint wf_value (v : value) : bool :=
  match v with
  | VNil | VBool _ => true
  | VInt z => ((int_min <=? z) && (z <=? int_max))%Z
  | VString s => Valid (bytes_of s)
  | VSlice l => forallb wf_value l
  | VMap m =>
      forallb (fun kv => Valid (bytes_of kv.1) && wf_value kv.2) m
      && keys_sorted (map fst m)
  | VChan => false
  end.

End json.

(** What the envelope relies on from [time.Time]: the text it prints is
    a quoted string of plain characters, reading that text gives the time
    back, and [null] leaves the receiver as it is. *)
Class TimeCodecLaws (TC : TimeCodec) : Prop := {
  time_text : forall t b,
    Time_MarshalJSON t = Ok b ->
    exists body,
      b = [Byte.x22] ++ body ++ [Byte.x22]
      /\ forallb json.htmlSafe body = true;
  time_roundtrip : forall t b t0,
    Time_MarshalJSON t = Ok b -> Time_UnmarshalJSON b t0 = Ok t;
  time_null : forall t0,
    Time_UnmarshalJSON (bytes_of "null") t0 = Ok t0
}.

(** *** A clock for the examples

    Whole-second UTC times as their civil fields, printed and read in the
    one RFC 3339 form Go prints such times in
    ([2006-01-02T15:04:05Z]). *)
Module civil.

Record t := {
  year : N; month : N; day : N;
  hour : N; minute : N; second : N
}.

Definition zero : t :=
  {| year := 1; month := 1; day := 1; hour := 0; minute := 0; second := 0 |}.

Definition is_leap (y : N) : bool :=
  ((y mod 4 =? 0) && (negb (y mod 100 =? 0) || (y mod 400 =? 0)))%N.

Definition daysIn (m y : N) : N :=
  (if m =? 2 then (if is_leap y then 29 else 28)
   else if (m =? 4) || (m =? 6) || (m =? 9) || (m =? 11) then 30
   else 31)%N.

Definition valid (x : t) : bool :=
  ((year x <=? 9999)
   && (1 <=? month x) && (month x <=? 12)
   && (1 <=? day x) && (day x <=? daysIn (month x) (year x))
   && (hour x <=? 23) && (minute x <=? 59) && (second x <=? 59))%N.

Definition digit (n : N) : Byte.byte := byte_of_N (48 + n).

Definition undigit (b : Byte.byte) : option N :=
  let n := Byte.to_N b in
  if ((48 <=? n) && (n <=? 57))%N then Some (n - 48)%N else None.

Definition two (n : N) : bytes := [digit (n / 10); digit (n mod 10)].
Definition four (n : N) : bytes := two (n / 100) ++ two (n mod 100).

Definition read2 (a b : Byte.byte) : option N :=
  match undigit a, undigit b with
  | Some x, Some y => Some (10 * x + y)%N
  | _, _ => None
  end.

Definition read4 (a b c d : Byte.byte) : option N :=
  match read2 a b, read2 c d with
  | Some x, Some y => Some (100 * x + y)%N
  | _, _ => None
  end.

Definition format (x : t) : bytes :=
  four (year x) ++ bytes_of "-" ++ two (month x) ++ bytes_of "-"
  ++ two (day x) ++ bytes_of "T" ++ two (hour x) ++ bytes_of ":"
  ++ two (minute x) ++ bytes_of ":" ++ two (second x) ++ bytes_of "Z".

Definition MarshalJSON (x : t) : result bytes :=
  if valid x then Ok ([Byte.x22] ++ format x ++ [Byte.x22])
  else Error (External "Time.MarshalJSON: year outside of range [0,9999]").

Definition parse (s : bytes) : option t :=
  match s with
  | [y1; y2; y3; y4; s1; m1; m2; s2; d1; d2; s3; h1; h2; s4; i1; i2; s5;
     c1; c2; z] =>
      if bool_decide ([s1; s2; s3; s4; s5; z] = bytes_of "--T::Z") then
        match read4 y1 y2 y3 y4, read2 m1 m2, read2 d1 d2,
              read2 h1 h2, read2 i1 i2, read2 c1 c2 with
        | Some y, Some m, Some d, Some h, Some i, Some c =>
            let x := {| year := y; month := m; day := d;
                        hour := h; minute := i; second := c |} in
            if valid x then Some x else None
        | _, _, _, _, _, _ => None
        end
      else None
  | _ => None
  end.

Definition UnmarshalJSON (data : bytes) (x : t) : result t :=
  if bool_decide (data = bytes_of "null") then Ok x
  else
    match data with
    | q :: rest =>
        match rev rest with
        | q' :: body =>
            if bool_decide ([q; q'] = [Byte.x22; Byte.x22]) then
              match parse (rev body) with
              | Some y => Ok y
              | None => Error (External "parsing time")
              end
            else Error (External "Time.UnmarshalJSON: input is not a JSON string")
        | [] => Error (External "Time.UnmarshalJSON: input is not a JSON string")
        end
    | [] => Error (External "Time.UnmarshalJSON: input is not a JSON string")
    end.

Definition codec : TimeCodec :=
  {| Time := t;
     Time_zero := zero;
     Time_MarshalJSON := MarshalJSON;
     Time_UnmarshalJSON := UnmarshalJSON |}.

End civil.

(** ** Package [domain] *)
Module domain.

(** *** Errors *)

(** The sentinel errors, made once by [errors.New]: each is told from the
    others by identity, which is what [errors.Is] compares. *)
Inductive sentinel :=
  | ErrNotFound
  | ErrOptimisticLock
  | ErrInvalidState
  | ErrUnauthorized
  | ErrForbidden
  | ErrAlreadyExists
  | ErrValidation.

#[global] Instance sentinel_eq_dec : EqDecision sentinel.
Proof. solve_decision. Defined.

Definition sentinel_text (s : sentinel) : string :=
  match s with
  | ErrNotFound => "entity not found"
  | ErrOptimisticLock =>
      "optimistic lock conflict: entity was modified by another transaction"
  | ErrInvalidState => "invalid state transition"
  | ErrUnauthorized => "unauthorized"
  | ErrForbidden => "forbidden"
  | ErrAlreadyExists => "entity already exists"
  | ErrValidation => "validation error"
  end.

(** The non-nil [error] values the package and its callers handle: a
    sentinel, a [DomainError] behind its pointer (with the fields of the
    struct; [Err] may be nil), the error [fmt.Errorf] makes for a format
    with one [%w] (its text and what it wraps), and any other error, which
    has a text and wraps nothing. *)
#[warnings="-register-all"]
Inductive err : Type :=
  | Sentinel (s : sentinel)
  | Domain (Code : Z) (Message Detail : string) (Err : option err)
  | Wrapped (msg : string) (cause : err)
  | Other (msg : string).

Record DomainError := {
  Code : Z;
  Message : string;
  Detail : string;
  Err : option err
}.

(** The method [Error] of each; for a [DomainError] the message, followed
    by the text of [Err] when there is one. *)
Fixpoint Error (e : err) : string :=
  match e with
  | Sentinel s => sentinel_text s
  | Domain _ m _ None => m
  | Domain _ m _ (Some c) => m +:+ ": " +:+ Error c
  | Wrapped msg _ => msg
  | Other msg => msg
  end.

(** [fmt.Errorf("<prefix>: %w", cause)]. *)
Definition Errorf (prefix : string) (cause : err) : err :=
  Wrapped (prefix +:+ ": " +:+ Error cause) cause.

(** [errors.Unwrap]. *)
Definition Unwrap (e : err) : option err :=
  match e with
  | Domain _ _ _ c => c
  | Wrapped _ c => Some c
  | Sentinel _ | Other _ => None
  end.

(** [errors.Is(e, target)] for a sentinel as target: down the chain of
    [Unwrap] until the sentinel itself is met. *)
Fixpoint Is (e : err) (target : sentinel) : bool :=
  match e with
  | Sentinel s => bool_decide (s = target)
  | Domain _ _ _ (Some c) => Is c target
  | Domain _ _ _ None => false
  | Wrapped _ c => Is c target
  | Other _ => false
  end.

(** [errors.As(e, &domainErr)]: the first [DomainError] down the chain. *)
Fixpoint As (e : err) : option DomainError :=
  match e with
  | Domain c m d x => Some {| Code := c; Message := m; Detail := d; Err := x |}
  | Wrapped _ c => As c
  | Sentinel _ | Other _ => None
  end.

Definition NewNotFoundError (entity id : string) : err :=
  Domain 404 (entity +:+ " not found")
    (entity +:+ " with id '" +:+ id +:+ "' was not found")
    (Some (Sentinel ErrNotFound)).

Definition NewValidationError (message : string) : err :=
  Domain 400 message "" (Some (Sentinel ErrValidation)).

Definition NewConflictError (message : string) : err :=
  Domain 409 message "" (Some (Sentinel ErrOptimisticLock)).

Definition NewInvalidStateError (from to : string) : err :=
  Domain 422 ("cannot transition from '" +:+ from +:+ "' to '" +:+ to +:+ "'")
    "" (Some (Sentinel ErrInvalidState)).

Definition NewUnauthorizedError (message : string) : err :=
  Domain 401 message "" (Some (Sentinel ErrUnauthorized)).

Definition NewForbiddenError (message : string) : err :=
  Domain 403 message "" (Some (Sentinel ErrForbidden)).

Definition NewAlreadyExistsError (entity field value : string) : err :=
  Domain 409
    (entity +:+ " with " +:+ field +:+ " '" +:+ value +:+ "' already exists")
    "" (Some (Sentinel ErrAlreadyExists)).

(** *** Money

    An amount in the smallest unit, as an [int64], and a currency code.
    The operations on floating-point numbers ([MYRFromFloat], [Float64],
    [Multiply], [Percentage], [String]) are left out. *)
Record Money := {
  amount : Z;
  currency : string
}.

Definition Money_zero : Money := {| amount := 0; currency := "" |}.

Definition CurrencyMYR : string := "MYR".
Definition CurrencyUSD : string := "USD".
Definition CurrencySGD : string := "SGD".

Definition NewMoney (amountCents : Z) (cur : string) : Money :=
  {| amount := amountCents; currency := cur |}.

Definition MYR (amountSen : Z) : Money :=
  {| amount := amountSen; currency := CurrencyMYR |}.

Definition Zero (cur : string) : Money := {| amount := 0; currency := cur |}.

Definition FromCents (cents : Z) (cur : string) : Money :=
  {| amount := cents; currency := cur |}.

Definition Amount (m : Money) : Z := amount m.
Definition Currency (m : Money) : string := currency m.

(** [Add]: the sum wraps around like every [int64] sum. *)
Definition Add (m other : Money) : Money * option err :=
  if bool_decide (currency m <> currency other) then
    (Money_zero,
     Some (Other ("cannot add " +:+ currency m +:+ " and " +:+ currency other)))
  else
    ({| amount := wrap_int (amount m + amount other);
        currency := currency m |}, None).

Definition Subtract (m other : Money) : Money * option err :=
  if bool_decide (currency m <> currency other) then
    (Money_zero,
     Some (Other ("cannot subtract " +:+ currency other +:+ " from "
                  +:+ currency m)))
  else
    ({| amount := wrap_int (amount m - amount other);
        currency := currency m |}, None).

Definition IsNegative (m : Money) : bool := amount m <? 0.
Definition IsZero (m : Money) : bool := amount m =? 0.
Definition IsPositive (m : Money) : bool := 0 <? amount m.

Definition Equals (m other : Money) : bool :=
  (amount m =? amount other) && bool_decide (currency m = currency other).

Definition GreaterThan (m other : Money) : bool :=
  bool_decide (currency m = currency other) && (amount other <? amount m).

(** *** Entities

    [uuid.UUID] is an array of sixteen bytes; a [*uuid.UUID] or a
    [*time.Time] is [None] when nil.  What [uuid.New()] and
    [time.Now().UTC()] return at a call is an argument of the function that
    makes the call. *)
Definition UUID : Type := bytes.

Section Entities.
Context {TC : TimeCodec}.

Record BaseEntity := {
  ID : UUID;
  Version : Z;
  CreatedAt : Time;
  UpdatedAt : Time
}.

Definition NewBaseEntity (id : UUID) (now : Time) : BaseEntity :=
  {| ID := id; Version := 1; CreatedAt := now; UpdatedAt := now |}.

Definition IncrementVersion (now : Time) (e : BaseEntity) : BaseEntity :=
  {| ID := ID e; Version := wrap_int (Version e + 1);
     CreatedAt := CreatedAt e; UpdatedAt := now |}.

Definition SetVersion (v : Z) (e : BaseEntity) : BaseEntity :=
  {| ID := ID e; Version := v;
     CreatedAt := CreatedAt e; UpdatedAt := UpdatedAt e |}.

Record AuditableEntity := {
  Base : BaseEntity;
  CreatedBy : option UUID;
  UpdatedBy : option UUID;
  DeletedAt : option Time
}.

Definition NewAuditableEntity (id : UUID) (now : Time)
    (createdBy : option UUID) : AuditableEntity :=
  {| Base := NewBaseEntity id now; CreatedBy := createdBy;
     UpdatedBy := None; DeletedAt := None |}.

Definition SoftDelete (now : Time) (deletedBy : option UUID)
    (e : AuditableEntity) : AuditableEntity :=
  {| Base := {| ID := ID (Base e); Version := Version (Base e);
                CreatedAt := CreatedAt (Base e); UpdatedAt := now |};
     CreatedBy := CreatedBy e;
     UpdatedBy := deletedBy;
     DeletedAt := Some now |}.

Definition IsDeleted (e : AuditableEntity) : bool :=
  match DeletedAt e with Some _ => true | None => false end.

Record DomainEvent := {
  EventID : UUID;
  EventType : string;
  AggregateID : UUID;
  EventVersion : Z;
  Payload : list (string * json.value);
  OccurredAt : Time
}.

Definition NewDomainEvent (id : UUID) (now : Time) (eventType : string)
    (aggregateID : UUID) (version : Z) (payload : list (string * json.value))
  : DomainEvent :=
  {| EventID := id; EventType := eventType; AggregateID := aggregateID;
     EventVersion := version; Payload := payload; OccurredAt := now |}.

Record AggregateRoot := {
  Auditable : AuditableEntity;
  domainEvents : list DomainEvent
}.

Definition NewAggregateRoot (id : UUID) (now : Time)
    (createdBy : option UUID) : AggregateRoot :=
  {| Auditable := NewAuditableEntity id now createdBy; domainEvents := [] |}.

Definition AddDomainEvent (event : DomainEvent) (ar : AggregateRoot)
  : AggregateRoot :=
  {| Auditable := Auditable ar; domainEvents := domainEvents ar ++ [event] |}.

Definition GetDomainEvents (ar : AggregateRoot) : list DomainEvent :=
  domainEvents ar.

Definition ClearDomainEvents (ar : AggregateRoot) : AggregateRoot :=
  {| Auditable := Auditable ar; domainEvents := [] |}.

Definition HasDomainEvents (ar : AggregateRoot) : bool :=
  (0 <? length (domainEvents ar))%nat.

End Entities.

(** *** A page of results *)
Record PaginatedResult (T : Type) := {
  Items : list T;
  Total : Z;
  Page : Z;
  Limit : Z;
  TotalPages : Z
}.
Arguments Items {T} _.
Arguments Total {T} _.
Arguments Page {T} _.
Arguments Limit {T} _.
Arguments TotalPages {T} _.

(** [NewPaginatedResult]: [None] is the division panic. *)
Definition NewPaginatedResult {T : Type} (items : list T)
    (total page limit : Z) : option (PaginatedResult T) :=
  match int_quo total limit, int_rem total limit with
  | Some q, Some r =>
      let totalPages := if 0 <? r then wrap_int (q + 1) else q in
      Some {| Items := items; Total := total; Page := page; Limit := limit;
              TotalPages := totalPages |}
  | _, _ => None
  end.

End domain.

Module response.

(** The [pagination] object of the body, and the body itself
    ([gin.H] with fixed keys); [Data] stays abstract. *)
Record Pagination := {
  pg_total : Z;
  pg_page : Z;
  pg_limit : Z;
  pg_total_pages : Z
}.

Record Body (Data : Type) := {
  status : Z;
  success : bool;
  data : Data;
  pagination : Pagination
}.
Arguments status {Data} _.
Arguments success {Data} _.
Arguments data {Data} _.
Arguments pagination {Data} _.

(** [Paginated]: [None] is the division panic, which leaves no response
    written. *)
Definition Paginated {Data : Type} (d : Data) (total page limit : Z)
  : option (Body Data) :=
  match int_quo total limit, int_rem total limit with
  | Some q, Some r =>
      let totalPages := if 0 <? r then wrap_int (q + 1) else q in
      Some {| status := 200;
              success := true;
              data := d;
              pagination := {| pg_total := total;
                               pg_page := page;
                               pg_limit := limit;
                               pg_total_pages := totalPages |} |}
  | _, _ => None
  end.

(** The ceiling of [a / b] for [b > 0]: the least [p] with [a <= b * p]. *)
Definition ceil_div (a b : Z) : Z := - ((- a) / b).


(** What a helper hands to gin: [c.JSON(code, obj)] with [obj] a [gin.H],
    or [c.Status(code)]. *)
Inductive Call :=
  | JSON (code : Z) (obj : gmap string json.value)
  | Status (code : Z).

(** [Success]. *)
Definition Success (d : json.value) : Call :=
  JSON 200 {[ "success" := json.VBool true; "data" := d ]}.

(** [Created]. *)
Definition Created (d : json.value) : Call :=
  JSON 201 {[ "success" := json.VBool true; "data" := d ]}.

(** [NoContent]. *)
Definition NoContent : Call := Status 204.

(** [BadRequest]. *)
Definition BadRequest (message : string) : Call :=
  JSON 400 {[ "success" := json.VBool false;
              "error" := json.VString message ]}.

Definition failure (code : Z) (text : string) : Call :=
  JSON code {[ "success" := json.VBool false; "error" := json.VString text ]}.

(** [Error]; [None] is a nil error, on which [errors.As] and [errors.Is]
    answer false. *)
Definition Error (e : option domain.err) : Call :=
  match e with
  | None => failure 500 "internal server error"
  | Some e =>
      match domain.As e with
      | Some domainErr =>
          JSON (domain.Code domainErr)
            {[ "success" := json.VBool false;
               "error" := json.VString (domain.Message domainErr);
               "detail" := json.VString (domain.Detail domainErr) ]}
      | None =>
          if domain.Is e domain.ErrNotFound then failure 404 "not found"
          else if domain.Is e domain.ErrUnauthorized then
            failure 401 "unauthorized"
          else if domain.Is e domain.ErrForbidden then failure 403 "forbidden"
          else if domain.Is e domain.ErrValidation then
            failure 400 (domain.Error e)
          else failure 500 "internal server error"
      end
  end.

End response.

Module kafka.

Section Messaging.
Context {TC : TimeCodec}.

(** [kafka.Message], with the fields the library reads or writes. *)
Record Message := {
  Topic : string;
  Partition : Z;
  Offset : Z;
  Key : bytes;
  Value : bytes;
  MsgTime : Time
}.

(** *** CloudEvent envelope *)

(** [Data] is a [json.RawMessage]: [None] is the nil slice. *)
Record CloudEvent := {
  ID : string;
  Source : string;
  Type_ : string;
  Time_ : Time;
  DataContentType : string;
  Data : option bytes
}.

(** [CloudEvent{}]. *)
Definition CloudEvent_zero : CloudEvent :=
  {| ID := ""; Source := ""; Type_ := ""; Time_ := Time_zero;
     DataContentType := ""; Data := None |}.

(** [NewCloudEvent]; [id] is what [uuid.New().String()] returns and [now]
    what [time.Now().UTC()] returns at the call. *)
Definition NewCloudEvent (id : string) (now : Time)
    (source eventType : string) (data : json.value)
  : CloudEvent * option error :=
  match json.Marshal data with
  | Error err =>
      (CloudEvent_zero, Some (Errorf "failed to marshal event data" err))
  | Ok dataBytes =>
      ({| ID := id;
          Source := source;
          Type_ := eventType;
          Time_ := now;
          DataContentType := "application/json";
          Data := Some dataBytes |}, None)
  end.

(** The fields of the struct by their [json] tags. *)
Inductive field := FID | FSource | FType | FTime | FDataContentType | FData.

Definition fields : list field :=
  [FID; FSource; FType; FTime; FDataContentType; FData].

Definition field_name (f : field) : string :=
  match f with
  | FID => "id"
  | FSource => "source"
  | FType => "type"
  | FTime => "time"
  | FDataContentType => "datacontenttype"
  | FData => "data"
  end.

(** A key as the encoder writes it: quoted, then a colon. *)
Definition key_text (f : field) : bytes :=
  json.appendString (field_name f) ++ bytes_of ":".

(** [json.Marshal] of a [CloudEvent]: the fields in the order of the
    declaration; the texts the [Time] and the [RawMessage] return pass
    through [compact]. *)
Definition Marshal_CloudEvent (e : CloudEvent) : result bytes :=
  match Time_MarshalJSON (Time_ e) with
  | Error err => Error (MarshalerError err)
  | Ok t =>
      match json.compact t with
      | Error err => Error (MarshalerError err)
      | Ok tc =>
          let raw :=
            match Data e with None => bytes_of "null" | Some m => m end in
          match json.compact raw with
          | Error err => Error (MarshalerError err)
          | Ok dc =>
              Ok (bytes_of "{"
                  ++ key_text FID ++ json.appendString (ID e)
                  ++ bytes_of "," ++ key_text FSource
                  ++ json.appendString (Source e)
                  ++ bytes_of "," ++ key_text FType
                  ++ json.appendString (Type_ e)
                  ++ bytes_of "," ++ key_text FTime ++ tc
                  ++ bytes_of "," ++ key_text FDataContentType
                  ++ json.appendString (DataContentType e)
                  ++ bytes_of "," ++ key_text FData ++ dc
                  ++ bytes_of "}")
          end
      end
  end.

(** [foldRune] on the runes that matter for these names: the two
    non-ASCII runes whose case orbit holds an ASCII letter (the long s and
    the Kelvin sign); every other non-ASCII rune folds to a non-ASCII rune,
    kept as it is. *)
Definition foldRune (r : N) : N :=
  (if r =? 0x17F then 0x53 else if r =? 0x212A then 0x4B else r)%N.

(** [foldName]. *)
Fixpoint foldName_from (skip : nat) (s : bytes) : bytes :=
  match s with
  | [] => []
  | b :: rest =>
      match skip with
      | S k => foldName_from k rest
      | O =>
          if (json.cc b <? 0x80)%N then
            (if ((0x61 <=? json.cc b) && (json.cc b <=? 0x7A))%N
             then byte_of_N (json.cc b - 32) else b)
            :: foldName_from 0 rest
          else
            let '(r, size) := json.DecodeRune s in
            json.AppendRune (foldRune r) ++ foldName_from (size - 1) rest
      end
  end.

Definition foldName (s : bytes) : bytes := foldName_from 0 s.

(** The field a key of the input selects: the names of the six fields
    differ after folding, so a key selects at most one. *)
Definition find_field (key : bytes) : option field :=
  List.find
    (fun f => bool_decide (foldName (bytes_of (field_name f)) = foldName key))
    fields.

Definition set_string (f : field) (v : string) (e : CloudEvent) : CloudEvent :=
  match f with
  | FID =>
      {| ID := v; Source := Source e; Type_ := Type_ e; Time_ := Time_ e;
         DataContentType := DataContentType e; Data := Data e |}
  | FSource =>
      {| ID := ID e; Source := v; Type_ := Type_ e; Time_ := Time_ e;
         DataContentType := DataContentType e; Data := Data e |}
  | FType =>
      {| ID := ID e; Source := Source e; Type_ := v; Time_ := Time_ e;
         DataContentType := DataContentType e; Data := Data e |}
  | FDataContentType =>
      {| ID := ID e; Source := Source e; Type_ := Type_ e; Time_ := Time_ e;
         DataContentType := v; Data := Data e |}
  | FTime | FData => e
  end.

Definition set_Time (t : Time) (e : CloudEvent) : CloudEvent :=
  {| ID := ID e; Source := Source e; Type_ := Type_ e; Time_ := t;
     DataContentType := DataContentType e; Data := Data e |}.

Definition set_Data (d : bytes) (e : CloudEvent) : CloudEvent :=
  {| ID := ID e; Source := Source e; Type_ := Type_ e; Time_ := Time_ e;
     DataContentType := DataContentType e; Data := Some d |}.

(** The decoder's walk over the members of an object, storing into the
    struct.  A value of the wrong kind for a string field is remembered
    ([saved], the first such) and the walk goes on; an error of
    [UnmarshalJSON] ends it. *)
Fixpoint decode_members (ms : list (bytes * bytes * json.syntax))
    (e : CloudEvent) (saved : option error) : result CloudEvent :=
  match ms with
  | [] => match saved with Some err => Error err | None => Ok e end
  | (k, raw, j) :: ms' =>
      match find_field k with
      | None => decode_members ms' e saved
      | Some FTime =>
          match Time_UnmarshalJSON raw (Time_ e) with
          | Ok t => decode_members ms' (set_Time t e) saved
          | Error err => Error err
          end
      | Some FData => decode_members ms' (set_Data raw e) saved
      | Some f =>
          match j with
          | json.JStr t => decode_members ms' (set_string f (string_of t) e) saved
          | json.JNull => decode_members ms' e saved
          | _ =>
              decode_members ms' e
                (match saved with
                 | Some err => Some err
                 | None => Some (UnmarshalTypeError (field_name f))
                 end)
          end
      end
  end.

(** [json.Unmarshal(data, &event)] for [event] holding [e]. *)
Definition Unmarshal_CloudEvent (data : bytes) (e : CloudEvent)
  : result CloudEvent :=
  match json.parse_top data with
  | None => Error SyntaxError
  | Some json.JNull => Ok e
  | Some (json.JObj ms) => decode_members ms e None
  | Some _ => Error (UnmarshalTypeError "")
  end.

(** [ParseCloudEvent]. *)
Definition ParseCloudEvent (data : bytes) : CloudEvent * option error :=
  match Unmarshal_CloudEvent data CloudEvent_zero with
  | Error err =>
      (CloudEvent_zero, Some (Errorf "failed to parse cloud event" err))
  | Ok event => (event, None)
  end.

(** [ParseData] with a pointer to a variable of type [target] just
    declared: what the variable holds afterwards, or the error. *)
Definition ParseData (e : CloudEvent) (target : json.gotype)
  : result json.held :=
  json.Unmarshal target (match Data e with None => [] | Some m => m end).

(** *** Producer *)

(** [kafka.Writer] as [getWriter] configures it ([BatchTimeout] in
    milliseconds, [RequiredAcks] one for [RequireOne], the balancer always
    [LeastBytes]). *)
Record Writer := {
  Addr : list string;
  WTopic : string;
  BatchTimeout : Z;
  RequiredAcks : Z
}.

(** What [json.Marshal] is handed by [Publish]: application data, or an
    envelope (from [PublishEvent]). *)
Inductive Payload :=
  | PValue (v : json.value)
  | PEvent (e : CloudEvent).

Definition Marshal_payload (p : Payload) : result bytes :=
  match p with
  | PValue v => json.Marshal v
  | PEvent e => Marshal_CloudEvent e
  end.

Inductive Level := LvDebug | LvError.

Record LogEntry := {
  level : Level;
  text : string;
  log_topic : string;
  log_key : string;
  log_err : option error
}.

(** A producer and what it has done: the map from topic to writer (a
    writer is a pointer, here the index of the object in [objects], the
    writers allocated so far in order), the broker list, the log, and the
    world behind the writers (clock and broker). *)
Record Producer (W : Type) := {
  writers : gmap string nat;
  brokers : list string;
  objects : list Writer;
  logged : list LogEntry;
  world : W
}.
Arguments writers {W} _.
Arguments brokers {W} _.
Arguments objects {W} _.
Arguments logged {W} _.
Arguments world {W} _.

(** The collaborators of [Publish]: the clock and the broker write, which
    blocks until acknowledged and may fail. *)
Record ProducerEnv (W : Type) := {
  Now : W -> Time * W;
  WriteMessages : nat -> Message -> W -> option error * W
}.
Arguments Now {W} _ _.
Arguments WriteMessages {W} _ _ _ _.

Section Publish.
Context {W : Type} (env : ProducerEnv W).

(** [NewProducer]. *)
Definition NewProducer (bs : list string) (w : W) : Producer W :=
  {| writers := ∅; brokers := bs; objects := []; logged := []; world := w |}.

(** [getWriter]. *)
Definition getWriter (topic : string) (p : Producer W) : nat * Producer W :=
  match writers p !! topic with
  | Some w => (w, p)
  | None =>
      let w := length (objects p) in
      (w,
       {| writers := <[topic := w]> (writers p);
          brokers := brokers p;
          objects := objects p
                     ++ [{| Addr := brokers p; WTopic := topic;
                            BatchTimeout := 10; RequiredAcks := 1 |}];
          logged := logged p;
          world := world p |})
  end.

Definition with_world (w : W) (p : Producer W) : Producer W :=
  {| writers := writers p; brokers := brokers p; objects := objects p;
     logged := logged p; world := w |}.

Definition with_log (l : LogEntry) (p : Producer W) : Producer W :=
  {| writers := writers p; brokers := brokers p; objects := objects p;
     logged := logged p ++ [l]; world := world p |}.

(** [Publish]. *)
Definition Publish (topic key : string) (payload : Payload) (p : Producer W)
  : option error * Producer W :=
  match Marshal_payload payload with
  | Error err => (Some (Errorf "failed to marshal payload" err), p)
  | Ok data =>
      let '(writer, p1) := getWriter topic p in
      let '(now, w1) := Now env (world p1) in
      let msg := {| Topic := ""; Partition := 0; Offset := 0;
                    Key := bytes_of key; Value := data; MsgTime := now |} in
      let '(r, w2) := WriteMessages env writer msg w1 in
      match r with
      | Some err =>
          (Some (Errorf ("failed to publish to " +:+ topic) err),
           with_log {| level := LvError; text := "failed to publish message";
                       log_topic := topic; log_key := key;
                       log_err := Some err |}
             (with_world w2 p1))
      | None =>
          (None,
           with_log {| level := LvDebug; text := "message published";
                       log_topic := topic; log_key := key;
                       log_err := None |}
             (with_world w2 p1))
      end
  end.

(** [PublishEvent]. *)
Definition PublishEvent (topic : string) (event : CloudEvent) (p : Producer W)
  : option error * Producer W :=
  Publish topic (ID event) (PEvent event) p.

(** [PublishEnvelope] as the design document words it: publish under the
    identifier of the envelope, with the envelope as payload. *)
Definition PublishEnvelope_spec (topic : string) (envelope : CloudEvent)
    (p : Producer W) : option error * Producer W :=
  let key := ID envelope in
  let payload := PEvent envelope in
  Publish topic key payload p.

(** Publishing one after the other on the same producer. *)
Fixpoint Publish_all (topic : string) (calls : list (string * Payload))
    (p : Producer W) : list (option error) * Producer W :=
  match calls with
  | [] => ([], p)
  | (key, payload) :: rest =>
      let '(r, p1) := Publish topic key payload p in
      let '(rs, p2) := Publish_all topic rest p1 in
      (r :: rs, p2)
  end.

End Publish.


(** [Close] of the producer.  [range] over a map yields the entries in an
    order Go leaves open: [order] is the order of this call, some
    arrangement of the entries of [writers].  [WriterClose] is
    the [Close] of a [kafka.Writer], which flushes what is pending and may fail.
    The log entry of a failed close carries the topic and the error (no
    key).  Beside the producer the calls made are returned, in order. *)
Section Close.
Context {W : Type} (WriterClose : nat -> W -> option error * W).

Fixpoint Close_range (order : list (string * nat)) (p : Producer W)
  : Producer W * list (string * nat * option error) :=
  match order with
  | [] => (p, [])
  | (topic, w) :: rest =>
      let '(r, w1) := WriterClose w (world p) in
      let p1 :=
        {| writers := writers p; brokers := brokers p; objects := objects p;
           logged := logged p; world := w1 |} in
      let p2 :=
        match r with
        | Some err =>
            {| writers := writers p1; brokers := brokers p1;
               objects := objects p1;
               logged := logged p1
                         ++ [{| level := LvError;
                                text := "failed to close writer";
                                log_topic := topic; log_key := "";
                                log_err := Some err |}];
               world := world p1 |}
        | None => p1
        end in
      let '(p3, calls) := Close_range rest p2 in
      (p3, (topic, w, r) :: calls)
  end.

Definition Close (order : list (string * nat)) (p : Producer W)
  : option error * Producer W * list (string * nat * option error) :=
  let '(p', calls) := Close_range order p in (None, p', calls).

End Close.

(** **** Callers of [getWriter] running at the same time

    [getWriter] takes no lock: between its look-up in the map and its
    store into it other callers may run.  Each caller is at its look-up, or
    past a look-up that found nothing, or done with the writer it
    returns. *)
Inductive Caller :=
  | AtLookup (topic : string)
  | AtStore (topic : string)
  | Returned (w : nat).

Record Shared := {
  sh_writers : gmap string nat;
  sh_brokers : list string;
  sh_objects : list Writer
}.

(** One step of one caller. *)
Definition caller_step (c : Caller) (s : Shared) : Caller * Shared :=
  match c with
  | AtLookup topic =>
      match sh_writers s !! topic with
      | Some w => (Returned w, s)
      | None => (AtStore topic, s)
      end
  | AtStore topic =>
      let w := length (sh_objects s) in
      (Returned w,
       {| sh_writers := <[topic := w]> (sh_writers s);
          sh_brokers := sh_brokers s;
          sh_objects := sh_objects s
                        ++ [{| Addr := sh_brokers s; WTopic := topic;
                               BatchTimeout := 10; RequiredAcks := 1 |}] |})
  | Returned w => (c, s)
  end.

(** The callers and the shared producer after a schedule: each entry
    names the caller that moves next. *)
Fixpoint run_schedule (sched : list nat) (cs : list Caller) (s : Shared)
  : list Caller * Shared :=
  match sched with
  | [] => (cs, s)
  | i :: sched' =>
      match cs !! i with
      | Some c =>
          let '(c', s') := caller_step c s in
          run_schedule sched' (<[i := c']> cs) s'
      | None => run_schedule sched' cs s
      end
  end.

(** The shared part of a new producer. *)
Definition fresh (bs : list string) : Shared :=
  {| sh_writers := ∅; sh_brokers := bs; sh_objects := [] |}.

Definition sh_created_for (topic : string) (s : Shared) : nat :=
  length (filter (fun w => WTopic w = topic) (sh_objects s)).

Definition all_returned (cs : list Caller) : Prop :=
  Forall (fun c => match c with Returned _ => True | _ => False end) cs.

(** A schedule in which every caller that starts runs to its return
    before another moves, which is what mutual exclusion around
    [getWriter] would enforce. *)
Fixpoint serial (sched : list nat) : Prop :=
  match sched with
  | [] => True
  | [_] => False
  | i :: j :: sched' => i = j /\ serial sched'
  end.

(** *** Consumer

    Everything outside the loop (the reader's session with the broker, the
    context, whatever the handler keeps) is one world value that each call
    may advance: a cancellation arriving while [FetchMessage] blocks shows
    in the world that the fetch returns. *)
Record ConsumerEnv (W : Type) := {
  ctx_Err : W -> option error;
  FetchMessage : W -> result Message * W;
  handler : Message -> W -> option error * W;
  CommitMessages : Message -> W -> option error * W
}.
Arguments ctx_Err {W} _ _.
Arguments FetchMessage {W} _ _.
Arguments handler {W} _ _ _.
Arguments CommitMessages {W} _ _ _.

(** What the loop does that can be seen from outside, in order. *)
Inductive Event :=
  | EvInfo (msg : string)
  | EvFetch (r : result Message)
  | EvHandle (m : Message) (r : option error)
  | EvCommit (m : Message) (r : option error)
  | EvError (msg : string) (e : error).

Inductive Flow :=
  | Continue
  | Return (e : option error).

Section Consume.
Context {W : Type} (c : ConsumerEnv W).

(** One pass through the body of the [for]: the [select] on [ctx.Done()],
    then fetch, handle, commit. *)
Definition iteration (w : W) : Flow * W * list Event :=
  match ctx_Err c w with
  | Some e => (Return (Some e), w, [EvInfo "consumer stopping"])
  | None =>
      let '(r, w1) := FetchMessage c w in
      match r with
      | Error err =>
          match ctx_Err c w1 with
          | Some e => (Return (Some e), w1, [EvFetch r])
          | None =>
              (Continue, w1, [EvFetch r; EvError "failed to fetch message" err])
          end
      | Ok msg =>
          let '(hr, w2) := handler c msg w1 in
          match hr with
          | Some err =>
              (Continue, w2,
               [EvFetch r; EvHandle msg hr;
                EvError "failed to handle message" err])
          | None =>
              let '(cr, w3) := CommitMessages c msg w2 in
              (Continue, w3,
               [EvFetch r; EvHandle msg None; EvCommit msg cr]
               ++ match cr with
                  | Some err => [EvError "failed to commit message" err]
                  | None => []
                  end)
          end
      end
  end.

(** The [for] loop, cut after [fuel] passes: [None] as outcome means that
    the loop is still running then. *)
Fixpoint Consume_loop (fuel : nat) (w : W)
  : option (option error) * W * list Event :=
  match fuel with
  | O => (None, w, [])
  | S n =>
      let '(f, w1, evs) := iteration w in
      match f with
      | Return e => (Some e, w1, evs)
      | Continue =>
          let '(r, w2, evs') := Consume_loop n w1 in (r, w2, evs ++ evs')
      end
  end.

Definition Consume (fuel : nat) (w : W)
  : option (option error) * W * list Event :=
  let '(r, w', evs) := Consume_loop fuel w in
  (r, w', EvInfo "starting consumer" :: evs).

End Consume.

(** A scripted world for running the loop: the deliveries the broker
    session still holds, the state of the context, and a handler that
    fails on chosen attempts.  Once the script is used up the blocked fetch
    is interrupted by cancellation. *)
Record Sim := {
  pending : list (result Message);
  interrupt : list bool;
  cancelled : option error;
  attempts : nat;
  failing : list nat;
  committed : list Message
}.

Definition sim_fetch (w : Sim) : result Message * Sim :=
  match pending w, interrupt w with
  | r :: rest, i :: is' =>
      (r, {| pending := rest; interrupt := is';
             cancelled := if i then Some Canceled else cancelled w;
             attempts := attempts w; failing := failing w;
             committed := committed w |})
  | r :: rest, [] =>
      (r, {| pending := rest; interrupt := [];
             cancelled := cancelled w;
             attempts := attempts w; failing := failing w;
             committed := committed w |})
  | [], _ =>
      (Error Canceled,
       {| pending := []; interrupt := []; cancelled := Some Canceled;
          attempts := attempts w; failing := failing w;
          committed := committed w |})
  end.

Definition sim_handle (m : Message) (w : Sim) : option error * Sim :=
  (if bool_decide (attempts w ∈ failing w)
   then Some (External "handler failed") else None,
   {| pending := pending w; interrupt := interrupt w;
      cancelled := cancelled w;
      attempts := S (attempts w); failing := failing w;
      committed := committed w |}).

Definition sim_commit (m : Message) (w : Sim) : option error * Sim :=
  (None,
   {| pending := pending w; interrupt := interrupt w;
      cancelled := cancelled w;
      attempts := attempts w; failing := failing w;
      committed := committed w ++ [m] |}).

Definition sim : ConsumerEnv Sim :=
  {| ctx_Err := cancelled;
     FetchMessage := sim_fetch;
     handler := sim_handle;
     CommitMessages := sim_commit |}.

(** A scripted broker for running the producer: the outcomes of the
    coming writes (success once the script is used up) and what has been
    delivered; the clock stands still. *)
Record PSim := {
  clock : Time;
  acks : list (option error);
  delivered : list (nat * Message)
}.

Definition psim_write (wr : nat) (msg : Message) (w : PSim)
  : option error * PSim :=
  match acks w with
  | Some err :: rest =>
      (Some err, {| clock := clock w; acks := rest; delivered := delivered w |})
  | None :: rest =>
      (None, {| clock := clock w; acks := rest;
                delivered := delivered w ++ [(wr, msg)] |})
  | [] =>
      (None, {| clock := clock w; acks := [];
                delivered := delivered w ++ [(wr, msg)] |})
  end.

Definition psim : ProducerEnv PSim :=
  {| Now := fun w => (clock w, w); WriteMessages := psim_write |}.

End Messaging.

Arguments writers {W} _.
Arguments brokers {W} _.
Arguments objects {W} _.
Arguments logged {W} _.
Arguments world {W} _.
Arguments Now {TC W} _ _.
Arguments WriteMessages {TC W} _ _ _ _.
Arguments ctx_Err {TC W} _ _.
Arguments FetchMessage {TC W} _ _.
Arguments handler {TC W} _ _ _.
Arguments CommitMessages {TC W} _ _ _.

End kafka.

(** ** Package [resilience] *)
Module resilience.

(** [RetryConfig]; the delays are [time.Duration]s, a count of
    nanoseconds in an [int64]. *)
Record RetryConfig := {
  MaxRetries : Z;
  BaseDelay : Z;
  MaxDelay : Z
}.

Definition DefaultRetryConfig : RetryConfig :=
  {| MaxRetries := 3; BaseDelay := 100 * 1000000; MaxDelay := 5 * 1000000000 |}.

(** What goes on around [WithRetry]: the operation, the [select] between
    [ctx.Done()] and the timer ([Some e] when the context wins, [e] being
    what [ctx.Err()] returns then), and the conversion of a product of
    floating-point numbers to a [Duration] where the product is not a
    number an [int64] holds, which Go leaves to the platform. *)
Record RetryEnv (W : Type) := {
  fn : W -> option error * W;
  wait : Z -> W -> option error * W;
  out_of_range : Z -> Z -> Z
}.
Arguments fn {W} _ _.
Arguments wait {W} _ _ _.
Arguments out_of_range {W} _ _ _.

(** What can be seen of a run: the calls of the operation with their
    results, the warnings logged and the waits, with the delay. *)
Inductive Event :=
  | EvCall (attempt : Z) (r : option error)
  | EvWarn (operation : string) (attempt : Z) (delay : Z) (e : error)
  | EvWait (delay : Z) (interrupted : option error).

Section WithRetry.
Context {W : Type} (env : RetryEnv W).

(** [time.Duration(float64(base) * math.Pow(2, float64(attempt)))].  The
    conversion of [base] is exact below [2^53] in size, the power of two
    is exact, and so are the product and the conversion back as long as
    the product is within [int64]. *)
Definition backoff (base attempt : Z) : Z :=
  if (0 <=? attempt) && (attempt <=? 1023)
     && (- 2 ^ 53 <? base) && (base <? 2 ^ 53)
     && (- 2 ^ 63 <? base * 2 ^ attempt) && (base * 2 ^ attempt <? 2 ^ 63)
  then base * 2 ^ attempt
  else out_of_range env base attempt.

(** The delay before the next attempt. *)
Definition delay_of (config : RetryConfig) (attempt : Z) : Z :=
  let delay := backoff (BaseDelay config) attempt in
  if MaxDelay config <? delay then MaxDelay config else delay.

(** The [for] loop from [attempt] on, with [left] passes to go before
    [attempt] exceeds [MaxRetries].  The attempt logged is [attempt + 1],
    which is at most [MaxRetries] there. *)
Fixpoint attempts (config : RetryConfig) (operation : string)
    (left : nat) (attempt : Z) (lastErr : option error) (w : W)
  : option error * W * list Event :=
  match left with
  | O => (lastErr, w, [])
  | S left' =>
      let '(r, w1) := fn env w in
      match r with
      | None => (None, w1, [EvCall attempt None])
      | Some e =>
          if attempt =? MaxRetries config then
            (Some e, w1, [EvCall attempt (Some e)])
          else
            let delay := delay_of config attempt in
            let '(c, w2) := wait env delay w1 in
            match c with
            | Some ce =>
                (Some ce, w2,
                 [EvCall attempt (Some e);
                  EvWarn operation (attempt + 1) delay e;
                  EvWait delay (Some ce)])
            | None =>
                let '(res, w3, evs) :=
                  attempts config operation left' (attempt + 1) (Some e) w2 in
                (res, w3,
                 [EvCall attempt (Some e);
                  EvWarn operation (attempt + 1) delay e;
                  EvWait delay None] ++ evs)
            end
      end
  end.

(** [WithRetry]. *)
Definition WithRetry (config : RetryConfig) (operation : string) (w : W)
  : option error * W * list Event :=
  attempts config operation (Z.to_nat (MaxRetries config + 1)) 0 None w.

End WithRetry.

End resilience.

(** ** Package [auth]: the claims and the check of an access token *)
Module auth.

Definition AccessToken : string := "access".
Definition RefreshToken : string := "refresh".

Definition RoleOwner : string := "owner".
Definition RoleRunner : string := "runner".
Definition RoleAdmin : string := "admin".
Definition RoleShop : string := "shop".

(** [Claims], without the registered claims, which the middleware does
    not read; [TokenType] and [UserRole] are string types. *)
Record Claims := {
  UserID : domain.UUID;
  Email : string;
  Role : string;
  TokenType : string
}.

Section Validate.
(** [jwt.ParseWithClaims] with the key function of the manager: the error,
    or the claims of the token and its [Valid] flag. *)
Context (ParseWithClaims : string -> result (Claims * bool)).

(** [ValidateToken]. *)
Definition ValidateToken (tokenString : string) : result Claims :=
  match ParseWithClaims tokenString with
  | Error err => Error (Errorf "invalid token" err)
  | Ok (claims, valid) =>
      if valid then Ok claims else Error (External "invalid token claims")
  end.

(** [ValidateAccessToken]. *)
Definition ValidateAccessToken (tokenString : string) : result Claims :=
  match ValidateToken tokenString with
  | Error err => Error err
  | Ok claims =>
      if bool_decide (TokenType claims <> AccessToken) then
        Error (External "token is not an access token")
      else Ok claims
  end.

End Validate.

End auth.

(** ** Package [middleware] *)
Module middleware.

(** What a handler does with the request: [c.Next()], or
    [c.AbortWithStatusJSON(code, obj)]. *)
Inductive Outcome :=
  | Next
  | Abort (code : Z) (obj : gmap string json.value).

Definition refuse (code : Z) (text : string) : Outcome :=
  Abort code {[ "error" := json.VString text ]}.

(** *** Authentication *)

(** The values kept in the gin context, by their dynamic type. *)
Inductive any :=
  | AnyUUID (u : domain.UUID)
  | AnyString (s : string)
  | AnyRole (r : string)
  | AnyOther.

Definition ContextKeyUserID : string := "user_id".
Definition ContextKeyEmail : string := "email".
Definition ContextKeyRole : string := "role".

(** [strings.SplitN(s, " ", 2)]: [Some] of the text before the first
    space and the text after it when there are two parts, [None] when [s]
    has no space and is the only part. *)
Fixpoint SplitN2 (s : string) : option (string * string) :=
  match s with
  | EmptyString => None
  | String c rest =>
      if Ascii.eqb c " " then Some (EmptyString, rest)
      else
        match SplitN2 rest with
        | Some (a, b) => Some (String c a, b)
        | None => None
        end
  end.

Definition lower (c : ascii) : ascii :=
  let n := Ascii.N_of_ascii c in
  if ((65 <=? n) && (n <=? 90))%N then Ascii.ascii_of_N (n + 32) else c.

Definition is_ascii (c : ascii) : bool := (Ascii.N_of_ascii c <? 128)%N.

Fixpoint all_ascii (s : string) : bool :=
  match s with
  | EmptyString => true
  | String c rest => is_ascii c && all_ascii rest
  end.

Fixpoint map_string (f : ascii -> ascii) (s : string) : string :=
  match s with
  | EmptyString => EmptyString
  | String c rest => String (f c) (map_string f rest)
  end.

Section Auth.
(** The token parser, and [strings.ToLower] on a text that is not all
    ASCII, which goes by the tables of [unicode]. *)
Context (ParseWithClaims : string -> result (auth.Claims * bool))
        (unicode_ToLower : string -> string).

(** [strings.ToLower]. *)
Definition ToLower (s : string) : string :=
  if all_ascii s then map_string lower s else unicode_ToLower s.

(** [AuthMiddleware] on a request with the given [Authorization] header
    (empty when there is none) and context keys. *)
Definition AuthMiddleware (authHeader : string) (keys : gmap string any)
  : Outcome * gmap string any :=
  if bool_decide (authHeader = "") then
    (refuse 401 "authorization header is required", keys)
  else
    match SplitN2 authHeader with
    | None => (refuse 401 "authorization header must be Bearer {token}", keys)
    | Some (scheme, token) =>
        if bool_decide (ToLower scheme <> "bearer") then
          (refuse 401 "authorization header must be Bearer {token}", keys)
        else
          match auth.ValidateAccessToken ParseWithClaims token with
          | Error _ => (refuse 401 "invalid or expired token", keys)
          | Ok claims =>
              (Next,
               <[ContextKeyRole := AnyRole (auth.Role claims)]>
                 (<[ContextKeyEmail := AnyString (auth.Email claims)]>
                    (<[ContextKeyUserID := AnyUUID (auth.UserID claims)]>
                       keys)))
          end
    end.

End Auth.

(** [RequireRole]. *)
Definition RequireRole (roles : list string) (keys : gmap string any)
  : Outcome :=
  match keys !! ContextKeyRole with
  | None => refuse 401 "authentication required"
  | Some (AnyRole userRole) =>
      if bool_decide (userRole ∈ roles) then Next
      else refuse 403 "insufficient permissions"
  | Some _ => refuse 500 "invalid role in context"
  end.

Definition UUID_zero : domain.UUID := replicate 16 Byte.x00.

(** [GetUserID]. *)
Definition GetUserID (keys : gmap string any) : domain.UUID * bool :=
  match keys !! ContextKeyUserID with
  | Some (AnyUUID id) => (id, true)
  | _ => (UUID_zero, false)
  end.

(** [GetUserRole]. *)
Definition GetUserRole (keys : gmap string any) : string * bool :=
  match keys !! ContextKeyRole with
  | Some (AnyRole role) => (role, true)
  | _ => ("", false)
  end.

(** *** Rate limiting

    Times are readings of the monotonic clock in nanoseconds, durations
    their differences; both are [int64]s. *)
Record visitor := {
  count : Z;
  lastSeen : Z
}.

(** [time.Since(t)] when the clock reads [now]: the difference, kept
    within the range of a [Duration]. *)
Definition Since (now t : Z) : Z := Z.max int_min (Z.min int_max (now - t)).

(** The handler [RateLimitMiddleware] returns, on a request from [ip];
    it runs under the mutex from the look-up to its decision.  [t1] is what
    the clock reads at the first reading of the call ([time.Since], or
    [time.Now] for a visitor not seen before) and [t2] at the second. *)
Definition RateLimit (maxRequests window : Z) (ip : string) (t1 t2 : Z)
    (visitors : gmap string visitor) : Outcome * gmap string visitor :=
  match visitors !! ip with
  | None => (Next, <[ip := {| count := 1; lastSeen := t1 |}]> visitors)
  | Some v =>
      if window <? Since t1 (lastSeen v) then
        (Next, <[ip := {| count := 1; lastSeen := t2 |}]> visitors)
      else
        let c := wrap_int (count v + 1) in
        let visitors' := <[ip := {| count := c; lastSeen := t2 |}]> visitors in
        if maxRequests <? c then
          (refuse 429 "rate limit exceeded", visitors')
        else (Next, visitors')
  end.

(** One round of the cleanup goroutine, under the mutex; [now ip] is what
    the clock reads when the entry of [ip] is looked at. *)
Definition cleanup (window : Z) (now : string -> Z)
    (visitors : gmap string visitor) : gmap string visitor :=
  filter (fun kv => ~ (window < Since (now kv.1) (lastSeen kv.2))) visitors.

(** Requests served one after the other. *)
Fixpoint serve (maxRequests window : Z) (reqs : list (string * Z * Z))
    (visitors : gmap string visitor)
  : list (string * Outcome) * gmap string visitor :=
  match reqs with
  | [] => ([], visitors)
  | (ip, t1, t2) :: rest =>
      let '(o, visitors1) := RateLimit maxRequests window ip t1 t2 visitors in
      let '(os, visitors2) := serve maxRequests window rest visitors1 in
      ((ip, o) :: os, visitors2)
  end.

End middleware.

(** ** Package [config] *)
Module config.

(** What is read of the [viper.Viper]. *)
Record Viper := {
  GetString : string -> string;
  GetInt : string -> Z
}.

(** [strings.Split(s, ",")]. *)
Fixpoint Split (s : string) : list string :=
  match s with
  | EmptyString => [EmptyString]
  | String c rest =>
      if Ascii.eqb c "," then EmptyString :: Split rest
      else
        match Split rest with
        | p :: ps => String c p :: ps
        | [] => [String c EmptyString]
        end
  end.

(** [strings.Join(parts, ",")]. *)
Fixpoint Join (parts : list string) : string :=
  match parts with
  | [] => ""
  | [p] => p
  | p :: ps => p +:+ "," +:+ Join ps
  end.

Record KafkaConfig := {
  Brokers : list string;
  GroupPrefix : string
}.

(** [LoadKafkaConfig]. *)
Definition LoadKafkaConfig (v : Viper) : KafkaConfig :=
  let brokersStr := GetString v "KAFKA_BROKERS" in
  {| Brokers := Split brokersStr;
     GroupPrefix := GetString v "KAFKA_GROUP_PREFIX" |}.

(** [GetAppEnv]. *)
Definition GetAppEnv (v : Viper) : string :=
  let env := GetString v "APP_ENV" in
  if bool_decide (env = "") then "production" else env.

(** [GetServicePort]. *)
Definition GetServicePort (v : Viper) (key : string) : string :=
  let port := GetInt v key in
  let port := if port =? 0 then 8080 else port in
  ":" +:+ string_of (json.format_int port).

End config.

(** * Properties *)

Module json_facts.
Import Init.Byte.
Import json.
Local Open Scope N_scope.

(** ** Bytes and their codes *)

Lemma cc_bound b : cc b < 256.
Proof. unfold cc. pose proof (Byte.to_N_bounded b). lia. Qed.

Lemma byte_of_cc b : byte_of_N (cc b) = b.
Proof.
  unfold byte_of_N, cc. rewrite N.mod_small by apply cc_bound.
  by rewrite Byte.of_to_N.
Qed.

Lemma cc_byte_of n : n < 256 -> cc (byte_of_N n) = n.
Proof.
  intros Hn. unfold byte_of_N, cc. rewrite N.mod_small by done.
  destruct (Byte.of_N n) as [b|] eqn:Hb.
  - by apply Byte.to_of_N.
  - apply Byte.of_N_None_iff in Hb. lia.
Qed.

Lemma cc_inj b1 b2 : cc b1 = cc b2 -> b1 = b2.
Proof. intros H. by rewrite <- (byte_of_cc b1), <- (byte_of_cc b2), H. Qed.

Lemma eqc_true c b : eqc c b = true <-> b = c.
Proof.
  unfold eqc. rewrite N.eqb_eq. split; [apply cc_inj|by intros ->].
Qed.

(** ** UTF-8: bit operations as arithmetic *)

Lemma lor_shiftl_small x n y :
  y < N.pow 2 n -> N.lor (N.shiftl x n) y = x * N.pow 2 n + y.
Proof.
  intros Hy. rewrite N.shiftl_mul_pow2.
  assert (Hd : N.land (x * 2 ^ n) y = 0).
  { apply N.bits_inj_0. intros i. rewrite N.land_spec.
    destruct (N.lt_ge_cases i n) as [Hi|Hi].
    - by rewrite N.mul_pow2_bits_low.
    - destruct (N.eq_dec y 0) as [->|Hne].
      + by rewrite N.bits_0, andb_false_r.
      + rewrite (N.bits_above_log2 y i), andb_false_r; [done|].
        apply N.log2_lt_pow2 in Hy; lia. }
  by rewrite <- N.lxor_lor, <- N.add_nocarry_lxor.
Qed.

Lemma div_mod_parts q m t : t < m -> (q * m + t) / m = q /\ (q * m + t) mod m = t.
Proof.
  intros Ht. split.
  - symmetry. apply (N.div_unique _ _ _ t); lia.
  - symmetry. apply (N.mod_unique _ _ q); lia.
Qed.

Lemma land_3F c : N.land c 0x3F = c mod 64.
Proof. exact (N.land_ones c 6). Qed.

Lemma land_1F c : N.land c 0x1F = c mod 32.
Proof. exact (N.land_ones c 5). Qed.

Lemma land_0F c : N.land c 0x0F = c mod 16.
Proof. exact (N.land_ones c 4). Qed.

Lemma land_07 c : N.land c 0x07 = c mod 8.
Proof. exact (N.land_ones c 3). Qed.

Lemma mod_in_range c lo m : lo = (lo / m) * m -> lo <= c < lo + m -> c mod m = c - lo.
Proof.
  intros Hlo Hc. symmetry. apply (N.mod_unique _ _ (lo / m)); lia.
Qed.

Ltac mask_to_mod :=
  rewrite ?land_3F, ?land_1F, ?land_0F, ?land_07, ?N.shiftr_div_pow2.

Lemma tail6 c : 0x80 <= c <= 0xBF -> c mod 64 = c - 128.
Proof. intros. apply (mod_in_range c 128 64); [done|lia]. Qed.

Lemma lor_80 y : y < 64 -> N.lor 0x80 y = 128 + y.
Proof. intros. change 0x80 with (N.shiftl 2 6). rewrite lor_shiftl_small; done. Qed.

Lemma lor_C0 y : y < 64 -> N.lor 0xC0 y = 192 + y.
Proof. intros. change 0xC0 with (N.shiftl 3 6). rewrite lor_shiftl_small; done. Qed.

Lemma lor_E0 y : y < 16 -> N.lor 0xE0 y = 224 + y.
Proof. intros. change 0xE0 with (N.shiftl 14 4). rewrite lor_shiftl_small; done. Qed.

Lemma lor_F0 y : y < 8 -> N.lor 0xF0 y = 240 + y.
Proof. intros. change 0xF0 with (N.shiftl 30 3). rewrite lor_shiftl_small; done. Qed.

(** A two-byte encoding read and written back. *)
Lemma rune2 c0 c1 :
  0xC2 <= c0 < 0xE0 -> 0x80 <= c1 <= 0xBF ->
  let r := N.lor (N.shiftl (N.land c0 0x1F) 6) (N.land c1 0x3F) in
  0x80 <= r <= 0x7FF
  /\ N.lor 0xC0 (N.shiftr r 6) = c0
  /\ N.lor 0x80 (N.land r 0x3F) = c1.
Proof.
  intros H0 H1 r. subst r. mask_to_mod.
  rewrite (tail6 c1 H1), (mod_in_range c0 192 32) by (done || lia).
  rewrite lor_shiftl_small by (vm_compute (N.pow 2 _); lia).
  change (2 ^ 6) with 64.
  destruct (div_mod_parts (c0 - 192) 64 (c1 - 128) ltac:(lia)) as [Hd Hm].
  rewrite Hd, Hm.
  rewrite lor_C0, lor_80 by lia. lia.
Qed.

(** A three-byte encoding read and written back. *)
Lemma rune3 c0 c1 c2 :
  0xE0 <= c0 < 0xF0 -> 0x80 <= c1 <= 0xBF -> 0x80 <= c2 <= 0xBF ->
  (c0 = 0xE0 -> 0xA0 <= c1) -> (c0 = 0xED -> c1 <= 0x9F) ->
  let r := N.lor (N.shiftl (N.land c0 0x0F) 12)
             (N.lor (N.shiftl (N.land c1 0x3F) 6) (N.land c2 0x3F)) in
  0x800 <= r <= 0xFFFF /\ ~ (0xD800 <= r <= 0xDFFF)
  /\ r = (c0 - 224) * 4096 + (c1 - 128) * 64 + (c2 - 128)
  /\ N.lor 0xE0 (N.shiftr r 12) = c0
  /\ N.lor 0x80 (N.land (N.shiftr r 6) 0x3F) = c1
  /\ N.lor 0x80 (N.land r 0x3F) = c2.
Proof.
  intros H0 H1 H2 Hlo Hhi r. subst r. mask_to_mod.
  rewrite (tail6 c1 H1), (tail6 c2 H2), (mod_in_range c0 224 16)
    by (done || lia).
  rewrite (lor_shiftl_small (c1 - 128) 6) by (vm_compute (N.pow 2 _); lia).
  rewrite lor_shiftl_small by (vm_compute (N.pow 2 _); lia).
  change (2 ^ 6) with 64. change (2 ^ 12) with 4096.
  set (a := c0 - 224). set (b := c1 - 128). set (c := c2 - 128).
  assert (a < 16 /\ b < 64 /\ c < 64) as (Ha & Hb & Hc) by (subst a b c; lia).
  destruct (div_mod_parts a 4096 (b * 64 + c) ltac:(lia)) as [Hd1 _].
  destruct (div_mod_parts (a * 64 + b) 64 c ltac:(lia)) as [Hd2 Hm2].
  destruct (div_mod_parts a 64 b ltac:(lia)) as [_ Hm3].
  replace (a * 4096 + (b * 64 + c)) with ((a * 64 + b) * 64 + c) in * by lia.
  rewrite Hd2, Hm2, Hm3.
  replace ((a * 64 + b) * 64 + c) with (a * 4096 + (b * 64 + c)) in * by lia.
  rewrite Hd1.
  rewrite lor_E0, !lor_80 by lia. subst a b c. lia.
Qed.

(** A four-byte encoding read and written back. *)
Lemma rune4 c0 c1 c2 c3 :
  0xF0 <= c0 <= 0xF4 -> 0x80 <= c1 <= 0xBF -> 0x80 <= c2 <= 0xBF ->
  0x80 <= c3 <= 0xBF ->
  (c0 = 0xF0 -> 0x90 <= c1) -> (c0 = 0xF4 -> c1 <= 0x8F) ->
  let r := N.lor (N.shiftl (N.land c0 0x07) 18)
             (N.lor (N.shiftl (N.land c1 0x3F) 12)
                (N.lor (N.shiftl (N.land c2 0x3F) 6) (N.land c3 0x3F))) in
  0xFFFF < r <= 0x10FFFF
  /\ N.lor 0xF0 (N.shiftr r 18) = c0
  /\ N.lor 0x80 (N.land (N.shiftr r 12) 0x3F) = c1
  /\ N.lor 0x80 (N.land (N.shiftr r 6) 0x3F) = c2
  /\ N.lor 0x80 (N.land r 0x3F) = c3.
Proof.
  intros H0 H1 H2 H3 Hlo Hhi r. subst r. mask_to_mod.
  rewrite (tail6 c1 H1), (tail6 c2 H2), (tail6 c3 H3),
    (mod_in_range c0 240 8) by (done || lia).
  rewrite (lor_shiftl_small (c2 - 128) 6) by (vm_compute (N.pow 2 _); lia).
  rewrite (lor_shiftl_small (c1 - 128) 12) by (vm_compute (N.pow 2 _); lia).
  rewrite lor_shiftl_small by (vm_compute (N.pow 2 _); lia).
  change (2 ^ 6) with 64. change (2 ^ 12) with 4096.
  change (2 ^ 18) with 262144.
  set (a := c0 - 240). set (b := c1 - 128). set (c := c2 - 128).
  set (d := c3 - 128).
  assert (a <= 4 /\ b < 64 /\ c < 64 /\ d < 64) as (Ha & Hb & Hc & Hd)
    by (subst a b c d; lia).
  set (r := a * 262144 + (b * 4096 + (c * 64 + d))).
  destruct (div_mod_parts a 262144 (b * 4096 + (c * 64 + d)) ltac:(lia))
    as [Hd1 _]. fold r in Hd1.
  destruct (div_mod_parts (a * 64 + b) 4096 (c * 64 + d) ltac:(lia))
    as [Hd2 _].
  replace ((a * 64 + b) * 4096 + (c * 64 + d)) with r in Hd2 by (subst r; lia).
  destruct (div_mod_parts ((a * 64 + b) * 64 + c) 64 d ltac:(lia))
    as [Hd3 Hm3].
  replace (((a * 64 + b) * 64 + c) * 64 + d) with r in Hd3, Hm3
    by (subst r; lia).
  destruct (div_mod_parts a 64 b ltac:(lia)) as [_ Hm4].
  destruct (div_mod_parts (a * 64 + b) 64 c ltac:(lia)) as [_ Hm5].
  rewrite Hd1, Hd2, Hd3, Hm3, Hm4, Hm5.
  rewrite lor_F0, !lor_80 by lia. subst r a b c d. lia.
Qed.

Ltac to_prop_in H :=
  lazymatch type of H with
  | (_ || _)%bool = false =>
      let H1 := fresh H in
      let H2 := fresh H in
      apply orb_false_iff in H; destruct H as [H1 H2];
      to_prop_in H1; to_prop_in H2
  | (_ && _)%bool = true =>
      let H1 := fresh H in
      let H2 := fresh H in
      apply andb_true_iff in H; destruct H as [H1 H2];
      to_prop_in H1; to_prop_in H2
  | (_ <? _) = true => apply N.ltb_lt in H
  | (_ <? _) = false => apply N.ltb_ge in H
  | (_ <=? _) = true => apply N.leb_le in H
  | (_ <=? _) = false => apply N.leb_gt in H
  | (_ =? _) = true => apply N.eqb_eq in H
  | (_ =? _) = false => apply N.eqb_neq in H
  | _ => idtac
  end.

(** Keep the boolean equation [E] for rewriting and add what it says. *)
Ltac note E := let P := fresh "P" in pose proof E as P; to_prop_in P.

Ltac solve_bool :=
  lazymatch goal with
  | |- (_ && _)%bool = true => apply andb_true_iff; split; solve_bool
  | |- (_ && _)%bool = false =>
      apply andb_false_iff; first [left; solve_bool | right; solve_bool]
  | |- (_ || _)%bool = true =>
      apply orb_true_iff; first [left; solve_bool | right; solve_bool]
  | |- (_ || _)%bool = false => apply orb_false_iff; split; solve_bool
  | |- negb _ = true => apply negb_true_iff; solve_bool
  | |- negb _ = false => apply negb_false_iff; solve_bool
  | |- (_ <? _) = true => apply N.ltb_lt; lia
  | |- (_ <? _) = false => apply N.ltb_ge; lia
  | |- (_ <=? _) = true => apply N.leb_le; lia
  | |- (_ <=? _) = false => apply N.leb_gt; lia
  | |- (_ =? _) = true => apply N.eqb_eq; lia
  | |- (_ =? _) = false => apply N.eqb_neq; lia
  | |- eqc _ _ = true => apply N.eqb_eq; cbn [cc Byte.to_N]; lia
  | |- eqc _ _ = false =>
      apply N.eqb_neq; cbn [cc Byte.to_N]; lia
  end.

Ltac decide_if :=
  match goal with
  | |- context [if ?c then _ else _] =>
      let E := fresh "E" in
      first [ assert (E : c = true) by solve_bool
            | assert (E : c = false) by solve_bool ];
      rewrite E; clear E
  end.

Ltac not_surrogate :=
  match goal with
  | |- context [if (?a || (?b && ?c))%bool then _ else _] =>
      let Ec := fresh in
      assert (Ec : (a || (b && c))%bool = false);
      [apply orb_false_iff; split;
       [apply N.ltb_ge; lia|];
       let Ea := fresh in let Eb := fresh in
       destruct b eqn:Ea; [|done];
       destruct c eqn:Eb; [|done]; to_prop_in Ea; to_prop_in Eb; lia
      |rewrite Ec; clear Ec]
  end.

(** A rune of more than one byte that [DecodeRune] accepts: its bytes,
    which [AppendRune] gives back, and nothing behind them matters. *)
Lemma DecodeRune_spec b0 s1 r size :
  DecodeRune (b0 :: s1) = (r, size) ->
  0x80 <= cc b0 ->
  ((r =? RuneError) && (size =? 1)%nat) = false ->
  exists pre tail,
    b0 :: s1 = pre ++ tail /\ length pre = size /\ (2 <= size)%nat
    /\ AppendRune r = pre
    /\ Forall (fun b => 0x80 <= cc b) pre
    /\ Forall (fun b => cc b <= 0xBF) (List.tl pre)
    /\ 0x80 <= r
    /\ forall tail', DecodeRune (pre ++ tail') = (r, size).
Proof.
  intros Hd Hb0 Hvalid. unfold DecodeRune in Hd.
  assert (Hbad : forall X : Prop, (RuneError, 1%nat) = (r, size) -> X).
  { intros X [= <- <-]. done. }
  destruct (cc b0 <? 0x80) eqn:E0; [note E0; lia|].
  destruct ((cc b0 <? 0xC2) || (0xF4 <? cc b0)) eqn:E1; [by eapply Hbad|].
  destruct s1 as [|b1 s2]; [by eapply Hbad|].
  destruct ((cc b1 <? _) || (_ <? cc b1)) eqn:E2 in Hd; [by eapply Hbad|].
  pose proof (cc_bound b0). pose proof (cc_bound b1). note E1.
  assert (Hr1 : 0x80 <= cc b1 <= 0xBF
                /\ (cc b0 = 0xE0 -> 0xA0 <= cc b1)
                /\ (cc b0 = 0xED -> cc b1 <= 0x9F)
                /\ (cc b0 = 0xF0 -> 0x90 <= cc b1)
                /\ (cc b0 = 0xF4 -> cc b1 <= 0x8F)).
  { pose proof E2 as P2. revert P2.
    repeat case_match; intros P2; to_prop_in P2;
      repeat match goal with H : (_ =? _) = _ |- _ => to_prop_in H end; lia. }
  destruct Hr1 as (Hr1 & HE0 & HED & HF0 & HF4).
  destruct (cc b0 <? 0xE0) eqn:E3.
  { (* two bytes *)
    injection Hd as <- <-. note E3.
    destruct (rune2 (cc b0) (cc b1) ltac:(lia) Hr1) as (Hr & Hw0 & Hw1).
    exists [b0; b1], s2. split; [done|]. split; [done|]. split; [lia|].
    split; [|split; [|split; [|split; [lia|]]]].
    - unfold AppendRune. do 2 decide_if.
      by rewrite Hw0, Hw1, !byte_of_cc.
    - repeat constructor; lia.
    - repeat constructor; lia.
    - intros tail'. cbn [app]. unfold DecodeRune.
      by rewrite E0, E1, E2, E3. }
  destruct s2 as [|b2 s3]; [by eapply Hbad|].
  destruct ((cc b2 <? 0x80) || (0xBF <? cc b2)) eqn:E4; [by eapply Hbad|].
  destruct (cc b0 <? 0xF0) eqn:E5.
  { (* three bytes *)
    injection Hd as <- <-. note E3. note E4. note E5.
    destruct (rune3 (cc b0) (cc b1) (cc b2) ltac:(lia) Hr1 ltac:(lia) HE0 HED)
      as (Hr & Hns & _ & Hw0 & Hw1 & Hw2).
    exists [b0; b1; b2], s3. split; [done|]. split; [done|]. split; [lia|].
    split; [|split; [|split; [|split; [lia|]]]].
    - unfold AppendRune. do 2 decide_if. not_surrogate.
      decide_if. by rewrite Hw0, Hw1, Hw2, !byte_of_cc.
    - repeat constructor; lia.
    - repeat constructor; lia.
    - intros tail'. cbn [app]. unfold DecodeRune.
      by rewrite E0, E1, E2, E3, E4, E5. }
  destruct s3 as [|b3 s4]; [by eapply Hbad|].
  destruct ((cc b3 <? 0x80) || (0xBF <? cc b3)) eqn:E6; [by eapply Hbad|].
  injection Hd as <- <-. note E3. note E4. note E5. note E6.
  destruct (rune4 (cc b0) (cc b1) (cc b2) (cc b3) ltac:(lia) Hr1
              ltac:(lia) ltac:(lia) HF0 HF4)
    as (Hr & Hw0 & Hw1 & Hw2 & Hw3).
  exists [b0; b1; b2; b3], s4. split; [done|]. split; [done|]. split; [lia|].
  split; [|split; [|split; [|split; [lia|]]]].
  - unfold AppendRune. do 2 decide_if. not_surrogate.
    decide_if. by rewrite Hw0, Hw1, Hw2, Hw3, !byte_of_cc.
  - repeat constructor; lia.
  - repeat constructor; lia.
  - intros tail'. cbn [app]. unfold DecodeRune.
    by rewrite E0, E1, E2, E3, E4, E5, E6.
Qed.

(** ** Strings: what [appendString] writes, [unquote] reads back *)

Lemma unquote_end rest : unquote 0 (x22 :: rest) = Some ([], rest).
Proof. reflexivity. Qed.

Lemma unquote_plain b rest :
  eqc x22 b = false -> eqc x5c b = false ->
  (cc b <? 0x20) = false -> (cc b <? 0x80) = true ->
  unquote 0 (b :: rest) = prepend [b] (unquote 0 rest).
Proof. intros E1 E2 E3 E4. cbn [unquote]. by rewrite E1, E2, E3, E4. Qed.

Lemma unquote_simple e c rest :
  simple_escape e = Some c -> eqc x75 e = false ->
  unquote 0 (x5c :: e :: rest) = prepend [c] (unquote 0 rest).
Proof. intros E1 E2. cbn [unquote]. cbn [eqc cc Byte.to_N]. cbn. by rewrite E2, E1. Qed.

Lemma unquote_u4 h1 h2 h3 h4 rr rest :
  getu4 h1 h2 h3 h4 = Some rr -> IsSurrogate rr = false ->
  unquote 0 (x5c :: x75 :: h1 :: h2 :: h3 :: h4 :: rest)
  = prepend (AppendRune rr) (unquote 0 rest).
Proof. intros E1 E2. cbn [unquote]. cbn. by rewrite E1, E2. Qed.

Lemma unquote_rune b s1 :
  0x80 <= cc b ->
  unquote 0 (b :: s1)
  = let '(rr, size) := DecodeRune (b :: s1) in
    prepend (AppendRune rr) (unquote (size - 1) s1).
Proof.
  intros Hb. cbn [unquote].
  assert (eqc x22 b = false) as -> by (apply N.eqb_neq; cbn; lia).
  assert (eqc x5c b = false) as -> by (apply N.eqb_neq; cbn; lia).
  assert ((cc b <? 0x20) = false) as -> by (apply N.ltb_ge; lia).
  assert ((cc b <? 0x80) = false) as -> by (apply N.ltb_ge; lia).
  done.
Qed.

Lemma unquote_skip pre rest :
  unquote (length pre) (pre ++ rest) = unquote 0 rest.
Proof. induction pre as [|b pre IH]; [done|]. exact IH. Qed.

Lemma escape_skip pre rest : escape (length pre) (pre ++ rest) = escape 0 rest.
Proof. induction pre as [|b pre IH]; [done|]. exact IH. Qed.

Lemma Valid_skip pre rest :
  Valid_from (length pre) (pre ++ rest) = Valid_from 0 rest.
Proof. induction pre as [|b pre IH]; [done|]. exact IH. Qed.

Lemma unhex_hex n : n < 16 -> unhex (hex n) = Some n.
Proof.
  intros Hn. unfold hex, unhex.
  destruct (n <? 10) eqn:E; to_prop_in E.
  - rewrite cc_byte_of by lia. repeat decide_if. f_equal. lia.
  - rewrite cc_byte_of by lia. repeat decide_if. f_equal. lia.
Qed.

Lemma AppendRune_ascii b : cc b < 0x80 -> AppendRune (cc b) = [b].
Proof. intros Hb. unfold AppendRune. decide_if. by rewrite byte_of_cc. Qed.

Lemma unquote_escape_ascii b rest :
  cc b < 0x80 ->
  unquote 0 (escape_ascii b ++ rest) = prepend [b] (unquote 0 rest).
Proof.
  intros Hb. unfold escape_ascii.
  destruct (htmlSafe b) eqn:Hs.
  { unfold htmlSafe in Hs. cbn [app]. to_prop_in Hs.
    apply negb_true_iff in Hs1. to_prop_in Hs1.
    apply unquote_plain; [done|done|by apply N.ltb_ge|by apply N.ltb_lt]. }
  destruct (eqc x5c b || eqc x22 b) eqn:E1.
  { apply orb_true_iff in E1. destruct E1 as [E1|E1];
      apply N.eqb_eq, cc_inj in E1; subst b; reflexivity. }
  destruct (eqc x08 b) eqn:E2.
  { apply N.eqb_eq, cc_inj in E2; subst b; reflexivity. }
  destruct (eqc x0c b) eqn:E3.
  { apply N.eqb_eq, cc_inj in E3; subst b; reflexivity. }
  destruct (eqc x0a b) eqn:E4.
  { apply N.eqb_eq, cc_inj in E4; subst b; reflexivity. }
  destruct (eqc x0d b) eqn:E5.
  { apply N.eqb_eq, cc_inj in E5; subst b; reflexivity. }
  destruct (eqc x09 b) eqn:E6.
  { apply N.eqb_eq, cc_inj in E6; subst b; reflexivity. }
  cbn [app]. rewrite (unquote_u4 _ _ _ _ (cc b)).
  - by rewrite AppendRune_ascii.
  - unfold getu4. rewrite N.shiftr_div_pow2, land_0F.
    change (2 ^ 4) with 16.
    rewrite !unhex_hex by (try apply N.mod_lt; try apply N.Div0.div_lt_upper_bound; lia).
    cbn [unhex cc Byte.to_N]. cbn. f_equal.
    pose proof (N.div_mod (cc b) 16 ltac:(lia)). lia.
  - unfold IsSurrogate. solve_bool.
Qed.

Lemma prepend_Some pre t rest : prepend pre (Some (t, rest)) = Some (pre ++ t, rest).
Proof. reflexivity. Qed.

(** The shape of a valid string at a byte that starts a longer rune. *)
Lemma Valid_rune b s1 :
  0x80 <= cc b -> Valid_from 0 (b :: s1) = true ->
  exists r pre' tail,
    s1 = pre' ++ tail /\ pre' <> []
    /\ DecodeRune (b :: s1) = (r, S (length pre'))
    /\ AppendRune r = b :: pre'
    /\ Forall (fun b => 0x80 <= cc b) (b :: pre')
    /\ Forall (fun b => cc b <= 0xBF) pre'
    /\ 0x80 <= r
    /\ (forall tail', DecodeRune (b :: pre' ++ tail') = (r, S (length pre')))
    /\ Valid_from 0 tail = true.
Proof.
  intros Hb Hv. cbn [Valid_from] in Hv.
  assert ((cc b <? 0x80) = false) as E by solve_bool. rewrite E in Hv.
  destruct (DecodeRune (b :: s1)) as [r size] eqn:Hd.
  destruct ((r =? RuneError) && (size =? 1)%nat) eqn:Hbad; [done|].
  destruct (DecodeRune_spec b s1 r size Hd Hb Hbad)
    as (pre & tail & Heq & Hlen & Hsz & Happ & Hall & Hcont & Hr & Hany).
  destruct pre as [|b' pre']; [cbn in Hlen; lia|].
  cbn in Heq. injection Heq as <- ->. cbn in Hlen. subst size.
  exists r, pre', tail. split; [done|].
  split; [destruct pre'; [cbn in Hsz; lia|done]|].
  repeat split; try done.
  cbn in Hv. rewrite Nat.sub_0_r in Hv. by rewrite Valid_skip in Hv.
Qed.

Lemma unquote_escape_from n :
  forall s rest,
    (length s <= n)%nat -> Valid_from 0 s = true ->
    unquote 0 (escape 0 s ++ x22 :: rest) = Some (s, rest).
Proof.
  induction n as [|n IH]; intros s rest Hlen Hv.
  { destruct s; [done|cbn in Hlen; lia]. }
  destruct s as [|b s1]; [done|]. cbn in Hlen.
  destruct (cc b <? 0x80) eqn:E; to_prop_in E.
  - cbn [escape]. assert ((cc b <? 0x80) = true) as -> by solve_bool.
    rewrite <- app_assoc, unquote_escape_ascii by done.
    rewrite IH; [done|lia|].
    cbn [Valid_from] in Hv.
    by assert ((cc b <? 0x80) = true) as E' by solve_bool; rewrite E' in Hv.
  - destruct (Valid_rune b s1 E Hv)
      as (r & pre' & tail & -> & Hne & Hd & Happ & Hall & Hcont & Hr & Hany
          & Hvt).
    rewrite length_app in Hlen.
    specialize (IH tail rest ltac:(lia) Hvt).
    cbn [escape]. assert ((cc b <? 0x80) = false) as -> by solve_bool.
    rewrite Hd.
    assert (((r =? RuneError) && (S (length pre') =? 1)%nat) = false) as ->.
    { apply andb_false_iff. right. by destruct pre'. }
    cbn [Nat.sub]. rewrite Nat.sub_0_r, escape_skip.
    destruct ((r =? 0x2028) || (r =? 0x2029)) eqn:Esep.
    + apply orb_true_iff in Esep.
      rewrite <- app_assoc. cbn [app].
      assert (getu4 x32 x30 x32 (hex (N.land r 0xF)) = Some r) as Hg.
      { destruct Esep as [Er|Er]; apply N.eqb_eq in Er; subst r; reflexivity. }
      rewrite (unquote_u4 _ _ _ _ r _ Hg).
      * by rewrite IH, Happ.
      * destruct Esep as [Er|Er]; apply N.eqb_eq in Er; subst r; reflexivity.
    + cbn [take]. rewrite take_app_length.
      rewrite <- app_assoc. rewrite <- app_comm_cons.
      rewrite unquote_rune by done. cbn [app].
      rewrite Hany. cbn [Nat.sub]. rewrite Nat.sub_0_r.
      by rewrite unquote_skip, IH, Happ, prepend_Some, <- app_comm_cons.
Qed.

Lemma unquote_escape s rest :
  Valid s = true ->
  unquote 0 (escape 0 s ++ x22 :: rest) = Some (s, rest).
Proof. intros. by apply (unquote_escape_from (length s)). Qed.

(** ** Numbers *)

Definition digit_byte (d : N) : Byte.byte := byte_of_N (48 + d).

Lemma digit_byte_spec d :
  d < 10 -> is_digit (digit_byte d) = true /\ cc (digit_byte d) - 48 = d
            /\ cc (digit_byte d) = 48 + d.
Proof.
  intros Hd. unfold is_digit, digit_byte. rewrite cc_byte_of by lia.
  split; [solve_bool|lia].
Qed.

Lemma digits_value_app a ds1 ds2 :
  digits_value a (ds1 ++ ds2) = digits_value (digits_value a ds1) ds2.
Proof. revert a. induction ds1 as [|d ds1 IH]; intros a; [done|]. apply IH. Qed.

Lemma digits_of_S f n acc :
  digits_of (S f) n acc
  = if n <? 10 then byte_of_N (48 + n mod 10) :: acc
    else digits_of f (n / 10) (byte_of_N (48 + n mod 10) :: acc).
Proof. reflexivity. Qed.

(** What [digits_of] puts in front of [acc]: the decimal digits of [n],
    most significant first, without a leading zero. *)
Lemma digits_of_spec fuel :
  forall n acc,
    n < 10 ^ N.of_nat (S fuel) ->
    exists d ds,
      digits_of (S fuel) n acc = d :: ds ++ acc
      /\ Forall (fun d => is_digit d = true) (d :: ds)
      /\ (cc d = 48 -> n = 0 /\ ds = [])
      /\ forall a, digits_value a (d :: ds)
                   = a * 10 ^ N.of_nat (length (d :: ds)) + n.
Proof.
  induction fuel as [|fuel IH]; intros n acc Hn.
  - change (10 ^ N.of_nat 1) with 10 in Hn.
    destruct (digit_byte_spec (n mod 10)) as (Hd & Hv & Hc);
      [apply N.mod_lt; lia|].
    rewrite N.mod_small in Hd, Hv, Hc by done.
    exists (digit_byte n), []. rewrite digits_of_S.
    assert ((n <? 10) = true) as -> by solve_bool.
    rewrite N.mod_small by done.
    split; [done|]. split; [by repeat constructor|]. split.
    + intros H48. split; [lia|done].
    + intros a. cbn. fold (digit_byte n). lia.
  - rewrite digits_of_S. destruct (n <? 10) eqn:E; to_prop_in E.
    + destruct (digit_byte_spec n E) as (Hd & Hv & Hc).
      rewrite N.mod_small by done.
      exists (digit_byte n), []. split; [done|].
      split; [by repeat constructor|]. split.
      * intros H48. split; [lia|done].
      * intros a. cbn. fold (digit_byte n). lia.
    + assert (Hq : n / 10 < 10 ^ N.of_nat (S fuel)).
      { apply N.Div0.div_lt_upper_bound.
        rewrite <- N.pow_succ_r'. by rewrite Nat2N.inj_succ in Hn. }
      destruct (IH (n / 10) (byte_of_N (48 + n mod 10) :: acc) Hq)
        as (d & ds & Heq & Hall & Hlead & Hval).
      destruct (digit_byte_spec (n mod 10)) as (Hd & Hv & Hc);
        [apply N.mod_lt; lia|].
      exists d, (ds ++ [digit_byte (n mod 10)]).
      split; [by rewrite Heq, <- app_assoc|]. split; [|split].
      * rewrite app_comm_cons. apply Forall_app. split; [done|].
        by repeat constructor.
      * intros H48. destruct (Hlead H48) as [Hz _].
        assert (0 < n / 10) by (apply N.div_str_pos; lia). lia.
      * intros a. rewrite app_comm_cons, digits_value_app, Hval.
        cbn [digits_value]. rewrite Hv.
        replace (N.of_nat (length ((d :: ds) ++ [digit_byte (n mod 10)])))
          with (N.succ (N.of_nat (length (d :: ds))))
          by (rewrite length_app; cbn [length]; lia).
        rewrite N.pow_succ_r'.
        pose proof (N.div_mod n 10 ltac:(lia)). lia.
Qed.

Lemma format_uint_spec n :
  exists d ds,
    format_uint n = d :: ds
    /\ Forall (fun d => is_digit d = true) (d :: ds)
    /\ (cc d = 48 -> n = 0 /\ ds = [])
    /\ digits_value 0 (d :: ds) = n.
Proof.
  unfold format_uint.
  destruct (digits_of_spec (N.to_nat (N.log2 n)) n []) as (d & ds & Heq & Hall & Hlead & Hval).
  - rewrite Nat2N.inj_succ, N2Nat.id.
    destruct (N.eq_dec n 0) as [->|Hne]; [done|].
    destruct (N.log2_spec n ltac:(lia)) as [_ Hlt].
    eapply N.lt_le_trans; [exact Hlt|].
    apply N.pow_le_mono_l. lia.
  - exists d, ds. rewrite Heq, app_nil_r.
    split; [done|]. split; [done|]. split; [done|]. rewrite Hval. lia.
Qed.

(** What may follow a value inside a text: a comma, a closing brace or
    bracket, or nothing. *)
Definition delimited (rest : bytes) : Prop :=
  match rest with
  | [] => True
  | b :: _ => b = x2c \/ b = x7d \/ b = x5d
  end.

Lemma delimited_cases rest (P : Prop) :
  delimited rest ->
  (rest = [] -> P) ->
  (forall b r, rest = b :: r -> cc b = 44 \/ cc b = 125 \/ cc b = 93 -> P) ->
  P.
Proof.
  intros Hd Hnil Hcons. destruct rest as [|b r]; [by apply Hnil|].
  apply (Hcons b r eq_refl). destruct Hd as [->| [->| ->]]; cbn; auto.
Qed.

Lemma skip_ws_delimited rest : delimited rest -> skip_ws rest = rest.
Proof.
  intros Hd. apply (delimited_cases rest _ Hd); [by intros ->|].
  intros b r -> Hb. cbn [skip_ws]. unfold is_space.
  by assert (eqc x20 b || eqc x09 b || eqc x0d b || eqc x0a b = false)
    as -> by (destruct Hb as [?|[?|?]]; solve_bool).
Qed.

Lemma take_digits_all ds rest :
  Forall (fun d => is_digit d = true) ds -> delimited rest ->
  take_digits (ds ++ rest) = (ds, rest).
Proof.
  intros Hall Hd. induction Hall as [|d ds Hdig _ IH]; cbn [app take_digits].
  - apply (delimited_cases rest _ Hd); [by intros ->|].
    intros b r -> Hb. cbn [take_digits]. unfold is_digit.
    by assert ((0x30 <=? cc b) && (cc b <=? 0x39) = false)
      as -> by (destruct Hb as [?|[?|?]]; solve_bool).
  - by rewrite Hdig, IH.
Qed.

Lemma scan_frac_delimited rest : delimited rest -> scan_frac rest = Some ([], rest).
Proof.
  intros Hd. apply (delimited_cases rest _ Hd); [by intros ->|].
  intros b r -> Hb. cbn [scan_frac].
  by assert (eqc x2e b = false) as -> by (destruct Hb as [?|[?|?]]; solve_bool).
Qed.

Lemma scan_exp_delimited rest : delimited rest -> scan_exp rest = Some ([], rest).
Proof.
  intros Hd. apply (delimited_cases rest _ Hd); [by intros ->|].
  intros b r -> Hb. cbn [scan_exp].
  by assert (eqc x65 b || eqc x45 b = false)
    as -> by (destruct Hb as [?|[?|?]]; solve_bool).
Qed.

Lemma scan_int_format_uint n rest :
  delimited rest ->
  scan_int (format_uint n ++ rest) = Some (format_uint n, rest)
  /\ exists d ds, format_uint n = d :: ds /\ is_digit d = true.
Proof.
  intros Hd.
  destruct (format_uint_spec n) as (d & ds & -> & Hall & Hlead & _).
  split; [|exists d, ds; split; [done|by inversion Hall]].
  cbn [app scan_int]. inversion Hall as [|? ? Hdig Hds]; subst.
  destruct (eqc x30 d) eqn:E.
  - apply N.eqb_eq in E. cbn in E. destruct (Hlead E) as [_ ->]. done.
  - by rewrite Hdig, take_digits_all.
Qed.

Lemma scan_number_format_int z rest :
  delimited rest ->
  scan_number (format_int z ++ rest) = Some (format_int z, rest).
Proof.
  intros Hd. unfold scan_number, format_int.
  destruct z as [|p|p].
  - destruct (scan_int_format_uint (Z.to_N 0) rest Hd) as [Hs (d & ds & Heq & Hdig)].
    rewrite Heq in *. cbn [app] in *.
    assert (eqc x2d d = false) as ->.
    { unfold is_digit in Hdig. to_prop_in Hdig. solve_bool. }
    rewrite Hs, scan_frac_delimited, scan_exp_delimited by done.
    by rewrite !app_nil_r.
  - destruct (scan_int_format_uint (Z.to_N (Z.pos p)) rest Hd)
      as [Hs (d & ds & Heq & Hdig)].
    rewrite Heq in *. cbn [app] in *.
    assert (eqc x2d d = false) as ->.
    { unfold is_digit in Hdig. to_prop_in Hdig. solve_bool. }
    rewrite Hs, scan_frac_delimited, scan_exp_delimited by done.
    by rewrite !app_nil_r.
  - destruct (scan_int_format_uint (N.pos p) rest Hd) as [Hs _].
    cbn [app]. assert (eqc x2d x2d = true) as -> by done.
    rewrite Hs, scan_frac_delimited, scan_exp_delimited by done.
    by rewrite !app_nil_r.
Qed.

Lemma forallb_digits ds :
  Forall (fun d => is_digit d = true) ds -> forallb is_digit ds = true.
Proof. induction 1 as [|d ds Hd _ IH]; [done|]. cbn. by rewrite Hd, IH. Qed.

Lemma int_of_lit_format_int z :
  in_int z -> int_of_lit (format_int z) = Some z.
Proof.
  intros Hz. unfold int_of_lit, format_int.
  assert (Hrange : forall z', z' = z ->
            ((int_min <=? z') && (z' <=? int_max))%Z = true).
  { intros z' ->. unfold in_int in Hz. apply andb_true_iff.
    split; apply Z.leb_le; lia. }
  destruct z as [|p|p].
  - destruct (format_uint_spec (Z.to_N 0)) as (d & ds & -> & Hall & _ & Hval).
    assert (eqc x2d d = false) as ->.
    { inversion Hall as [|? ? Hdig _]. unfold is_digit in Hdig.
      to_prop_in Hdig. solve_bool. }
    rewrite (forallb_digits _ Hall), Hval. cbn [length Nat.eqb negb andb].
    by rewrite Hrange.
  - destruct (format_uint_spec (Z.to_N (Z.pos p)))
      as (d & ds & -> & Hall & _ & Hval).
    assert (eqc x2d d = false) as ->.
    { inversion Hall as [|? ? Hdig _]. unfold is_digit in Hdig.
      to_prop_in Hdig. solve_bool. }
    rewrite (forallb_digits _ Hall), Hval. cbn [length Nat.eqb negb andb].
    by rewrite Hrange.
  - destruct (format_uint_spec (N.pos p)) as (d & ds & -> & Hall & _ & Hval).
    assert (eqc x2d x2d = true) as -> by done.
    rewrite (forallb_digits _ Hall), Hval. cbn [length Nat.eqb negb andb].
    by rewrite Hrange.
Qed.

(** ** Values *)

Section value_induction.
Variable P : value -> Prop.
Hypothesis HNil : P VNil.
Hypothesis HBool : forall b, P (VBool b).
Hypothesis HInt : forall z, P (VInt z).
Hypothesis HString : forall s, P (VString s).
Hypothesis HSlice : forall l, Forall P l -> P (VSlice l).
Hypothesis HMap : forall m, Forall (fun kv => P kv.2) m -> P (VMap m).
Hypothesis HChan : P VChan.

Fixpoint value_induction (v : value) : P v :=
  match v with
  | VNil => HNil
  | VBool b => HBool b
  | VInt z => HInt z
  | VString s => HString s
  | VSlice l =>
      HSlice l
        ((fix go (l : list value) : Forall P l :=
            match l with
            | [] => List.Forall_nil P
            | v :: l' => List.Forall_cons P v l' (value_induction v) (go l')
            end) l)
  | VMap m =>
      HMap m
        ((fix go (m : list (string * value)) : Forall (fun kv => P kv.2) m :=
            match m with
            | [] => List.Forall_nil _
            | kv :: m' =>
                List.Forall_cons (fun kv => P kv.2) kv m'
                  (value_induction kv.2) (go m')
            end) m)
  | VChan => HChan
  end.
End value_induction.

(** The text of the items of a slice and of the entries of a map. *)
Fixpoint encode_items (l : list value) : bytes :=
  match l with
  | [] => []
  | [v] => encode v
  | v :: l' => encode v ++ [x2c] ++ encode_items l'
  end.

Fixpoint encode_entries (m : list (string * value)) : bytes :=
  match m with
  | [] => []
  | [(k, v)] => appendString k ++ [x3a] ++ encode v
  | (k, v) :: m' =>
      appendString k ++ [x3a] ++ encode v ++ [x2c] ++ encode_entries m'
  end.

Lemma encode_VSlice l : encode (VSlice l) = [x5b] ++ encode_items l ++ [x5d].
Proof. reflexivity. Qed.

Lemma encode_VMap m : encode (VMap m) = [x7b] ++ encode_entries m ++ [x7d].
Proof. reflexivity. Qed.

(** The syntax a value is written as. *)
Fixpoint syn (v : value) : syntax :=
  match v with
  | VNil => JNull
  | VBool b => JBool b
  | VInt z => JNum (format_int z)
  | VString s => JStr (bytes_of s)
  | VSlice l => JArr (map syn l)
  | VMap m => JObj (map (fun kv => (bytes_of kv.1, encode kv.2, syn kv.2)) m)
  | VChan => JNull
  end.

Definition sum_with {A} (f : A -> nat) : list A -> nat :=
  fix go (l : list A) : nat :=
    match l with
    | [] => 0%nat
    | x :: l' => (f x + go l')%nat
    end.

(** Fuel that suffices to read a value back. *)
Fixpoint fuel_of (v : value) : nat :=
  match v with
  | VSlice l => S (length l + sum_with fuel_of l)
  | VMap m => S (length m + sum_with (fun kv => fuel_of kv.2) m)
  | _ => 1%nat
  end.

(** A text that the scanner reads as [j], whatever delimiter follows:
    [need] is fuel that suffices and [vd] the depth of nesting inside. *)
Definition parses (text : bytes) (j : syntax) (need : nat) (vd : N) : Prop :=
  (exists b t, text = b :: t /\ is_space b = false /\ eqc x5d b = false)
  /\ forall fuel depth rest,
      (need <= fuel)%nat -> depth + vd <= maxNestingDepth -> delimited rest ->
      parse_value fuel depth (text ++ rest) = Some (j, rest).

Lemma parses_weaken text j need vd need' vd' :
  parses text j need vd -> (need <= need')%nat -> vd <= vd' ->
  parses text j need' vd'.
Proof.
  intros [Hhd Hp] Hn Hv. split; [done|].
  intros fuel depth rest Hf Hd Hr. apply Hp; [lia|lia|done].
Qed.

Lemma skip_ws_parses text j need vd rest :
  parses text j need vd -> skip_ws (text ++ rest) = text ++ rest.
Proof. intros [(b & t & -> & Hb & _) _]. cbn. by rewrite Hb. Qed.

Lemma take_raw (text rest : bytes) :
  take (length (text ++ rest) - length rest) (text ++ rest) = text.
Proof.
  rewrite length_app. replace (length text + length rest - length rest)%nat
    with (length text) by lia.
  by rewrite take_app_length.
Qed.

Fixpoint join_items (items : list (bytes * syntax)) : bytes :=
  match items with
  | [] => []
  | [(t, _)] => t
  | (t, _) :: more => t ++ [x2c] ++ join_items more
  end.

Lemma parse_elements_S n depth s :
  parse_elements (S n) depth s
  = match parse_value n depth s with
    | Some (v, r1) =>
        match skip_ws r1 with
        | d :: r2 =>
            if eqc x2c d then
              match parse_elements n depth (skip_ws r2) with
              | Some (es, r3) => Some (v :: es, r3)
              | None => None
              end
            else if eqc x5d d then Some ([v], r2)
            else None
        | [] => None
        end
    | None => None
    end.
Proof. reflexivity. Qed.

Lemma join_items_head items need vd rest :
  items <> [] -> Forall (fun tj => parses tj.1 tj.2 need vd) items ->
  skip_ws (join_items items ++ rest) = join_items items ++ rest.
Proof.
  intros Hne Hall. destruct items as [|[t j] more]; [done|].
  inversion Hall as [|? ? Hp _]; subst. cbn in Hp.
  destruct more as [|tj more].
  - cbn. by eapply skip_ws_parses.
  - cbn [join_items]. rewrite <- app_assoc. by eapply skip_ws_parses.
Qed.

Lemma parse_elements_ok items need vd :
  items <> [] -> Forall (fun tj => parses tj.1 tj.2 need vd) items ->
  forall fuel depth rest,
    (length items + need <= fuel)%nat -> depth + vd <= maxNestingDepth ->
    parse_elements fuel depth (join_items items ++ x5d :: rest)
    = Some (map snd items, rest).
Proof.
  intros Hne Hall. induction Hall as [|[t j] more Hp Hmore IH]; [done|].
  intros fuel depth rest Hf Hd. cbn in Hp.
  destruct fuel as [|n]; [cbn in Hf; lia|]. cbn [length] in Hf.
  rewrite parse_elements_S. destruct Hp as [Hhd Hp].
  destruct more as [|tj more].
  - cbn [join_items]. rewrite Hp; [|lia|done|by right; right].
    reflexivity.
  - cbn [join_items]. rewrite <- !app_assoc. cbn [app].
    rewrite Hp; [|lia|done|by left].
    cbn [skip_ws]. change (is_space x2c) with false. cbn iota.
    change (eqc x2c x2c) with true. cbn iota.
    rewrite (join_items_head (tj :: more) need vd) by done.
    rewrite IH; [done|done|cbn [length] in *; lia|done].
Qed.

Fixpoint join_members (ms : list (string * bytes * syntax)) : bytes :=
  match ms with
  | [] => []
  | [(k, t, _)] => appendString k ++ [x3a] ++ t
  | (k, t, _) :: more => appendString k ++ [x3a] ++ t ++ [x2c] ++ join_members more
  end.

Definition member_syntax (m : string * bytes * syntax) : bytes * bytes * syntax :=
  (bytes_of m.1.1, m.1.2, m.2).

Lemma parse_members_S n depth s :
  parse_members (S n) depth s
  = match s with
    | q :: r =>
        if eqc x22 q then
          match unquote 0 r with
          | Some (k, r1) =>
              match skip_ws r1 with
              | c :: r2 =>
                  if eqc x3a c then
                    match parse_value n depth (skip_ws r2) with
                    | Some (v, r3) =>
                        let raw :=
                          take (length (skip_ws r2) - length r3)
                            (skip_ws r2) in
                        match skip_ws r3 with
                        | d :: r4 =>
                            if eqc x2c d then
                              match parse_members n depth (skip_ws r4) with
                              | Some (ms, r5) => Some ((k, raw, v) :: ms, r5)
                              | None => None
                              end
                            else if eqc x7d d then Some ([(k, raw, v)], r4)
                            else None
                        | [] => None
                        end
                    | None => None
                    end
                  else None
              | [] => None
              end
          | None => None
          end
        else None
    | [] => None
    end.
Proof. reflexivity. Qed.

Definition member_ok (need : nat) (vd : N) (m : string * bytes * syntax) : Prop :=
  Valid (bytes_of m.1.1) = true /\ parses m.1.2 m.2 need vd.

Lemma join_members_head ms rest :
  ms <> [] ->
  exists tl, join_members ms ++ rest = x22 :: tl.
Proof.
  intros Hne. destruct ms as [|[[k t] j] more]; [done|].
  destruct more; cbn [join_members]; unfold appendString;
    rewrite <- !app_assoc; cbn [app]; eauto.
Qed.

Lemma join_members_cons k t j m more :
  join_members ((k, t, j) :: m :: more)
  = appendString k ++ [x3a] ++ t ++ [x2c] ++ join_members (m :: more).
Proof. by destruct m as [[? ?] ?]. Qed.

Lemma parse_members_ok ms need vd :
  ms <> [] -> Forall (member_ok need vd) ms ->
  forall fuel depth rest,
    (length ms + need <= fuel)%nat -> depth + vd <= maxNestingDepth ->
    parse_members fuel depth (join_members ms ++ x7d :: rest)
    = Some (map member_syntax ms, rest).
Proof.
  intros Hne Hall. induction Hall as [|[[k t] j] more [Hk Hp] Hmore IH]; [done|].
  intros fuel depth rest Hf Hd. cbn [fst snd] in Hk, Hp.
  destruct fuel as [|n]; [cbn in Hf; lia|]. cbn [length] in Hf.
  rewrite parse_members_S.
  assert (Hskip : forall R, skip_ws (t ++ R) = t ++ R)
    by (intros R; by eapply skip_ws_parses).
  destruct Hp as [Hhd Hp].
  assert (Hstart : forall R,
    (appendString k ++ [x3a] ++ t ++ R)
    = x22 :: escape 0 (bytes_of k) ++ x22 :: (x3a :: t ++ R)).
  { intros R. unfold appendString. by rewrite <- !app_assoc. }
  destruct more as [|m more].
  - cbn [join_members]. rewrite <- !app_assoc, Hstart.
    change (eqc x22 x22) with true. cbn iota.
    rewrite unquote_escape by done.
    cbn [skip_ws]. change (is_space x3a) with false. cbn iota.
    change (eqc x3a x3a) with true. cbn iota.
    rewrite Hskip.
    rewrite Hp; [|lia|done|by right; left].
    cbn zeta. rewrite take_raw. reflexivity.
  - rewrite join_members_cons. rewrite <- !app_assoc, Hstart.
    change (eqc x22 x22) with true. cbn iota.
    rewrite unquote_escape by done.
    cbn [skip_ws]. change (is_space x3a) with false. cbn iota.
    change (eqc x3a x3a) with true. cbn iota.
    rewrite Hskip.
    cbn [app]. rewrite Hp; [|lia|done|by left].
    cbn zeta. rewrite take_raw.
    cbn [skip_ws]. change (is_space x2c) with false. cbn iota.
    change (eqc x2c x2c) with true. cbn iota.
    destruct (join_members_head (m :: more) (x7d :: rest) ltac:(done))
      as [tl Htl].
    rewrite Htl. cbn [skip_ws]. change (is_space x22) with false. cbn iota.
    rewrite <- Htl.
    rewrite IH; [done|done|cbn [length] in *; lia|done].
Qed.

Lemma parse_value_S n depth b r :
  parse_value (S n) depth (b :: r)
  = if eqc x7b b then
      if maxNestingDepth <? depth + 1 then None
      else
        match skip_ws r with
        | c :: r' =>
            if eqc x7d c then Some (JObj [], r')
            else
              match parse_members n (depth + 1) (c :: r') with
              | Some (ms, r'') => Some (JObj ms, r'')
              | None => None
              end
        | [] => None
        end
    else if eqc x5b b then
      if maxNestingDepth <? depth + 1 then None
      else
        match skip_ws r with
        | c :: r' =>
            if eqc x5d c then Some (JArr [], r')
            else
              match parse_elements n (depth + 1) (c :: r') with
              | Some (es, r'') => Some (JArr es, r'')
              | None => None
              end
        | [] => None
        end
    else if eqc x22 b then
      match unquote 0 r with
      | Some (t, r') => Some (JStr t, r')
      | None => None
      end
    else if eqc x74 b then
      match strip (bytes_of "rue") r with
      | Some r' => Some (JBool true, r')
      | None => None
      end
    else if eqc x66 b then
      match strip (bytes_of "alse") r with
      | Some r' => Some (JBool false, r')
      | None => None
      end
    else if eqc x6e b then
      match strip (bytes_of "ull") r with
      | Some r' => Some (JNull, r')
      | None => None
      end
    else
      match scan_number (b :: r) with
      | Some (lit, r') => Some (JNum lit, r')
      | None => None
      end.
Proof. reflexivity. Qed.

Lemma parses_literal text j :
  (text, j) = (bytes_of "null", JNull)
  \/ (text, j) = (bytes_of "true", JBool true)
  \/ (text, j) = (bytes_of "false", JBool false) ->
  parses text j 1 0.
Proof.
  intros H. split.
  - destruct H as [[= -> ->]|[[= -> ->]|[= -> ->]]]; by eexists _, _.
  - intros [|n] depth rest Hf _ _; [lia|].
    destruct H as [[= -> ->]|[[= -> ->]|[= -> ->]]]; reflexivity.
Qed.

Lemma parses_string s :
  Valid (bytes_of s) = true ->
  parses (appendString s) (JStr (bytes_of s)) 1 0.
Proof.
  intros Hv. split; [by eexists _, _|].
  intros [|n] depth rest Hf _ _; [lia|].
  unfold appendString. rewrite <- !app_assoc. cbn [app].
  rewrite parse_value_S.
  change (eqc x7b x22) with false. change (eqc x5b x22) with false.
  change (eqc x22 x22) with true. cbn iota.
  by rewrite unquote_escape.
Qed.

Lemma parses_int z : parses (format_int z) (JNum (format_int z)) 1 0.
Proof.
  assert (Hhd : exists b t, format_int z = b :: t
                  /\ (is_digit b = true \/ b = x2d)).
  { unfold format_int. destruct z as [|p|p].
    - destruct (format_uint_spec (Z.to_N 0)) as (d & ds & -> & Hall & _).
      exists d, ds. split; [done|]. left. by inversion Hall.
    - destruct (format_uint_spec (Z.to_N (Z.pos p))) as (d & ds & -> & Hall & _).
      exists d, ds. split; [done|]. left. by inversion Hall.
    - eexists _, _. split; [done|]. by right. }
  destruct Hhd as (b & t & Heq & Hb).
  assert (Hcc : 0x30 <= cc b <= 0x39 \/ cc b = 0x2d).
  { destruct Hb as [Hb| ->]; [|by right].
    left. unfold is_digit in Hb. to_prop_in Hb. lia. }
  split.
  - exists b, t. split; [done|]. unfold is_space.
    split; destruct Hcc; solve_bool.
  - intros [|n] depth rest Hf _ Hr; [lia|].
    pose proof (scan_number_format_int z rest Hr) as Hs.
    rewrite Heq in *. cbn [app] in *. rewrite parse_value_S.
    assert (eqc x7b b = false) as -> by (destruct Hcc; solve_bool).
    assert (eqc x5b b = false) as -> by (destruct Hcc; solve_bool).
    assert (eqc x22 b = false) as -> by (destruct Hcc; solve_bool).
    assert (eqc x74 b = false) as -> by (destruct Hcc; solve_bool).
    assert (eqc x66 b = false) as -> by (destruct Hcc; solve_bool).
    assert (eqc x6e b = false) as -> by (destruct Hcc; solve_bool).
    by rewrite Hs.
Qed.

Lemma max_depth_ok depth vd :
  depth + (1 + vd) <= maxNestingDepth ->
  (maxNestingDepth <? depth + 1) = false /\ depth + 1 + vd <= maxNestingDepth.
Proof. intros H. split; [apply N.ltb_ge|]; lia. Qed.

Lemma parses_array items need vd :
  Forall (fun tj => parses tj.1 tj.2 need vd) items ->
  parses ([x5b] ++ join_items items ++ [x5d]) (JArr (map snd items))
    (S (length items + need)) (1 + vd).
Proof.
  intros Hall. split; [by eexists _, _|].
  intros [|n] depth rest Hf Hd Hr; [lia|].
  destruct (max_depth_ok _ _ Hd) as [Hmax Hd'].
  rewrite <- !app_assoc. cbn [app]. rewrite parse_value_S.
  change (eqc x7b x5b) with false. change (eqc x5b x5b) with true. cbn iota.
  rewrite Hmax.
  destruct items as [|tj items].
  - reflexivity.
  - rewrite (join_items_head (tj :: items) need vd) by done.
    pose proof (parse_elements_ok (tj :: items) need vd ltac:(done) Hall
                  n (depth + 1) rest ltac:(cbn [length] in *; lia) Hd') as Hpe.
    assert (Hne : exists c r', join_items (tj :: items) ++ x5d :: rest = c :: r'
                                /\ eqc x5d c = false).
    { inversion Hall as [|? ? [(b & t & Ht & _ & Hb) _] _]; subst.
      destruct tj as [t0 j0]. cbn in Ht. subst t0.
      exists b. destruct items as [|[? ?] ?]; cbn [join_items];
        rewrite <- ?app_assoc; cbn [app]; eexists; (split; [done|]); done. }
    destruct Hne as (c & r' & Heq & Hc). rewrite Heq in *.
    by rewrite Hc, Hpe.
Qed.

Lemma parses_object ms need vd :
  Forall (member_ok need vd) ms ->
  parses ([x7b] ++ join_members ms ++ [x7d]) (JObj (map member_syntax ms))
    (S (length ms + need)) (1 + vd).
Proof.
  intros Hall. split; [by eexists _, _|].
  intros [|n] depth rest Hf Hd Hr; [lia|].
  destruct (max_depth_ok _ _ Hd) as [Hmax Hd'].
  rewrite <- !app_assoc. cbn [app]. rewrite parse_value_S.
  change (eqc x7b x7b) with true. cbn iota. rewrite Hmax.
  destruct ms as [|m ms].
  - reflexivity.
  - pose proof (parse_members_ok (m :: ms) need vd ltac:(done) Hall
                  n (depth + 1) rest ltac:(cbn [length] in *; lia) Hd') as Hpm.
    destruct (join_members_head (m :: ms) (x7d :: rest) ltac:(done))
      as [tl Htl].
    rewrite Htl in *. cbn [skip_ws]. change (is_space x22) with false.
    cbn iota. change (eqc x7d x22) with false. cbn iota.
    by rewrite Hpm.
Qed.

Lemma sum_with_ge {A} (f : A -> nat) l x :
  x ∈ l -> (f x <= sum_with f l)%nat.
Proof.
  induction 1 as [x l|x y l _ IH]; cbn; lia.
Qed.

Lemma fold_max_ge {A} (f : A -> N) l x :
  x ∈ l -> f x <= fold_right (fun e acc => N.max (f e) acc) 0 l.
Proof.
  induction 1 as [x l|x y l _ IH]; cbn; lia.
Qed.

Lemma encode_items_join l :
  encode_items l = join_items (map (fun v => (encode v, syn v)) l).
Proof.
  induction l as [|v l IH]; [done|].
  destruct l as [|v' l]; [done|].
  cbn [encode_items map join_items] in *. by rewrite IH.
Qed.

Lemma encode_entries_join m :
  encode_entries m
  = join_members (map (fun kv => (kv.1, encode kv.2, syn kv.2)) m).
Proof.
  induction m as [|[k v] m IH]; [done|].
  destruct m as [|[k' v'] m]; [done|].
  cbn [encode_entries map join_members fst snd] in *. by rewrite IH.
Qed.

(** What [encode] writes for a well-formed value is read as its
    syntax. *)
Lemma parses_encode v :
  wf_value v = true -> parses (encode v) (syn v) (fuel_of v) (vdepth v).
Proof.
  induction v as [|b|z|s|l IH|m IH|] using value_induction; intros Hwf.
  - apply parses_literal. by left.
  - destruct b; apply parses_literal; auto.
  - apply parses_int.
  - by apply parses_string.
  - rewrite encode_VSlice, encode_items_join. cbn [syn fuel_of vdepth].
    set (items := map (fun v => (encode v, syn v)) l).
    replace (map syn l) with (map snd items)
      by (subst items; rewrite map_map; done).
    replace (length l) with (length items)
      by (subst items; by rewrite length_map).
    apply parses_array. subst items.
    apply Forall_map. cbn [wf_value] in Hwf.
    rewrite forallb_forall in Hwf.
    rewrite Forall_forall in IH |- *. intros v Hv. cbn [fst snd].
    eapply parses_weaken.
    + apply IH; [done|]. apply Hwf. by apply list_elem_of_In.
    + by apply (sum_with_ge fuel_of).
    + by apply (fold_max_ge vdepth).
  - rewrite encode_VMap, encode_entries_join. cbn [syn fuel_of vdepth].
    set (ms := map (fun kv => (kv.1, encode kv.2, syn kv.2)) m).
    replace (map (fun kv => (bytes_of kv.1, encode kv.2, syn kv.2)) m)
      with (map member_syntax ms)
      by (subst ms; rewrite map_map; done).
    replace (length m) with (length ms)
      by (subst ms; by rewrite length_map).
    apply parses_object. subst ms.
    apply Forall_map. cbn [wf_value] in Hwf.
    apply andb_true_iff in Hwf. destruct Hwf as [Hwf _].
    rewrite forallb_forall in Hwf.
    rewrite Forall_forall in IH |- *. intros kv Hkv.
    specialize (Hwf kv ltac:(by apply list_elem_of_In)).
    apply andb_true_iff in Hwf. destruct Hwf as [Hk Hv].
    split; [done|]. cbn [fst snd].
    eapply parses_weaken.
    + by apply IH.
    + by apply (sum_with_ge (fun kv => fuel_of kv.2)).
    + by apply (fold_max_ge (fun kv => vdepth kv.2)).
  - done.
Qed.

(** ** From syntax back to values *)

Definition decode_items (ty : gotype) : list syntax -> option (list held) :=
  fix items (l : list syntax) : option (list held) :=
    match l with
    | [] => Some []
    | j :: l' =>
        match decode ty j, items l' with
        | Some v, Some vs => Some (v :: vs)
        | _, _ => None
        end
    end.

Definition decode_entries (ty : gotype)
  : list (bytes * bytes * syntax) -> list (string * held) ->
    option (list (string * held)) :=
  fix items (ms : list (bytes * bytes * syntax)) (acc : list (string * held))
    : option (list (string * held)) :=
    match ms with
    | [] => Some acc
    | (k, _, j) :: ms' =>
        match decode ty j with
        | Some v => items ms' (map_store (string_of k) v acc)
        | None => None
        end
    end.

Lemma decode_JArr ty l :
  decode ty (JArr l)
  = match ty with
    | TAny | TSlice _ =>
        match decode_items (elem_of ty) l with
        | Some vs => Some (HSlice vs)
        | None => None
        end
    | _ => None
    end.
Proof. by destruct ty. Qed.

Lemma decode_JObj ty ms :
  decode ty (JObj ms)
  = match ty with
    | TAny | TMap _ =>
        match decode_entries (elem_of ty) ms [] with
        | Some m => Some (HMap m)
        | None => None
        end
    | _ => None
    end.
Proof. by destruct ty. Qed.

(** What a variable of type [ty] holds once the value [v] has gone
    through its text: the value as the type represents it, an integer read
    for a [float64] or an [interface{}] being converted, [nil] read for a
    type without nil leaving the zero value; [None] where the value is of
    a kind the type does not take. *)
Fixpoint image (ty : gotype) (v : value) : option held :=
  match v with
  | VNil => Some (zero_of ty)
  | VBool b =>
      match ty with
      | TAny | TBool => Some (HBool b)
      | _ => None
      end
  | VInt z =>
      match ty with
      | TAny | TFloat64 =>
          match float_of_int z with Some f => Some (HFloat f) | None => None end
      | TInt64 => Some (HInt z)
      | _ => None
      end
  | VString s =>
      match ty with
      | TAny | TString => Some (HString s)
      | _ => None
      end
  | VSlice l =>
      match ty with
      | TAny | TSlice _ =>
          match
            (fix items (l : list value) : option (list held) :=
               match l with
               | [] => Some []
               | v :: l' =>
                   match image (elem_of ty) v, items l' with
                   | Some h, Some hs => Some (h :: hs)
                   | _, _ => None
                   end
               end) l
          with
          | Some hs => Some (HSlice hs)
          | None => None
          end
      | _ => None
      end
  | VMap m =>
      match ty with
      | TAny | TMap _ =>
          match
            (fix items (m : list (string * value))
               : option (list (string * held)) :=
               match m with
               | [] => Some []
               | (k, v) :: m' =>
                   match image (elem_of ty) v, items m' with
                   | Some h, Some hs => Some ((k, h) :: hs)
                   | _, _ => None
                   end
               end) m
          with
          | Some hs => Some (HMap hs)
          | None => None
          end
      | _ => None
      end
  | VChan => None
  end.

Definition image_items (ty : gotype) : list value -> option (list held) :=
  fix items (l : list value) : option (list held) :=
    match l with
    | [] => Some []
    | v :: l' =>
        match image ty v, items l' with
        | Some h, Some hs => Some (h :: hs)
        | _, _ => None
        end
    end.

Definition image_entries (ty : gotype)
  : list (string * value) -> option (list (string * held)) :=
  fix items (m : list (string * value)) : option (list (string * held)) :=
    match m with
    | [] => Some []
    | (k, v) :: m' =>
        match image ty v, items m' with
        | Some h, Some hs => Some ((k, h) :: hs)
        | _, _ => None
        end
    end.

Lemma image_VSlice ty l :
  image ty (VSlice l)
  = match ty with
    | TAny | TSlice _ =>
        match image_items (elem_of ty) l with
        | Some hs => Some (HSlice hs)
        | None => None
        end
    | _ => None
    end.
Proof. by destruct ty. Qed.

Lemma image_VMap ty m :
  image ty (VMap m)
  = match ty with
    | TAny | TMap _ =>
        match image_entries (elem_of ty) m with
        | Some hs => Some (HMap hs)
        | None => None
        end
    | _ => None
    end.
Proof. by destruct ty. Qed.

Lemma image_entries_keys ty m hs :
  image_entries ty m = Some hs -> map fst hs = map fst m.
Proof.
  revert hs. induction m as [|[k v] m IH]; intros hs H.
  { by injection H as <-. }
  cbn [image_entries] in H. destruct (image ty v) as [h|]; [|done].
  destruct (image_entries ty m) as [hs'|]; [|done].
  injection H as <-. cbn. by rewrite (IH hs').
Qed.

Lemma string_of_bytes_of s : string_of (bytes_of s) = s.
Proof. apply String.string_of_list_byte_of_string. Qed.

Lemma map_store_append {A} k (v : A) acc :
  Forall (fun kv => String.ltb kv.1 k = true) acc ->
  map_store k v acc = acc ++ [(k, v)].
Proof.
  induction 1 as [|[k' v'] acc Hlt _ IH]; [done|].
  cbn [map_store app]. cbn in Hlt. unfold String.ltb in Hlt.
  rewrite String.compare_antisym.
  destruct (String.compare k' k); try done. cbn. by rewrite IH.
Qed.

(** The literal of an integer read as a [float64] is the integer
    converted. *)
Lemma float_of_lit_digits (neg : bool) d ds :
  Forall (fun d => is_digit d = true) (d :: ds) ->
  float_of_lit ((if neg then [x2d] else []) ++ d :: ds)
  = nearest neg (Z.of_N (digits_value 0 (d :: ds))) 1.
Proof.
  intros Hall. unfold float_of_lit.
  assert (Hd : eqc x2d d = false).
  { inversion Hall as [|? ? Hdig _]. unfold is_digit in Hdig.
    to_prop_in Hdig. solve_bool. }
  pose proof (take_digits_all (d :: ds) [] Hall I) as Htake.
  rewrite app_nil_r in Htake.
  destruct neg; cbn [app].
  - assert (eqc x2d x2d = true) as -> by done.
    rewrite Htake. rewrite app_nil_r. cbn [length].
    change (0 - Z.of_nat 0)%Z with 0%Z.
    change (10 ^ Z.max 0 0)%Z with 1%Z. change (10 ^ Z.max 0 (- 0))%Z with 1%Z.
    by rewrite Z.mul_1_r.
  - rewrite Hd, Htake. rewrite app_nil_r. cbn [length].
    change (0 - Z.of_nat 0)%Z with 0%Z.
    change (10 ^ Z.max 0 0)%Z with 1%Z. change (10 ^ Z.max 0 (- 0))%Z with 1%Z.
    by rewrite Z.mul_1_r.
Qed.

Lemma float_of_lit_format_int z :
  float_of_lit (format_int z) = float_of_int z.
Proof.
  unfold format_int, float_of_int. destruct z as [|p|p].
  - destruct (format_uint_spec (Z.to_N 0)) as (d & ds & -> & Hall & _ & Hval).
    pose proof (float_of_lit_digits false d ds Hall) as E. cbn [app] in E.
    by rewrite E, Hval.
  - destruct (format_uint_spec (Z.to_N (Z.pos p)))
      as (d & ds & -> & Hall & _ & Hval).
    pose proof (float_of_lit_digits false d ds Hall) as E. cbn [app] in E.
    by rewrite E, Hval.
  - destruct (format_uint_spec (N.pos p)) as (d & ds & -> & Hall & _ & Hval).
    pose proof (float_of_lit_digits true d ds Hall) as E. cbn [app] in E.
    by rewrite E, Hval.
Qed.

(** The integer a [float64] is, if it is one. *)
Definition float_is (f : float64) (z : Z) : Prop :=
  match f with
  | FZero _ => z = 0%Z
  | FFinite neg m e =>
      ((if neg then - z else z) * 2 ^ Z.max 0 (- e) = m * 2 ^ Z.max 0 e)%Z
  end.

(** Up to [2^53] in size every integer is a [float64]. *)
Lemma float_of_int_exact z :
  (- 2 ^ 53 <= z <= 2 ^ 53)%Z ->
  exists f, float_of_int z = Some f /\ float_is f z.
Proof.
  intros Hz. unfold float_of_int, nearest.
  destruct (Z.eqb_spec (Z.abs z) 0) as [H0|H0].
  { eexists. split; [done|]. cbn. lia. }
  set (p := Z.abs z) in *.
  assert (Hp : (0 < p <= 2 ^ 53)%Z) by lia.
  change (Z.log2 1) with 0%Z. rewrite Z.sub_0_r.
  set (a := Z.log2 p).
  destruct (Z.log2_spec p ltac:(lia)) as [Hlo Hhi]. fold a in Hlo, Hhi.
  assert (Ha : (0 <= a <= 53)%Z).
  { split; [apply Z.log2_nonneg|].
    destruct (Z.le_gt_cases a 53) as [?|Hgt]; [done|].
    assert (2 ^ 54 <= 2 ^ a)%Z by (apply Z.pow_le_mono_r; lia). lia. }
  assert (Hsign : (if (z <? 0)%Z then (- z)%Z else z) = p).
  { unfold p. destruct (Z.ltb_spec z 0); lia. }
  rewrite (Z.max_l 0 (- a)), (Z.max_r 0 a) by lia.
  rewrite Z.pow_0_r, Z.mul_1_r, Z.mul_1_l.
  assert ((p <? 2 ^ a)%Z = false) as -> by lia.
  rewrite (Z.max_l (a - 52) (- 1074)) by lia.
  destruct (Z.le_gt_cases a 52) as [Hle|Hgt].
  - rewrite (Z.max_r 0 (- (a - 52))), (Z.max_l 0 (a - 52)) by lia.
    rewrite Z.pow_0_r, Z.mul_1_l, Z.div_1_r, Z.mod_1_r.
    change (2 * 0 <? 1)%Z with true. cbv iota.
    set (m := (p * 2 ^ (- (a - 52)))%Z).
    assert (Hpow : (2 ^ (a + 1) * 2 ^ (- (a - 52)) = 2 ^ 53)%Z).
    { rewrite <- Z.pow_add_r by lia. f_equal. lia. }
    assert (Hpos : (0 < 2 ^ (- (a - 52)))%Z) by (apply Z.pow_pos_nonneg; lia).
    assert (Hm : (0 < m < 2 ^ 53)%Z) by (unfold m; nia).
    assert ((m =? 2 ^ 53)%Z = false) as -> by lia.
    assert ((m =? 0)%Z = false) as -> by lia.
    assert ((971 <? a - 52)%Z = false) as -> by lia.
    eexists. split; [done|]. cbn [float_is]. rewrite Hsign.
    rewrite (Z.max_r 0 (- (a - 52))), (Z.max_l 0 (a - 52)) by lia.
    rewrite Z.pow_0_r. unfold m. lia.
  - assert (a = 53%Z) by lia. subst a.
    assert (Hp53 : p = (2 ^ 53)%Z).
    { rewrite H in Hlo. lia. }
    rewrite H, Hp53. exists (FFinite (z <? 0)%Z (2 ^ 52) 1).
    split; [by vm_compute|].
    unfold float_is. rewrite Hsign, Hp53. by vm_compute.
Qed.

Lemma decode_entries_sorted ty m :
  Forall (fun kv => forall ty, decode ty (syn kv.2) = image ty kv.2) m ->
  keys_sorted (map fst m) = true ->
  forall acc,
    Forall (fun a => Forall (fun kv => String.ltb a.1 kv.1 = true) m) acc ->
    decode_entries ty (map (fun kv => (bytes_of kv.1, encode kv.2, syn kv.2)) m)
      acc
    = match image_entries ty m with
      | Some hs => Some (acc ++ hs)
      | None => None
      end.
Proof.
  induction m as [|[k v] m IH]; intros Hall Hs acc Hacc.
  { cbn. by rewrite app_nil_r. }
  inversion Hall as [|? ? Hv Hall']; subst. cbn [fst snd] in *.
  cbn [map keys_sorted] in Hs. apply andb_true_iff in Hs.
  destruct Hs as [Hk Hs]. cbn [fst] in Hk.
  cbn [map decode_entries image_entries fst snd].
  rewrite Hv, string_of_bytes_of.
  destruct (image ty v) as [h|]; [|done].
  rewrite map_store_append.
  - rewrite IH; [|done|done|].
    + destruct (image_entries ty m); [|done]. by rewrite <- app_assoc.
    + apply Forall_app. split.
      * eapply Forall_impl; [exact Hacc|]. intros a Ha. by inversion Ha.
      * constructor; [|done]. cbn [fst].
        rewrite forallb_forall in Hk. apply Forall_forall. intros kv Hkv.
        apply Hk. apply in_map. by apply list_elem_of_In.
  - eapply Forall_impl; [exact Hacc|]. intros a Ha. by inversion Ha.
Qed.

(** Decoding the syntax of a well-formed value gives its image. *)
Lemma decode_syn v :
  wf_value v = true -> forall ty, decode ty (syn v) = image ty v.
Proof.
  induction v as [|b|z|s|l IH|m IH|] using value_induction; intros Hwf ty;
    try done.
  - cbn [syn decode image]. cbn [wf_value] in Hwf.
    rewrite float_of_lit_format_int, int_of_lit_format_int; [done|].
    apply andb_true_iff in Hwf. destruct Hwf as [H1 H2].
    apply Z.leb_le in H1, H2. done.
  - cbn [syn decode image]. by rewrite string_of_bytes_of.
  - cbn [syn]. rewrite decode_JArr, image_VSlice. cbn [wf_value] in Hwf.
    assert (Hitems : forall t, decode_items t (map syn l) = image_items t l).
    { intros t. induction IH as [|v l Hv _ IHl]; [done|].
      cbn [forallb] in Hwf. apply andb_true_iff in Hwf.
      destruct Hwf as [H1 H2].
      cbn [map decode_items image_items]. by rewrite Hv, IHl. }
    by rewrite Hitems.
  - cbn [syn]. rewrite decode_JObj, image_VMap. cbn [wf_value] in Hwf.
    apply andb_true_iff in Hwf. destruct Hwf as [Hwf Hs].
    assert (Hentries : forall t,
      decode_entries t
        (map (fun kv => (bytes_of kv.1, encode kv.2, syn kv.2)) m) []
      = image_entries t m).
    { intros t. rewrite (decode_entries_sorted t m); [|
        |done|done].
      - by destruct (image_entries t m).
      - rewrite forallb_forall in Hwf.
        rewrite Forall_forall in IH |- *. intros kv Hkv. apply IH; [done|].
        specialize (Hwf kv ltac:(by apply list_elem_of_In)).
        apply andb_true_iff in Hwf. by destruct Hwf. }
    by rewrite Hentries.
Qed.

(** ** [compact] leaves what the encoder wrote as it is *)

Lemma compact_from_cons in_str esc c r :
  compact_from in_str esc 0 (c :: r)
  = let in_str' :=
      if in_str then (if esc then true else negb (eqc x22 c))
      else eqc x22 c in
    let esc' := in_str && negb esc && eqc x5c c in
    if eqc x3c c || eqc x3e c || eqc x26 c then
      [x5c; x75; x30; x30; hex (N.shiftr (cc c) 4); hex (N.land (cc c) 0xF)]
      ++ compact_from in_str' esc' 0 r
    else
      match separator_at c r with
      | Some h => [x5c; x75; x32; x30; x32; h] ++ compact_from in_str' esc' 2 r
      | None =>
          if negb in_str && is_space c
          then compact_from in_str' esc' 0 r
          else c :: compact_from in_str' esc' 0 r
      end.
Proof. reflexivity. Qed.

(** A byte inside a string that is passed on, the string going on. *)
Definition passes (b : Byte.byte) : Prop :=
  eqc x22 b = false /\ eqc x5c b = false
  /\ (eqc x3c b || eqc x3e b || eqc x26 b) = false /\ eqc xe2 b = false.

Lemma compact_passes b r :
  passes b -> compact_from true false 0 (b :: r) = b :: compact_from true false 0 r.
Proof.
  intros (H1 & H2 & H3 & H4). rewrite compact_from_cons. cbn zeta.
  unfold separator_at. rewrite H1, H2, H3, H4. reflexivity.
Qed.

Lemma compact_passes_all bs r :
  Forall passes bs ->
  compact_from true false 0 (bs ++ r) = bs ++ compact_from true false 0 r.
Proof.
  induction 1 as [|b bs Hb _ IH]; [done|].
  cbn [app]. by rewrite compact_passes, IH.
Qed.

(** A backslash and the byte it escapes. *)
Lemma compact_escaped c r :
  (eqc x3c c || eqc x3e c || eqc x26 c) = false -> eqc xe2 c = false ->
  compact_from true false 0 (x5c :: c :: r)
  = x5c :: c :: compact_from true false 0 r.
Proof.
  intros H1 H2. rewrite compact_from_cons. cbn zeta.
  change (eqc x3c x5c || eqc x3e x5c || eqc x26 x5c) with false. cbn iota.
  change (separator_at x5c (c :: r)) with (@None Byte.byte). cbn iota.
  change (negb true && is_space x5c) with false. cbn iota.
  change (true && negb false && eqc x5c x5c) with true.
  rewrite compact_from_cons. cbn zeta. unfold separator_at.
  by rewrite H1, H2.
Qed.

Lemma passes_hex n : n < 16 -> passes (hex n).
Proof.
  intros Hn. unfold passes, hex.
  destruct (n <? 10) eqn:E; to_prop_in E.
  - repeat split; unfold eqc; rewrite cc_byte_of by lia; cbn [cc Byte.to_N];
      solve_bool.
  - repeat split; unfold eqc; rewrite cc_byte_of by lia; cbn [cc Byte.to_N];
      solve_bool.
Qed.

Lemma compact_escape_ascii b r :
  cc b < 0x80 ->
  compact_from true false 0 (escape_ascii b ++ r)
  = escape_ascii b ++ compact_from true false 0 r.
Proof.
  intros Hb. unfold escape_ascii.
  destruct (htmlSafe b) eqn:Hs.
  { unfold htmlSafe in Hs. cbn [app]. to_prop_in Hs.
    apply negb_true_iff in Hs1.
    apply compact_passes. unfold passes.
    apply orb_false_iff in Hs1. destruct Hs1 as [Hs1 H5c].
    apply orb_false_iff in Hs1. destruct Hs1 as [Hs1 H3e].
    apply orb_false_iff in Hs1. destruct Hs1 as [Hs1 H3c].
    apply orb_false_iff in Hs1. destruct Hs1 as [H22 H26].
    rewrite H22, H5c, H3c, H3e, H26. repeat split. solve_bool. }
  destruct (eqc x5c b || eqc x22 b) eqn:E1.
  { apply orb_true_iff in E1. destruct E1 as [E1|E1];
      apply N.eqb_eq, cc_inj in E1; subst b; by apply compact_escaped. }
  destruct (eqc x08 b) eqn:E2; [by apply compact_escaped|].
  destruct (eqc x0c b) eqn:E3; [by apply compact_escaped|].
  destruct (eqc x0a b) eqn:E4; [by apply compact_escaped|].
  destruct (eqc x0d b) eqn:E5; [by apply compact_escaped|].
  destruct (eqc x09 b) eqn:E6; [by apply compact_escaped|].
  cbn [app]. rewrite compact_escaped by done.
  change (x30 :: x30 :: ?a :: ?b :: ?r) with ([x30; x30; a; b] ++ r).
  rewrite compact_passes_all; [done|].
  repeat apply List.Forall_cons; [by vm_compute|by vm_compute| | |done].
  - apply passes_hex. rewrite N.shiftr_div_pow2.
    apply N.Div0.div_lt_upper_bound. change (2 ^ 4) with 16. lia.
  - apply passes_hex. rewrite land_0F. by apply N.mod_lt.
Qed.

Lemma compact_lead b r :
  0x80 <= cc b -> separator_at b r = None ->
  compact_from true false 0 (b :: r) = b :: compact_from true false 0 r.
Proof.
  intros Hb Hs. rewrite compact_from_cons. cbn zeta. rewrite Hs.
  assert (eqc x22 b = false) as -> by solve_bool.
  assert (eqc x5c b = false) as -> by solve_bool.
  assert (eqc x3c b || eqc x3e b || eqc x26 b = false) as -> by solve_bool.
  reflexivity.
Qed.

Lemma passes_continuation b : 0x80 <= cc b <= 0xBF -> passes b.
Proof. intros Hb. repeat split; solve_bool. Qed.

(** The lead byte of a rune other than the two separators does not start
    a separator. *)
Lemma no_separator b pre' r Y :
  pre' <> [] ->
  (forall tail', DecodeRune (b :: pre' ++ tail') = (r, S (length pre'))) ->
  ((r =? 0x2028) || (r =? 0x2029)) = false ->
  separator_at b (pre' ++ Y) = None.
Proof.
  intros Hne Hany Hsep. unfold separator_at.
  destruct (eqc xe2 b) eqn:Eb; [|done].
  apply N.eqb_eq, cc_inj in Eb. subst b.
  destruct pre' as [|b1 [|b2 pre'']].
  - done.
  - specialize (Hany []). exfalso. cbn in Hany.
    repeat case_match; simplify_eq.
  - cbn [app].
    destruct (eqc x80 b1 && (eqc xa8 b2 || eqc xa9 b2)) eqn:E; [|done].
    exfalso. apply andb_true_iff in E. destruct E as [E1 E2].
    apply N.eqb_eq, cc_inj in E1. subst b1.
    apply orb_true_iff in E2.
    destruct E2 as [E2|E2]; apply N.eqb_eq, cc_inj in E2; subst b2;
      specialize (Hany []); cbn in Hany; injection Hany as <- _; done.
Qed.

Lemma compact_escape_from n :
  forall s R,
    (length s <= n)%nat -> Valid_from 0 s = true ->
    compact_from true false 0 (escape 0 s ++ x22 :: R)
    = escape 0 s ++ x22 :: compact_from false false 0 R.
Proof.
  induction n as [|n IH]; intros s R Hlen Hv.
  { destruct s; [done|cbn in Hlen; lia]. }
  destruct s as [|b s1]; [done|]. cbn in Hlen.
  destruct (cc b <? 0x80) eqn:E; to_prop_in E.
  - cbn [escape]. assert ((cc b <? 0x80) = true) as -> by solve_bool.
    rewrite <- app_assoc, compact_escape_ascii by done.
    rewrite IH; [by rewrite <- app_assoc|lia|].
    cbn [Valid_from] in Hv.
    by assert ((cc b <? 0x80) = true) as E' by solve_bool; rewrite E' in Hv.
  - destruct (Valid_rune b s1 E Hv)
      as (r & pre' & tail & -> & Hne & Hd & Happ & Hall & Hcont & Hr & Hany
          & Hvt).
    rewrite length_app in Hlen.
    specialize (IH tail R ltac:(lia) Hvt).
    cbn [escape]. assert ((cc b <? 0x80) = false) as -> by solve_bool.
    rewrite Hd.
    assert (((r =? RuneError) && (S (length pre') =? 1)%nat) = false) as ->.
    { apply andb_false_iff. right. by destruct pre'. }
    cbn [Nat.sub]. rewrite Nat.sub_0_r, escape_skip.
    destruct ((r =? 0x2028) || (r =? 0x2029)) eqn:Esep.
    + rewrite <- app_assoc. cbn [app]. rewrite compact_escaped by done.
      change (x32 :: x30 :: x32 :: ?a :: ?r) with ([x32; x30; x32; a] ++ r).
      rewrite compact_passes_all; [by rewrite IH|].
      repeat apply List.Forall_cons; [by vm_compute..| |done].
      apply passes_hex. rewrite land_0F. by apply N.mod_lt.
    + cbn [take]. rewrite take_app_length.
      rewrite <- app_assoc, <- app_comm_cons.
      rewrite compact_lead;
        [|by inversion Hall|by eapply no_separator].
      rewrite compact_passes_all, IH; [by rewrite <- app_assoc|].
      inversion Hall as [|? ? _ Hall']; subst.
      clear -Hall' Hcont. induction Hall' as [|c cs Hc _ IHc]; [done|].
      inversion Hcont; subst. constructor; [|by apply IHc].
      apply passes_continuation. lia.
Qed.

(** A quoted string as the encoder writes it. *)
Lemma compact_string s R :
  Valid (bytes_of s) = true ->
  compact_from false false 0 (appendString s ++ R)
  = appendString s ++ compact_from false false 0 R.
Proof.
  intros Hv. unfold appendString. rewrite <- !app_assoc. cbn [app].
  rewrite compact_from_cons. cbn zeta.
  change (eqc x3c x22 || eqc x3e x22 || eqc x26 x22) with false. cbn iota.
  change (separator_at x22 ?r) with (@None Byte.byte). cbn iota.
  change (negb false && is_space x22) with false. cbn iota.
  change (eqc x22 x22) with true.
  change (false && negb false && eqc x5c x22) with false.
  by rewrite (compact_escape_from (length (bytes_of s))).
Qed.

(** A text that [compact] copies, whatever follows. *)
Definition stable (text : bytes) : Prop :=
  forall R,
    compact_from false false 0 (text ++ R)
    = text ++ compact_from false false 0 R.

Lemma stable_nil : stable [].
Proof. by intros R. Qed.

Lemma stable_app t1 t2 : stable t1 -> stable t2 -> stable (t1 ++ t2).
Proof. intros H1 H2 R. by rewrite <- !app_assoc, H1, H2. Qed.

(** A byte between tokens that is passed on. *)
Definition token_byte (b : Byte.byte) : bool :=
  negb (is_space b) && negb (eqc x22 b)
  && negb (eqc x3c b || eqc x3e b || eqc x26 b) && negb (eqc xe2 b).

Lemma stable_token b : token_byte b = true -> stable [b].
Proof.
  intros Hb R. unfold token_byte in Hb.
  apply andb_true_iff in Hb. destruct Hb as [Hb H4].
  apply andb_true_iff in Hb. destruct Hb as [Hb H3].
  apply andb_true_iff in Hb. destruct Hb as [H1 H2].
  apply negb_true_iff in H1, H2, H3, H4.
  cbn [app]. rewrite compact_from_cons. cbn zeta. unfold separator_at.
  by rewrite H1, H2, H3, H4.
Qed.

Lemma stable_tokens bs : forallb token_byte bs = true -> stable bs.
Proof.
  induction bs as [|b bs IH]; intros H; [apply stable_nil|].
  cbn in H. apply andb_true_iff in H. destruct H as [Hb Hbs].
  apply (stable_app [b] bs); [by apply stable_token|by apply IH].
Qed.

Lemma token_digit d : is_digit d = true -> token_byte d = true.
Proof.
  unfold is_digit, token_byte, is_space. intros H. to_prop_in H.
  repeat (apply andb_true_iff; split); apply negb_true_iff; solve_bool.
Qed.

Lemma stable_format_uint n : stable (format_uint n).
Proof.
  destruct (format_uint_spec n) as (d & ds & -> & Hall & _).
  apply stable_tokens. apply forallb_forall. intros b Hb.
  apply token_digit. rewrite Forall_forall in Hall. apply Hall.
  by apply list_elem_of_In.
Qed.

Lemma stable_format_int z : stable (format_int z).
Proof.
  unfold format_int. destruct z as [|p|p]; try apply stable_format_uint.
  apply (stable_app [x2d]); [by apply stable_token|apply stable_format_uint].
Qed.

Lemma stable_string s : Valid (bytes_of s) = true -> stable (appendString s).
Proof. intros Hv R. by apply compact_string. Qed.

Lemma stable_items l :
  Forall (fun v => stable (encode v)) l -> stable (encode_items l).
Proof.
  induction 1 as [|v l Hv Hl IH]; [apply stable_nil|].
  destruct l as [|v' l]; [done|].
  change (encode_items (v :: v' :: l))
    with (encode v ++ [x2c] ++ encode_items (v' :: l)).
  apply stable_app; [done|]. apply stable_app; [by apply stable_token|done].
Qed.

Lemma stable_entries m :
  Forall (fun kv => Valid (bytes_of kv.1) = true /\ stable (encode kv.2)) m ->
  stable (encode_entries m).
Proof.
  induction 1 as [|[k v] m [Hk Hv] Hl IH]; [apply stable_nil|].
  cbn [fst snd] in *.
  assert (Hone : stable (appendString k ++ [x3a] ++ encode v)).
  { apply stable_app; [by apply stable_string|].
    apply stable_app; [by apply stable_token|done]. }
  destruct m as [|kv m]; [done|].
  replace (encode_entries ((k, v) :: kv :: m))
    with ((appendString k ++ [x3a] ++ encode v)
          ++ [x2c] ++ encode_entries (kv :: m))
    by (destruct kv; cbn [encode_entries]; by rewrite <- !app_assoc).
  apply stable_app; [done|]. apply stable_app; [by apply stable_token|done].
Qed.

Lemma stable_encode v : wf_value v = true -> stable (encode v).
Proof.
  induction v as [|b|z|s|l IH|m IH|] using value_induction; intros Hwf.
  - by apply stable_tokens.
  - destruct b; by apply stable_tokens.
  - apply stable_format_int.
  - by apply stable_string.
  - rewrite encode_VSlice.
    apply stable_app; [by apply stable_token|].
    apply stable_app; [|by apply stable_token].
    apply stable_items. cbn [wf_value] in Hwf.
    rewrite forallb_forall in Hwf. rewrite Forall_forall in IH |- *.
    intros v Hv. apply IH; [done|]. apply Hwf. by apply list_elem_of_In.
  - rewrite encode_VMap.
    apply stable_app; [by apply stable_token|].
    apply stable_app; [|by apply stable_token].
    apply stable_entries. cbn [wf_value] in Hwf.
    apply andb_true_iff in Hwf. destruct Hwf as [Hwf _].
    rewrite forallb_forall in Hwf. rewrite Forall_forall in IH |- *.
    intros kv Hkv. specialize (Hwf kv ltac:(by apply list_elem_of_In)).
    apply andb_true_iff in Hwf. destruct Hwf as [Hk Hv].
    split; [done|]. by apply IH.
  - done.
Qed.

(** ** Whole texts *)

Lemma encode_items_length l :
  Forall (fun v => (fuel_of v <= length (encode v))%nat) l ->
  (length l + sum_with fuel_of l <= S (length (encode_items l)))%nat.
Proof.
  induction 1 as [|v l Hv Hl IH]; [cbn; lia|].
  destruct l as [|v' l]; [cbn in *; lia|].
  change (encode_items (v :: v' :: l))
    with (encode v ++ [x2c] ++ encode_items (v' :: l)).
  rewrite !length_app. cbn [length sum_with] in *. lia.
Qed.

Lemma encode_entries_length m :
  Forall (fun kv => (fuel_of kv.2 <= length (encode kv.2))%nat) m ->
  (length m + sum_with (fun kv => fuel_of kv.2) m
   <= S (length (encode_entries m)))%nat.
Proof.
  induction 1 as [|[k v] m Hv Hl IH]; [cbn; lia|].
  cbn [fst snd] in *.
  destruct m as [|kv m].
  - cbn [encode_entries]. rewrite !length_app. cbn in *. lia.
  - replace (encode_entries ((k, v) :: kv :: m))
      with (appendString k ++ [x3a] ++ encode v
            ++ [x2c] ++ encode_entries (kv :: m))
      by (by destruct kv).
    rewrite !length_app. cbn [length sum_with fst snd] in *. lia.
Qed.

Lemma fuel_of_length v :
  wf_value v = true -> (fuel_of v <= length (encode v))%nat.
Proof.
  induction v as [|b|z|s|l IH|m IH|] using value_induction; intros Hwf.
  - cbn. lia.
  - destruct b; cbn; lia.
  - cbn [fuel_of encode]. unfold format_int.
    destruct z as [|p|p].
    + destruct (format_uint_spec (Z.to_N 0)) as (d & ds & -> & _). cbn. lia.
    + destruct (format_uint_spec (Z.to_N (Z.pos p))) as (d & ds & -> & _).
      cbn. lia.
    + cbn. lia.
  - cbn [fuel_of encode]. unfold appendString. rewrite !length_app. cbn. lia.
  - rewrite encode_VSlice. cbn [fuel_of]. rewrite !length_app.
    cbn [length].
    assert (Hall : Forall (fun v => (fuel_of v <= length (encode v))%nat) l).
    { cbn [wf_value] in Hwf. rewrite forallb_forall in Hwf.
      rewrite Forall_forall in IH |- *. intros v Hv. apply IH; [done|].
      apply Hwf. by apply list_elem_of_In. }
    pose proof (encode_items_length l Hall). lia.
  - rewrite encode_VMap. cbn [fuel_of]. rewrite !length_app.
    cbn [length].
    assert (Hall : Forall (fun kv => (fuel_of kv.2 <= length (encode kv.2))%nat) m).
    { cbn [wf_value] in Hwf. apply andb_true_iff in Hwf.
      destruct Hwf as [Hwf _]. rewrite forallb_forall in Hwf.
      rewrite Forall_forall in IH |- *. intros kv Hkv. apply IH; [done|].
      specialize (Hwf kv ltac:(by apply list_elem_of_In)).
      apply andb_true_iff in Hwf. by destruct Hwf. }
    pose proof (encode_entries_length m Hall). lia.
  - done.
Qed.

(** A single text that [parses] is a valid whole text. *)
Lemma parse_top_parses text j need vd :
  parses text j need vd -> (need <= fuel_for text)%nat ->
  vd <= maxNestingDepth ->
  parse_top text = Some j.
Proof.
  intros Hp Hn Hd. unfold parse_top.
  pose proof (skip_ws_parses text j need vd [] Hp) as Hs.
  rewrite app_nil_r in Hs. rewrite Hs.
  destruct Hp as [_ Hp]. specialize (Hp (fuel_for text) 0 [] Hn).
  rewrite app_nil_r in Hp. rewrite Hp; [done|lia|done].
Qed.

Lemma parse_top_encode v :
  wf_value v = true -> vdepth v <= maxNestingDepth ->
  parse_top (encode v) = Some (syn v).
Proof.
  intros Hwf Hd. eapply parse_top_parses; [by apply parses_encode| |done].
  pose proof (fuel_of_length v Hwf). unfold fuel_for. lia.
Qed.

(** ** The data recovered

    [held_of v] is the value [v] as a variable holds it, numbers as the
    integers they are.  [has_type ty v] says that every part of [v] is of
    the kind the type [ty] asks for, for the types without [interface{}]
    and [float64]: there the type fixes the kind of every part.  [small_ints v] says that the
    integers of [v] are at most [2^53] in size.  [agrees v h] says that
    [h] holds what [v] is, a number of [v] being held as the integer or as
    a [float64] that is this integer. *)
Fixpoint held_of (v : value) : held :=
  match v with
  | VNil | VChan => HNil
  | VBool b => HBool b
  | VInt z => HInt z
  | VString s => HString s
  | VSlice l => HSlice (map held_of l)
  | VMap m => HMap (map (fun kv => (kv.1, held_of kv.2)) m)
  end.

Fixpoint has_type (ty : gotype) (v : value) {struct v} : bool :=
  match v with
  | VNil => match ty with TSlice _ | TMap _ => true | _ => false end
  | VBool _ => match ty with TBool => true | _ => false end
  | VInt _ => match ty with TInt64 => true | _ => false end
  | VString _ => match ty with TString => true | _ => false end
  | VSlice l =>
      match ty with TSlice t => forallb (has_type t) l | _ => false end
  | VMap m =>
      match ty with
      | TMap t => forallb (fun kv => has_type t kv.2) m
      | _ => false
      end
  | VChan => false
  end.

Fixpoint small_ints (v : value) : bool :=
  match v with
  | VInt z => ((- 2 ^ 53 <=? z) && (z <=? 2 ^ 53))%Z
  | VSlice l => forallb small_ints l
  | VMap m => forallb (fun kv => small_ints kv.2) m
  | _ => true
  end.

#[warnings="-register-all"]
Inductive agrees : value -> held -> Prop :=
  | agrees_nil : agrees VNil HNil
  | agrees_bool b : agrees (VBool b) (HBool b)
  | agrees_int z : agrees (VInt z) (HInt z)
  | agrees_float z f : float_is f z -> agrees (VInt z) (HFloat f)
  | agrees_string s : agrees (VString s) (HString s)
  | agrees_slice l hs : Forall2 agrees l hs -> agrees (VSlice l) (HSlice hs)
  | agrees_map m hs :
      Forall2 (fun kv kh => kv.1 = kh.1 /\ agrees kv.2 kh.2) m hs ->
      agrees (VMap m) (HMap hs).

(** A target whose type fits the data receives the data. *)
Lemma image_typed v :
  forall ty, has_type ty v = true -> image ty v = Some (held_of v).
Proof.
  induction v as [|b|z|s|l IH|m IH|] using value_induction; intros ty Hty;
    try (by destruct ty).
  - rewrite image_VSlice. destruct ty as [| | | | |t|t]; try done.
    cbn [has_type] in Hty. cbn [elem_of held_of].
    assert (image_items t l = Some (map held_of l)) as ->; [|done].
    induction IH as [|v l Hv _ IHl]; [done|].
    cbn [forallb] in Hty. apply andb_true_iff in Hty. destruct Hty as [H1 H2].
    cbn [image_items map]. by rewrite (Hv t H1), (IHl H2).
  - rewrite image_VMap. destruct ty as [| | | | |t|t]; try done.
    cbn [has_type] in Hty. cbn [elem_of held_of].
    assert (image_entries t m
            = Some (map (fun kv => (kv.1, held_of kv.2)) m)) as ->; [|done].
    induction IH as [|[k v] m Hv _ IHm]; [done|].
    cbn [forallb] in Hty. apply andb_true_iff in Hty. destruct Hty as [H1 H2].
    cbn [fst snd] in *.
    cbn [image_entries map fst snd]. by rewrite (Hv t H1), (IHm H2).
Qed.

(** An [interface{}] receives data that agrees with the data sent, as
    long as its integers are small enough for [float64]. *)
Lemma image_any v :
  serializable v = true -> small_ints v = true ->
  exists h, image TAny v = Some h /\ agrees v h.
Proof.
  induction v as [|b|z|s|l IH|m IH|] using value_induction; intros Hser Hsm;
    try done.
  - exists HNil. split; [done|constructor].
  - exists (HBool b). split; [done|constructor].
  - cbn [small_ints] in Hsm. apply andb_true_iff in Hsm.
    destruct Hsm as [H1 H2]. apply Z.leb_le in H1, H2.
    destruct (float_of_int_exact z) as (f & Hf & Hz); [done|].
    exists (HFloat f). cbn [image]. rewrite Hf. split; [done|by constructor].
  - exists (HString s). split; [done|constructor].
  - rewrite image_VSlice. cbn [elem_of serializable small_ints] in *.
    assert (exists hs, image_items TAny l = Some hs /\ Forall2 agrees l hs)
      as (hs & -> & Hhs).
    { induction IH as [|v l Hv _ IHl]; [by exists []|].
      cbn [forallb] in Hser, Hsm.
      apply andb_true_iff in Hser. destruct Hser as [S1 S2].
      apply andb_true_iff in Hsm. destruct Hsm as [M1 M2].
      destruct (Hv S1 M1) as (h & Hh & Hag).
      destruct (IHl S2 M2) as (hs & Hhs & Hags).
      exists (h :: hs). cbn [image_items]. rewrite Hh, Hhs.
      split; [done|by constructor]. }
    exists (HSlice hs). split; [done|by constructor].
  - rewrite image_VMap. cbn [elem_of serializable small_ints] in *.
    assert (exists hs,
              image_entries TAny m = Some hs
              /\ Forall2 (fun kv kh => kv.1 = kh.1 /\ agrees kv.2 kh.2) m hs)
      as (hs & -> & Hhs).
    { induction IH as [|[k v] m Hv _ IHm]; [by exists []|].
      cbn [forallb fst snd] in Hser, Hsm, Hv.
      apply andb_true_iff in Hser. destruct Hser as [S1 S2].
      apply andb_true_iff in Hsm. destruct Hsm as [M1 M2].
      destruct (Hv S1 M1) as (h & Hh & Hag).
      destruct (IHm S2 M2) as (hs & Hhs & Hags).
      exists ((k, h) :: hs). cbn [image_entries]. rewrite Hh, Hhs.
      split; [done|by constructor]. }
    exists (HMap hs). split; [done|by constructor].
Qed.

(** What [Marshal] writes for a well-formed value, [Unmarshal] reads
    back as the image of the value in the target. *)
Lemma Unmarshal_encode ty v :
  wf_value v = true -> vdepth v <= maxNestingDepth ->
  Unmarshal ty (encode v)
  = match image ty v with
    | Some h => Ok h
    | None => Error (UnmarshalTypeError "")
    end.
Proof.
  intros Hwf Hd. unfold Unmarshal.
  by rewrite parse_top_encode, decode_syn.
Qed.

Lemma compact_encode v :
  wf_value v = true -> vdepth v <= maxNestingDepth ->
  compact (encode v) = Ok (encode v).
Proof.
  intros Hwf Hd. unfold compact, checkValid.
  rewrite parse_top_encode by done.
  pose proof (stable_encode v Hwf []) as Hs.
  rewrite app_nil_r in Hs. rewrite Hs. cbn [compact_from].
  by rewrite app_nil_r.
Qed.

Lemma wf_serializable v : wf_value v = true -> serializable v = true.
Proof.
  induction v as [|b|z|s|l IH|m IH|] using value_induction; intros Hwf;
    try done.
  - cbn [wf_value serializable] in *. rewrite forallb_forall in Hwf |- *.
    rewrite Forall_forall in IH. intros v Hv. apply IH; [|by apply Hwf].
    by apply list_elem_of_In.
  - cbn [wf_value serializable] in *. apply andb_true_iff in Hwf.
    destruct Hwf as [Hwf _]. rewrite forallb_forall in Hwf |- *.
    rewrite Forall_forall in IH. intros kv Hkv.
    apply IH; [by apply list_elem_of_In|].
    specialize (Hwf kv Hkv). apply andb_true_iff in Hwf. by destruct Hwf.
Qed.

End json_facts.

Module civil_facts.
Import Init.Byte.
Import json json_facts civil.
Local Open Scope N_scope.

Lemma undigit_digit n : n < 10 -> undigit (digit n) = Some n.
Proof.
  intros Hn. unfold undigit, digit. fold (cc (byte_of_N (48 + n))).
  rewrite cc_byte_of by lia.
  assert ((48 <=? 48 + n) && (48 + n <=? 57) = true) as -> by solve_bool.
  f_equal. lia.
Qed.

Lemma htmlSafe_digit n : n < 10 -> htmlSafe (digit n) = true.
Proof.
  intros Hn. unfold htmlSafe, digit, eqc. rewrite cc_byte_of by lia.
  cbn [cc Byte.to_N]. solve_bool.
Qed.

Lemma read2_two n : n < 100 -> read2 (digit (n / 10)) (digit (n mod 10)) = Some n.
Proof.
  intros Hn. unfold read2.
  rewrite !undigit_digit
    by (try apply N.mod_lt; try apply N.Div0.div_lt_upper_bound; lia).
  f_equal. pose proof (N.div_mod n 10 ltac:(lia)). lia.
Qed.

Lemma htmlSafe_two n : n < 100 -> forallb htmlSafe (two n) = true.
Proof.
  intros Hn. unfold two. cbn [forallb].
  rewrite !htmlSafe_digit
    by (try apply N.mod_lt; try apply N.Div0.div_lt_upper_bound; lia).
  done.
Qed.

Lemma valid_bounds x :
  valid x = true ->
  year x <= 9999 /\ month x <= 12 /\ day x <= 31 /\ hour x <= 23
  /\ minute x <= 59 /\ second x <= 59.
Proof.
  unfold valid. intros H. to_prop_in H.
  assert (daysIn (month x) (year x) <= 31).
  { unfold daysIn. repeat case_match; lia. }
  lia.
Qed.

Lemma format_plain x : valid x = true -> forallb htmlSafe (format x) = true.
Proof.
  intros Hv. destruct (valid_bounds x Hv) as (Hy & Hm & Hd & Hh & Hi & Hs).
  unfold format, four. rewrite !forallb_app.
  rewrite !htmlSafe_two
    by (try apply N.mod_lt; try apply N.Div0.div_lt_upper_bound; lia).
  reflexivity.
Qed.

Lemma parse_format x : valid x = true -> parse (format x) = Some x.
Proof.
  intros Hv. destruct (valid_bounds x Hv) as (Hy & Hm & Hd & Hh & Hi & Hs).
  unfold format, four, two.
  change (bytes_of "-") with [x2d]. change (bytes_of "T") with [x54].
  change (bytes_of ":") with [x3a]. change (bytes_of "Z") with [x5a].
  cbn [app]. unfold parse.
  rewrite bool_decide_eq_true_2 by (by vm_compute).
  unfold read4.
  rewrite !read2_two
    by (try apply N.mod_lt; try apply N.Div0.div_lt_upper_bound; lia).
  replace (100 * (year x / 100) + year x mod 100) with (year x)
    by (pose proof (N.div_mod (year x) 100 ltac:(lia)); lia).
  destruct x; cbn [year month day hour minute second] in *.
  by rewrite Hv.
Qed.

Lemma UnmarshalJSON_quoted body t0 :
  UnmarshalJSON ([x22] ++ body ++ [x22]) t0
  = match parse body with
    | Some y => Ok y
    | None => Error (External "parsing time")
    end.
Proof.
  unfold UnmarshalJSON.
  rewrite bool_decide_eq_false_2 by (intros [=]).
  cbn [app]. rewrite rev_app_distr. cbn [rev app].
  rewrite bool_decide_eq_true_2 by done.
  by rewrite rev_involutive.
Qed.

#[global] Instance codec_laws : TimeCodecLaws codec.
Proof.
  split.
  - intros t b. cbn [Time_MarshalJSON codec]. unfold MarshalJSON.
    destruct (valid t) eqn:Hv; [|done]. intros [= <-].
    exists (format t). split; [done|]. by apply format_plain.
  - intros t b t0. cbn [Time_MarshalJSON Time_UnmarshalJSON codec].
    unfold MarshalJSON. destruct (valid t) eqn:Hv; [|done]. intros [= <-].
    pose proof (UnmarshalJSON_quoted (format t) t0) as H.
    rewrite parse_format in H by done. exact H.
  - intros t0. reflexivity.
Qed.

End civil_facts.

Module decode_facts.
Import Init.Byte.
Import json kafka json_facts.

Section Decode.
Context {TC : TimeCodec}.

(** Two envelopes agree on a field. *)
Definition same_field (f : field) (e e' : CloudEvent) : Prop :=
  match f with
  | FID => ID e = ID e'
  | FSource => Source e = Source e'
  | FType => Type_ e = Type_ e'
  | FTime => Time_ e = Time_ e'
  | FDataContentType => DataContentType e = DataContentType e'
  | FData => Data e = Data e'
  end.

(** No member of the object selects the field. *)
Definition absent (f : field) (ms : list (bytes * bytes * syntax)) : Prop :=
  Forall (fun m => find_field m.1.1 <> Some f) ms.

(** A member the decoder accepts: of an unknown key, for [data], a text
    [Time] reads for [time], a string or [null] for a string field. *)
Definition acceptable (m : bytes * bytes * syntax) : Prop :=
  match find_field m.1.1 with
  | None | Some FData => True
  | Some FTime => forall t0, is_Ok (Time_UnmarshalJSON m.1.2 t0)
  | Some _ =>
      match m.2 with JStr _ | JNull => True | _ => False end
  end.

(** A member the decoder refuses for its kind: the key selects one of the
    four string fields and the value is neither a string nor [null]. *)
Definition wrong_kind (m : bytes * bytes * syntax) : Prop :=
  match find_field m.1.1 with
  | Some FID | Some FSource | Some FType | Some FDataContentType =>
      match m.2 with JStr _ | JNull => False | _ => True end
  | _ => False
  end.

(** A member for [time] whose text [Time] does not read. *)
Definition unreadable_time (m : bytes * bytes * syntax) : Prop :=
  find_field m.1.1 = Some FTime
  /\ forall t0, ~ is_Ok (Time_UnmarshalJSON m.1.2 t0).

Lemma decode_members_cons k raw j ms e saved :
  decode_members ((k, raw, j) :: ms) e saved
  = match find_field k with
    | None => decode_members ms e saved
    | Some FTime =>
        match Time_UnmarshalJSON raw (Time_ e) with
        | Ok t => decode_members ms (set_Time t e) saved
        | Error err => Error err
        end
    | Some FData => decode_members ms (set_Data raw e) saved
    | Some f =>
        match j with
        | JStr t => decode_members ms (set_string f (string_of t) e) saved
        | JNull => decode_members ms e saved
        | _ =>
            decode_members ms e
              (match saved with
               | Some err => Some err
               | None => Some (UnmarshalTypeError (field_name f))
               end)
        end
    end.
Proof. reflexivity. Qed.

Lemma set_string_other f g v e : f <> g -> same_field f (set_string g v e) e.
Proof. by destruct f, g. Qed.

Lemma same_field_trans f e1 e2 e3 :
  same_field f e1 e2 -> same_field f e2 e3 -> same_field f e1 e3.
Proof. destruct f; cbn; congruence. Qed.

Lemma decode_members_absent f ms :
  absent f ms ->
  forall e saved e',
    decode_members ms e saved = Ok e' -> same_field f e' e.
Proof.
  induction 1 as [|[[k raw] j] ms Hk _ IH]; intros e saved e' Hdec.
  { cbn in Hdec. destruct saved; [done|]. injection Hdec as <-.
    by destruct f. }
  cbn [fst] in Hk. rewrite decode_members_cons in Hdec.
  destruct (find_field k) as [g|] eqn:Hg; [|by eapply IH].
  assert (Hne : f <> g) by congruence.
  destruct g.
  all: try (destruct j;
            try (by eapply IH);
            eapply same_field_trans;
            [by eapply IH|by apply set_string_other]).
  - destruct (Time_UnmarshalJSON raw (Time_ e)) as [t|]; [|done].
    eapply same_field_trans; [by eapply IH|]. by destruct f.
  - eapply same_field_trans; [by eapply IH|]. by destruct f.
Qed.

Lemma decode_members_acceptable ms :
  Forall acceptable ms ->
  forall e, exists e', decode_members ms e None = Ok e'.
Proof.
  induction 1 as [|[[k raw] j] ms Hm _ IH]; intros e; [by eexists|].
  unfold acceptable in Hm. cbn [fst snd] in Hm.
  rewrite decode_members_cons.
  destruct (find_field k) as [g|]; [|by apply IH].
  destruct g; try (destruct j; try done; by apply IH).
  specialize (Hm (Time_ e)).
  destruct (Time_UnmarshalJSON raw (Time_ e)); [by apply IH|done].
Qed.

(** An error once remembered is never forgotten. *)
Lemma decode_members_saved ms :
  forall e err, exists err', decode_members ms e (Some err) = Error err'.
Proof.
  induction ms as [|[[k raw] j] ms IH]; intros e err; [by eexists|].
  rewrite decode_members_cons.
  destruct (find_field k) as [g|]; [|by apply IH].
  destruct g; try (destruct j; by apply IH).
  destruct (Time_UnmarshalJSON raw (Time_ e)); [by apply IH|by eexists].
Qed.

Lemma decode_members_step_fails m ms :
  (forall e saved, exists err, decode_members ms e saved = Error err) ->
  forall e saved, exists err, decode_members (m :: ms) e saved = Error err.
Proof.
  destruct m as [[k raw] j]. intros IH e saved.
  rewrite decode_members_cons.
  destruct (find_field k) as [g|]; [|by apply IH].
  destruct g; try (destruct j; by apply IH).
  destruct (Time_UnmarshalJSON raw (Time_ e)); [by apply IH|by eexists].
Qed.

Lemma decode_members_wrong_kind ms :
  Exists wrong_kind ms ->
  forall e saved, exists err, decode_members ms e saved = Error err.
Proof.
  induction 1 as [[[k raw] j] ms Hm|m ms _ IH].
  - intros e saved. unfold wrong_kind in Hm. cbn [fst snd] in Hm.
    rewrite decode_members_cons.
    destruct (find_field k) as [g|]; [|done].
    destruct g; try done; destruct j; try done;
      destruct saved; apply decode_members_saved.
  - by apply decode_members_step_fails.
Qed.

Lemma decode_members_unreadable_time ms :
  Exists unreadable_time ms ->
  forall e saved, exists err, decode_members ms e saved = Error err.
Proof.
  induction 1 as [[[k raw] j] ms [Hk Hm]|m ms _ IH].
  - intros e saved. cbn [fst snd] in Hk, Hm.
    rewrite decode_members_cons, Hk.
    specialize (Hm (Time_ e)).
    destruct (Time_UnmarshalJSON raw (Time_ e)); [by destruct Hm|by eexists].
  - by apply decode_members_step_fails.
Qed.

End Decode.

(** C3 (amended).  [ParseCloudEvent] requires no field of the envelope.
    It returns an error, always with the zero envelope and never a partly
    filled one, the error wrapped as "failed to parse cloud event": for a
    text that is not valid JSON, for a JSON value other than an object or
    [null], for an object with a member that selects a string field and
    holds neither a string nor [null], and for an object with a [time]
    member whose text [Time] does not read.  It returns no error for
    [null] and for an object whose members are all acceptable, whatever
    fields are missing; and a field no member selects keeps its zero
    value in the envelope returned. *)
Theorem ParseCloudEvent_missing_fields {TC : TimeCodec} (data : bytes) :
  (forall err,
      (ParseCloudEvent data).2 = Some err ->
      (ParseCloudEvent data).1 = CloudEvent_zero
      /\ exists cause, err = Errorf "failed to parse cloud event" cause)
  /\ (checkValid data = false ->
      ParseCloudEvent data
      = (CloudEvent_zero,
         Some (Errorf "failed to parse cloud event" SyntaxError)))
  /\ (parse_top data = Some JNull ->
      ParseCloudEvent data = (CloudEvent_zero, None))
  /\ (forall ms,
      parse_top data = Some (JObj ms) ->
      (Forall acceptable ms -> (ParseCloudEvent data).2 = None)
      /\ (forall f,
          absent f ms -> (ParseCloudEvent data).2 = None ->
          same_field f (ParseCloudEvent data).1 CloudEvent_zero)
      /\ (Exists wrong_kind ms ->
          exists cause,
            ParseCloudEvent data
            = (CloudEvent_zero,
               Some (Errorf "failed to parse cloud event" cause)))
      /\ (Exists unreadable_time ms ->
          exists cause,
            ParseCloudEvent data
            = (CloudEvent_zero,
               Some (Errorf "failed to parse cloud event" cause))))
  /\ (forall j,
      parse_top data = Some j ->
      j <> JNull -> (forall ms, j <> JObj ms) ->
      ParseCloudEvent data
      = (CloudEvent_zero,
         Some (Errorf "failed to parse cloud event" (UnmarshalTypeError "")))).
Proof.
  unfold ParseCloudEvent, Unmarshal_CloudEvent, checkValid.
  split; [|split; [|split; [|split]]].
  - intros err.
    destruct (match parse_top data with
              | Some JNull => _ | Some (JObj ms) => _ | Some _ => _
              | None => _ end) as [e|cause]; cbn; [done|].
    intros [= <-]. eauto.
  - by destruct (parse_top data).
  - by intros ->.
  - intros ms ->. split; [|split; [|split]].
    + intros Hacc.
      by destruct (decode_members_acceptable ms Hacc CloudEvent_zero)
        as [e' ->].
    + intros f Habs.
      destruct (decode_members ms CloudEvent_zero None) as [e'|] eqn:Hdec;
        [|done].
      intros _. by eapply decode_members_absent.
    + intros Hbad.
      destruct (decode_members_wrong_kind ms Hbad CloudEvent_zero None)
        as [cause ->].
      by exists cause.
    + intros Hbad.
      destruct (decode_members_unreadable_time ms Hbad CloudEvent_zero None)
        as [cause ->].
      by exists cause.
  - intros j -> Hnull Hobj. destruct j; try done.
    by destruct (Hobj members).
Qed.

Section Examples.
Local Existing Instance civil.codec.

(** The text [{"id":"abc"}]. *)
Definition only_id : bytes :=
  bytes_of "{" ++ [x22] ++ bytes_of "id" ++ [x22] ++ bytes_of ":"
  ++ [x22] ++ bytes_of "abc" ++ [x22] ++ bytes_of "}".

(** Five of the six fields are missing, and the text is decoded without
    an error into an envelope that holds the one field given. *)
Lemma ParseCloudEvent_missing_fields_counterexample :
  parse_top only_id
  = Some (JObj [(bytes_of "id", [x22] ++ bytes_of "abc" ++ [x22],
                 JStr (bytes_of "abc"))])
  /\ ParseCloudEvent only_id
     = ({| ID := "abc"; Source := ""; Type_ := ""; Time_ := civil.zero;
           DataContentType := ""; Data := None |}, None).
Proof. split; by vm_compute. Qed.

(** The texts [{"id":7}] and [{"time":7}]. *)
Definition id_number : bytes :=
  bytes_of "{" ++ [x22] ++ bytes_of "id" ++ [x22] ++ bytes_of ":7}".

Definition time_number : bytes :=
  bytes_of "{" ++ [x22] ++ bytes_of "time" ++ [x22] ++ bytes_of ":7}".

Lemma ParseCloudEvent_missing_fields_witness :
  (ParseCloudEvent only_id).2 = None
  /\ Source (ParseCloudEvent only_id).1 = ""
  /\ Data (ParseCloudEvent only_id).1 = None
  /\ ParseCloudEvent (bytes_of "{")
     = (CloudEvent_zero,
        Some (Errorf "failed to parse cloud event" SyntaxError))
  /\ (exists cause,
        ParseCloudEvent id_number
        = (CloudEvent_zero,
           Some (Errorf "failed to parse cloud event" cause)))
  /\ (exists cause,
        ParseCloudEvent time_number
        = (CloudEvent_zero,
           Some (Errorf "failed to parse cloud event" cause)))
  /\ ParseCloudEvent (bytes_of "[]")
     = (CloudEvent_zero,
        Some (Errorf "failed to parse cloud event" (UnmarshalTypeError ""))).
Proof.
  destruct (ParseCloudEvent_missing_fields only_id) as (_ & _ & _ & Hobj & _).
  destruct (Hobj [(bytes_of "id", [x22] ++ bytes_of "abc" ++ [x22],
                   JStr (bytes_of "abc"))] ltac:(by vm_compute))
    as (Hacc & Habs & _).
  assert (Hok : (ParseCloudEvent only_id).2 = None).
  { apply Hacc. repeat constructor. }
  split; [exact Hok|]. split; [|split; [|split; [|split; [|split]]]].
  - apply (Habs FSource); [|exact Hok]. repeat constructor. by vm_compute.
  - apply (Habs FData); [|exact Hok]. repeat constructor. by vm_compute.
  - destruct (ParseCloudEvent_missing_fields (bytes_of "{"))
      as (_ & Hbad & _).
    apply Hbad. by vm_compute.
  - destruct (ParseCloudEvent_missing_fields id_number)
      as (_ & _ & _ & Hnum & _).
    destruct (Hnum [(bytes_of "id", bytes_of "7", JNum (bytes_of "7"))]
                ltac:(by vm_compute)) as (_ & _ & Hkind & _).
    apply Hkind. constructor. by vm_compute.
  - destruct (ParseCloudEvent_missing_fields time_number)
      as (_ & _ & _ & Hnum & _).
    destruct (Hnum [(bytes_of "time", bytes_of "7", JNum (bytes_of "7"))]
                ltac:(by vm_compute)) as (_ & _ & _ & Htime).
    apply Htime. constructor. split; [by vm_compute|].
    intros t0. by vm_compute.
  - destruct (ParseCloudEvent_missing_fields (bytes_of "[]"))
      as (_ & _ & _ & _ & Hkind).
    apply (Hkind (JArr [])); [by vm_compute|done|done].
Defined.

End Examples.

End decode_facts.

Module envelope_facts.
Import Init.Byte.
Import json kafka json_facts decode_facts.
Local Open Scope N_scope.

(** ** Plain quoted texts *)

Lemma htmlSafe_ascii b : htmlSafe b = true -> cc b < 0x80 /\ escape_ascii b = [b].
Proof.
  intros H. split; [|unfold escape_ascii; by rewrite H].
  unfold htmlSafe in H. to_prop_in H. lia.
Qed.

Lemma escape_plain body :
  forallb htmlSafe body = true ->
  escape 0 body = body /\ Valid body = true.
Proof.
  unfold Valid. induction body as [|b body IH]; intros H; [done|].
  cbn in H. apply andb_true_iff in H. destruct H as [Hb Hbody].
  destruct (htmlSafe_ascii b Hb) as [Hlt Hesc]. destruct (IH Hbody) as [IH1 IH2].
  cbn [escape Valid_from].
  assert ((cc b <? 0x80) = true) as -> by solve_bool.
  by rewrite Hesc, IH1, IH2.
Qed.

Lemma bytes_of_string_of b : bytes_of (string_of b) = b.
Proof. apply String.list_byte_of_string_of_list_byte. Qed.

Lemma plain_quoted body :
  forallb htmlSafe body = true ->
  [x22] ++ body ++ [x22] = appendString (string_of body)
  /\ Valid (bytes_of (string_of body)) = true.
Proof.
  intros H. destruct (escape_plain body H) as [He Hv].
  unfold appendString. by rewrite bytes_of_string_of, He.
Qed.

Lemma compact_appendString s :
  Valid (bytes_of s) = true -> compact (appendString s) = Ok (appendString s).
Proof.
  intros Hv. unfold compact, checkValid.
  rewrite (parse_top_parses _ _ _ _ (parses_string s Hv));
    [|unfold fuel_for; lia|done].
  pose proof (stable_string s Hv []) as Hs. rewrite app_nil_r in Hs.
  rewrite Hs. cbn [compact_from]. by rewrite app_nil_r.
Qed.

Section Envelope.
Context {TC : TimeCodec} {laws : TimeCodecLaws TC}.

(** The members of the object an event is written as: key, text and
    syntax of each field; [ts] is the text of the time between its
    quotes. *)
Definition event_members (e : CloudEvent) (ts : string) (v : value)
  : list (string * bytes * syntax) :=
  [("id", appendString (ID e), JStr (bytes_of (ID e)));
   ("source", appendString (Source e), JStr (bytes_of (Source e)));
   ("type", appendString (Type_ e), JStr (bytes_of (Type_ e)));
   ("time", appendString ts, JStr (bytes_of ts));
   ("datacontenttype", appendString (DataContentType e),
    JStr (bytes_of (DataContentType e)));
   ("data", encode v, syn v)].

Definition event_text (e : CloudEvent) (ts : string) (v : value) : bytes :=
  [x7b] ++ join_members (event_members e ts v) ++ [x7d].

Definition wf_event (e : CloudEvent) : Prop :=
  Valid (bytes_of (ID e)) = true /\ Valid (bytes_of (Source e)) = true
  /\ Valid (bytes_of (Type_ e)) = true
  /\ Valid (bytes_of (DataContentType e)) = true.

Lemma Time_text t b :
  Time_MarshalJSON t = Ok b ->
  exists ts, b = appendString ts /\ Valid (bytes_of ts) = true.
Proof.
  intros H. destruct (time_text t b H) as (body & -> & Hplain).
  exists (string_of body). by apply plain_quoted.
Qed.

Lemma Marshal_CloudEvent_text e ts v :
  Time_MarshalJSON (Time_ e) = Ok (appendString ts) ->
  Valid (bytes_of ts) = true ->
  Data e = Some (encode v) ->
  wf_value v = true -> vdepth v <= maxNestingDepth ->
  Marshal_CloudEvent e = Ok (event_text e ts v).
Proof.
  intros Ht Hts Hdata Hwf Hd. unfold Marshal_CloudEvent.
  rewrite Ht, compact_appendString, Hdata, compact_encode by done.
  f_equal. unfold event_text, event_members, join_members, key_text.
  cbn [field_name]. rewrite <- !app_assoc. reflexivity.
Qed.

Lemma event_members_ok e ts v :
  wf_event e -> Valid (bytes_of ts) = true -> wf_value v = true ->
  Forall (member_ok (fuel_of v) (vdepth v)) (event_members e ts v).
Proof.
  intros (Hid & Hsrc & Hty & Hct) Hts Hwf.
  assert (Hstr : forall s, Valid (bytes_of s) = true ->
            parses (appendString s) (JStr (bytes_of s)) (fuel_of v) (vdepth v)).
  { intros s Hs. eapply parses_weaken; [by apply parses_string| |lia].
    destruct v; cbn; lia. }
  unfold event_members.
  repeat apply List.Forall_cons; try apply List.Forall_nil;
    (split; [by vm_compute|cbn [fst snd]]); auto.
  by apply parses_encode.
Qed.

Lemma event_text_length e ts v :
  (length (encode v) + 3 <= length (event_text e ts v))%nat.
Proof.
  unfold event_text, event_members, join_members.
  rewrite !length_app. cbn [length]. lia.
Qed.

Lemma parse_top_event e ts v :
  wf_event e -> Valid (bytes_of ts) = true -> wf_value v = true ->
  1 + vdepth v <= maxNestingDepth ->
  parse_top (event_text e ts v)
  = Some (JObj (map member_syntax (event_members e ts v))).
Proof.
  intros He Hts Hwf Hd.
  eapply parse_top_parses.
  - apply parses_object. by apply event_members_ok.
  - pose proof (event_text_length e ts v).
    pose proof (fuel_of_length v Hwf).
    unfold fuel_for. cbn [length event_members]. lia.
  - done.
Qed.

Lemma find_field_names :
  find_field (bytes_of "id") = Some FID
  /\ find_field (bytes_of "source") = Some FSource
  /\ find_field (bytes_of "type") = Some FType
  /\ find_field (bytes_of "time") = Some FTime
  /\ find_field (bytes_of "datacontenttype") = Some FDataContentType
  /\ find_field (bytes_of "data") = Some FData.
Proof. by vm_compute. Qed.

Lemma decode_event e ts v now :
  Time_UnmarshalJSON (appendString ts) Time_zero = Ok now ->
  decode_members (map member_syntax (event_members e ts v)) CloudEvent_zero None
  = Ok {| ID := ID e; Source := Source e; Type_ := Type_ e; Time_ := now;
          DataContentType := DataContentType e; Data := Some (encode v) |}.
Proof.
  intros Ht. destruct find_field_names as (F1 & F2 & F3 & F4 & F5 & F6).
  unfold event_members, member_syntax. cbn [map fst snd].
  rewrite decode_members_cons, F1.
  rewrite decode_members_cons, F2.
  rewrite decode_members_cons, F3.
  rewrite decode_members_cons, F4.
  cbn [set_string Time_ CloudEvent_zero]. rewrite Ht.
  rewrite decode_members_cons, F5.
  rewrite decode_members_cons, F6.
  cbn [decode_members set_string set_Time set_Data ID Source Type_ Time_
       DataContentType Data CloudEvent_zero].
  by rewrite !string_of_bytes_of.
Qed.

End Envelope.

(** C4 (amended).  For an identifier, a source and a type in valid UTF-8,
    data that is well formed (integers within [int64], strings and keys in
    valid UTF-8, maps in the order of their keys, nothing [Marshal]
    refuses) and nested less deep than the decoder allows, and a time
    [Time] can print: [NewCloudEvent] and [json.Marshal] succeed, and
    [ParseCloudEvent] returns the envelope as it was, source and type
    included.  What [ParseData] recovers depends on its target: a variable
    of type [target] receives the image of the data in that type, or the
    call fails with an [UnmarshalTypeError] where there is none; a target
    of a type built from [bool], [int64], [string], slices and maps, each
    part of the data being of the kind the type asks for, receives the
    data part for part; an [interface{}] receives every integer as a
    [float64], which is the same number as long as the integers of the
    data are at most [2^53] in size. *)
Theorem envelope_roundtrip {TC : TimeCodec} {laws : TimeCodecLaws TC}
    (id : string) (now : Time) (source eventType : string) (data : value) :
  Valid (bytes_of id) = true ->
  Valid (bytes_of source) = true ->
  Valid (bytes_of eventType) = true ->
  wf_value data = true ->
  1 + vdepth data <= maxNestingDepth ->
  is_Ok (Time_MarshalJSON now) ->
  exists event wire,
    NewCloudEvent id now source eventType data = (event, None)
    /\ Marshal_CloudEvent event = Ok wire
    /\ ParseCloudEvent wire = (event, None)
    /\ Source (ParseCloudEvent wire).1 = source
    /\ Type_ (ParseCloudEvent wire).1 = eventType
    /\ (forall target,
          ParseData (ParseCloudEvent wire).1 target
          = match image target data with
            | Some h => Ok h
            | None => Error (UnmarshalTypeError "")
            end)
    /\ (forall target,
          has_type target data = true ->
          ParseData (ParseCloudEvent wire).1 target = Ok (held_of data))
    /\ (small_ints data = true ->
          exists h,
            ParseData (ParseCloudEvent wire).1 TAny = Ok h /\ agrees data h).
Proof.
  intros Hid Hsrc Hty Hwf Hd Hnow.
  destruct (Time_MarshalJSON now) as [tb|] eqn:Htb; [|done].
  destruct (Time_text now tb Htb) as (ts & -> & Hts).
  set (event := {| ID := id; Source := source; Type_ := eventType;
                   Time_ := now; DataContentType := "application/json";
                   Data := Some (encode data) |}).
  assert (Hev : wf_event event) by (by repeat split).
  exists event, (event_text event ts data).
  assert (Hnew : NewCloudEvent id now source eventType data = (event, None)).
  { unfold NewCloudEvent, Marshal. by rewrite wf_serializable. }
  assert (Hwire : Marshal_CloudEvent event = Ok (event_text event ts data)).
  { apply Marshal_CloudEvent_text; try done. lia. }
  assert (Hparse : ParseCloudEvent (event_text event ts data) = (event, None)).
  { unfold ParseCloudEvent, Unmarshal_CloudEvent.
    rewrite parse_top_event by done.
    rewrite (decode_event event ts data now); [done|].
    by apply time_roundtrip. }
  assert (Hdata : forall target,
            ParseData event target
            = match image target data with
              | Some h => Ok h
              | None => Error (UnmarshalTypeError "")
              end).
  { intros target. unfold ParseData. cbn [Data event].
    apply Unmarshal_encode; [done|lia]. }
  rewrite Hparse. cbn [fst].
  split; [done|]. split; [done|]. split; [done|]. split; [done|].
  split; [done|]. split; [done|]. split.
  - intros target Htarget. by rewrite Hdata, image_typed.
  - intros Hsmall.
    destruct (image_any data (wf_serializable data Hwf) Hsmall)
      as (h & Hh & Hag).
    exists h. by rewrite Hdata, Hh.
Qed.

Section Examples.
Local Existing Instance civil.codec.

Definition order_time : civil.t :=
  {| civil.year := 2026; civil.month := 10; civil.day := 30;
     civil.hour := 19; civil.minute := 44; civil.second := 1 |}.

Definition order_data : value :=
  VMap [("items", VSlice [VInt 2; VInt (-7); VBool true; VNil]);
        ("orderId", VString "123")].

(** What an [interface{}] receives for [order_data]: [2] and [-7] as
    [float64] numbers. *)
Definition order_held : held :=
  HMap [("items",
         HSlice [HFloat (FFinite false (2 ^ 52) (- 51));
                 HFloat (FFinite true (7 * 2 ^ 50) (- 50));
                 HBool true; HNil]);
        ("orderId", HString "123")].

Lemma envelope_roundtrip_witness :
  exists event wire,
    NewCloudEvent "6ba7b810-9dad-11d1-80b4-00c04fd430c8" order_time
      "order-service" "order.created" order_data = (event, None)
    /\ Marshal_CloudEvent event = Ok wire
    /\ ParseCloudEvent wire = (event, None)
    /\ Source (ParseCloudEvent wire).1 = "order-service"
    /\ Type_ (ParseCloudEvent wire).1 = "order.created"
    /\ ParseData (ParseCloudEvent wire).1 TAny = Ok order_held
    /\ ParseData (ParseCloudEvent wire).1 (TMap TString)
       = Error (UnmarshalTypeError "")
    /\ (exists h,
          ParseData (ParseCloudEvent wire).1 TAny = Ok h
          /\ agrees order_data h).
Proof.
  destruct (@envelope_roundtrip civil.codec civil_facts.codec_laws
              "6ba7b810-9dad-11d1-80b4-00c04fd430c8" order_time
              "order-service" "order.created" order_data)
    as (event & wire & Hnew & Hwire & Hparse & Hsrc & Hty & Himg & _ & Hany).
  - by vm_compute.
  - by vm_compute.
  - by vm_compute.
  - by vm_compute.
  - vm_compute. discriminate.
  - vm_compute. exact I.
  - exists event, wire.
    split; [exact Hnew|]. split; [exact Hwire|]. split; [exact Hparse|].
    split; [exact Hsrc|]. split; [exact Hty|].
    split; [|split].
    + rewrite Himg. by vm_compute.
    + rewrite Himg. by vm_compute.
    + apply Hany. by vm_compute.
Defined.

(** Data of one type, and the envelope read into a variable of that
    type. *)
Definition stock : value :=
  VMap [("apples", VSlice [VInt 9007199254740993; VInt (-1)]);
        ("pears", VNil)].

(** The law fails for inputs that are serializable.  A source that is not
    valid UTF-8 is accepted all the way and comes back changed.  An integer
    above [2^53] inside data of mixed kinds, which only an [interface{}]
    can receive, comes back as the [float64] next to it: [2^53 + 1] as
    [2^53]. *)
Lemma envelope_roundtrip_counterexample :
  (exists event wire,
     NewCloudEvent "id" order_time (string_of [xff]) "t" VNil = (event, None)
     /\ Marshal_CloudEvent event = Ok wire
     /\ (ParseCloudEvent wire).2 = None
     /\ Source (ParseCloudEvent wire).1 = string_of [xef; xbf; xbd]
     /\ Source (ParseCloudEvent wire).1 <> string_of [xff])
  /\ (exists event wire,
        NewCloudEvent "id" order_time "s" "t"
          (VSlice [VInt 9007199254740993; VString "a"]) = (event, None)
        /\ Marshal_CloudEvent event = Ok wire
        /\ ParseCloudEvent wire = (event, None)
        /\ ParseData (ParseCloudEvent wire).1 TAny
           = Ok (HSlice [HFloat (FFinite false (2 ^ 52) 1); HString "a"])
        /\ ~ float_is (FFinite false (2 ^ 52) 1) 9007199254740993
        /\ (forall target h,
              ParseData (ParseCloudEvent wire).1 target = Ok h ->
              h <> held_of (VSlice [VInt 9007199254740993; VString "a"]))).
Proof.
  split.
  - eexists. eexists. split; [by vm_compute|].
    split; [by vm_compute|]. split; [by vm_compute|].
    split; by vm_compute.
  - eexists. eexists. split; [by vm_compute|].
    split; [by vm_compute|]. split; [by vm_compute|].
    split; [by vm_compute|]. split; [by vm_compute|].
    intros target h Hdata ->. revert Hdata.
    destruct target as [| | | | |t|t]; try (by vm_compute).
    destruct t; by vm_compute.
Qed.

(** A source that is not valid UTF-8 is not reproduced: the encoder
    writes U+FFFD for the offending byte. *)
Example invalid_source_changed :
  let source := string_of [xff] in
  let event := (NewCloudEvent "id" order_time source "t" VNil).1 in
  exists wire,
    Marshal_CloudEvent event = Ok wire
    /\ Source (ParseCloudEvent wire).1 = string_of [xef; xbf; xbd].
Proof.
  intros source event.
  destruct (Marshal_CloudEvent event) as [wire|] eqn:Hwire;
    [|by vm_compute in Hwire].
  exists wire. split; [done|].
  vm_compute in Hwire. injection Hwire as <-. by vm_compute.
Qed.

End Examples.

End envelope_facts.

Module response_facts.
Import response.

Lemma wrap_int_id z : in_int z -> wrap_int z = z.
Proof.
  unfold in_int, int_min, int_max, wrap_int. intros H.
  rewrite Z.mod_small; lia.
Qed.

Lemma ceil_div_spec a b p :
  0 < b -> (ceil_div a b = p <-> b * (p - 1) < a <= b * p).
Proof.
  intros Hb. unfold ceil_div.
  pose proof (Z.div_mod (- a) b ltac:(lia)) as Hdm.
  pose proof (Z.mod_pos_bound (- a) b Hb) as Hm.
  split; intros H; nia.
Qed.

Lemma quot_rem_bounds a b :
  0 < b ->
  a = b * Z.quot a b + Z.rem a b /\ Z.abs (Z.rem a b) < b
  /\ (0 <= a -> 0 <= Z.rem a b) /\ (a <= 0 -> Z.rem a b <= 0).
Proof.
  intros Hb. split; [apply Z.quot_rem'|]. split; [|split].
  - pose proof (Z.rem_bound_abs a b ltac:(lia)). lia.
  - intros. apply Z.rem_nonneg; lia.
  - intros. apply Z.rem_nonpos; lia.
Qed.

Lemma quot_rem_ceil total limit :
  0 < limit ->
  (if 0 <? Z.rem total limit then Z.quot total limit + 1 else Z.quot total limit)
  = ceil_div total limit.
Proof.
  intros Hl. symmetry. apply ceil_div_spec; [done|].
  destruct (quot_rem_bounds total limit Hl) as (Hqr & Habs & Hpos & Hneg).
  destruct (Z.ltb_spec 0 (Z.rem total limit)) as [Hr|Hr]; lia.
Qed.

Lemma quot_in_int total limit :
  in_int total -> 0 < limit -> in_int (Z.quot total limit)
  /\ in_int (ceil_div total limit).
Proof.
  unfold in_int, int_min, int_max. intros Ht Hl.
  destruct (quot_rem_bounds total limit Hl) as (Hqr & Habs & Hpos & Hneg).
  assert (Hc : ceil_div total limit = ceil_div total limit) by done.
  apply ceil_div_spec in Hc; [|done].
  set (p := ceil_div total limit) in *.
  set (q := Z.quot total limit) in *.
  split; destruct (Z.le_gt_cases total 0); nia.
Qed.

(** C10. With [limit > 0] the reported [total_pages] is the ceiling of
    [total / limit], together with the echoed [total], [page] and [limit];
    the division is unguarded: with [limit = 0] the helper panics and writes
    nothing, and any [limit <> 0] is safe. *)
Theorem Paginated_total_pages {Data : Type} (d : Data) (total page limit : Z) :
  in_int total -> in_int limit ->
  (0 < limit ->
     exists b, Paginated d total page limit = Some b
       /\ pg_total_pages (pagination b) = ceil_div total limit
       /\ limit * (pg_total_pages (pagination b) - 1) < total
            <= limit * pg_total_pages (pagination b)
       /\ pg_total (pagination b) = total
       /\ pg_page (pagination b) = page
       /\ pg_limit (pagination b) = limit
       /\ data b = d /\ status b = 200 /\ success b = true)
  /\ (limit = 0 -> Paginated d total page limit = None)
  /\ (limit <> 0 -> is_Some (Paginated d total page limit)).
Proof.
  intros Ht Hlim. split; [|split].
  - intros Hl. unfold Paginated, int_quo, int_rem.
    destruct (Z.eqb_spec limit 0) as [->|_]; [lia|].
    destruct (quot_in_int total limit Ht Hl) as [Hq Hc].
    rewrite (wrap_int_id _ Hq).
    eexists. split; [reflexivity|]. cbn.
    assert (Hpages :
      (if 0 <? Z.rem total limit
       then wrap_int (Z.quot total limit + 1) else Z.quot total limit)
      = ceil_div total limit).
    { rewrite <- (quot_rem_ceil total limit Hl).
      destruct (0 <? Z.rem total limit) eqn:E; [|done].
      apply wrap_int_id. rewrite <- (quot_rem_ceil total limit Hl) in Hc.
      by rewrite E in Hc. }
    rewrite Hpages. split; [done|]. split; [|done].
    by apply ceil_div_spec.
  - intros ->. reflexivity.
  - intros Hne. unfold Paginated, int_quo, int_rem.
    destruct (Z.eqb_spec limit 0); [done|]. by eexists.
Qed.

Lemma Paginated_total_pages_witness :
  exists b, Paginated tt 7 1 3 = Some b
    /\ pg_total_pages (pagination b) = 3.
Proof.
  destruct (Paginated_total_pages tt 7 1 3) as [H _];
    [unfold in_int, int_min, int_max; lia
    |unfold in_int, int_min, int_max; lia|].
  destruct (H ltac:(lia)) as (b & Hb & Hp & _).
  exists b. split; [exact Hb|]. rewrite Hp. reflexivity.
Defined.

End response_facts.

Module consumer_facts.
Import kafka.

Section Loop.
Context {TC : TimeCodec} {W : Type} (c : ConsumerEnv W).

(** The shape of what one run of the loop leaves behind: a sequence of
    whole passes, the last of which may be the one that returns. *)
Inductive loop_trace : list Event -> Prop :=
  | lt_running : loop_trace []
  | lt_stopping : loop_trace [EvInfo "consumer stopping"]
  | lt_interrupted err : loop_trace [EvFetch (Error err)]
  | lt_fetch_failed err tr :
      loop_trace tr ->
      loop_trace (EvFetch (Error err)
                  :: EvError "failed to fetch message" err :: tr)
  | lt_handler_failed m e tr :
      loop_trace tr ->
      loop_trace (EvFetch (Ok m) :: EvHandle m (Some e)
                  :: EvError "failed to handle message" e :: tr)
  | lt_committed m tr :
      loop_trace tr ->
      loop_trace (EvFetch (Ok m) :: EvHandle m None :: EvCommit m None :: tr)
  | lt_commit_failed m e tr :
      loop_trace tr ->
      loop_trace (EvFetch (Ok m) :: EvHandle m None :: EvCommit m (Some e)
                  :: EvError "failed to commit message" e :: tr).

Lemma Consume_loop_trace fuel w :
  loop_trace (Consume_loop c fuel w).2.
Proof.
  revert w. induction fuel as [|n IH]; intros w; cbn; [constructor|].
  unfold iteration.
  destruct (ctx_Err c w) as [e|] eqn:Hctx; cbn; [constructor|].
  destruct (FetchMessage c w) as [[m|err] w1] eqn:Hf; cbn.
  - destruct (handler c m w1) as [[e|] w2] eqn:Hh; cbn.
    + specialize (IH w2). destruct (Consume_loop c n w2) as [[r w3] evs].
      cbn in *. by constructor.
    + destruct (CommitMessages c m w2) as [[e|] w3] eqn:Hc; cbn;
        specialize (IH w3); destruct (Consume_loop c n w3) as [[r w4] evs];
        cbn in *; by constructor.
  - destruct (ctx_Err c w1) as [e|] eqn:Hctx1; cbn; [constructor|].
    specialize (IH w1). destruct (Consume_loop c n w1) as [[r w2] evs].
    cbn in *. by constructor.
Qed.

Definition not_commit (tr : list Event) : Prop :=
  match tr with EvCommit _ _ :: _ => False | _ => True end.

Lemma loop_trace_head tr : loop_trace tr -> not_commit tr.
Proof. by destruct 1. Qed.

(** Every commit in a loop trace directly follows the successful handling
    of the same message. *)
Lemma loop_trace_commit tr :
  loop_trace tr ->
  forall pre m r post,
    tr = pre ++ EvCommit m r :: post ->
    exists pre', pre = pre' ++ [EvHandle m None].
Proof.
  induction 1 as [| |err|err tr Htr IH|m0 e tr Htr IH|m0 tr Htr IH
                  |m0 e tr Htr IH]; intros pre m r post Heq.
  - by destruct pre.
  - destruct pre as [|? [|? ?]]; simplify_eq.
  - destruct pre as [|? [|? ?]]; simplify_eq.
  - destruct pre as [|? [|? pre]]; simplify_eq/=.
    destruct (IH _ _ _ _ eq_refl) as [pre' ->].
    by exists (EvFetch (Error err)
               :: EvError "failed to fetch message" err :: pre').
  - destruct pre as [|? [|? [|? pre]]]; simplify_eq/=.
    destruct (IH _ _ _ _ eq_refl) as [pre' ->].
    by exists (EvFetch (Ok m0) :: EvHandle m0 (Some e)
               :: EvError "failed to handle message" e :: pre').
  - destruct pre as [|? [|? [|? pre]]]; simplify_eq/=.
    + by exists [EvFetch (Ok m)].
    + destruct (IH _ _ _ _ eq_refl) as [pre' ->].
      by exists (EvFetch (Ok m0) :: EvHandle m0 None
                 :: EvCommit m0 None :: pre').
  - destruct pre as [|? [|? [|? [|? pre]]]]; simplify_eq/=.
    + by exists [EvFetch (Ok m)].
    + destruct (IH _ _ _ _ eq_refl) as [pre' ->].
      by exists (EvFetch (Ok m0) :: EvHandle m0 None
                 :: EvCommit m0 (Some e)
                 :: EvError "failed to commit message" e :: pre').
Qed.

(** After a failed handling comes its log entry and then the next pass
    (or nothing yet): never a commit. *)
Lemma loop_trace_failure tr :
  loop_trace tr ->
  forall pre m e post,
    tr = pre ++ EvHandle m (Some e) :: post ->
    exists post',
      post = EvError "failed to handle message" e :: post'
      /\ loop_trace post'.
Proof.
  induction 1 as [| |err|err tr Htr IH|m0 e0 tr Htr IH|m0 tr Htr IH
                  |m0 e0 tr Htr IH]; intros pre m e post Heq.
  - by destruct pre.
  - destruct pre as [|? [|? ?]]; simplify_eq.
  - destruct pre as [|? [|? ?]]; simplify_eq.
  - destruct pre as [|? [|? pre]]; simplify_eq/=. eauto.
  - destruct pre as [|? [|? [|? pre]]]; simplify_eq/=; eauto.
  - destruct pre as [|? [|? [|? pre]]]; simplify_eq/=. eauto.
  - destruct pre as [|? [|? [|? [|? pre]]]]; simplify_eq/=. eauto.
Qed.

Lemma iteration_handler_failed w m w1 e w2 :
  ctx_Err c w = None ->
  FetchMessage c w = (Ok m, w1) ->
  handler c m w1 = (Some e, w2) ->
  iteration c w
  = (Continue, w2,
     [EvFetch (Ok m); EvHandle m (Some e);
      EvError "failed to handle message" e]).
Proof. intros Hctx Hf Hh. unfold iteration. by rewrite Hctx, Hf, Hh. Qed.

Lemma Consume_events fuel w :
  (Consume c fuel w).2 = EvInfo "starting consumer" :: (Consume_loop c fuel w).2.
Proof. unfold Consume. by destruct (Consume_loop c fuel w) as [[? ?] ?]. Qed.

(** Once the loop has returned, more fuel changes nothing. *)
Lemma Consume_loop_stable fuel w r w' tr :
  Consume_loop c fuel w = (Some r, w', tr) ->
  forall fuel', (fuel <= fuel')%nat ->
  Consume_loop c fuel' w = (Some r, w', tr).
Proof.
  revert w tr. induction fuel as [|n IH]; intros w tr Hrun fuel' Hle;
    [done|].
  destruct fuel' as [|n']; [lia|]. cbn in *.
  destruct (iteration c w) as [[[|e] w1] evs]; [|done].
  destruct (Consume_loop c n w1) as [[r1 w2] evs1] eqn:Hn.
  simplify_eq. by rewrite (IH _ _ Hn n') by lia.
Qed.

(** The loop returns nothing but the reason of the context. *)
Lemma Consume_loop_result fuel w r w' tr :
  Consume_loop c fuel w = (Some r, w', tr) ->
  is_Some r /\ r = ctx_Err c w'.
Proof.
  revert w tr. induction fuel as [|n IH]; intros w tr Hrun; [done|].
  cbn in Hrun. unfold iteration in Hrun.
  destruct (ctx_Err c w) as [e|] eqn:Hctx.
  { simplify_eq. by rewrite Hctx. }
  destruct (FetchMessage c w) as [[m|err] w1].
  - destruct (handler c m w1) as [[e|] w2].
    + destruct (Consume_loop c n w2) as [[r1 w3] evs1] eqn:Hn.
      simplify_eq. eauto.
    + destruct (CommitMessages c m w2) as [cr w3].
      destruct (Consume_loop c n w3) as [[r1 w4] evs1] eqn:Hn.
      simplify_eq. eauto.
  - destruct (ctx_Err c w1) as [e|] eqn:Hctx1.
    { simplify_eq. by rewrite Hctx1. }
    destruct (Consume_loop c n w1) as [[r1 w3] evs1] eqn:Hn.
    simplify_eq. eauto.
Qed.

End Loop.

(** C1. In every run of the consume loop a commit call is made only right
    after the handler has returned success for the same message; when the
    handler returns an error, that pass makes no commit call (the world is
    the one the handler left) and the loop continues, the log entry being
    followed by the next pass. *)
Theorem commit_only_after_success {TC : TimeCodec} {W : Type}
    (c : ConsumerEnv W) (fuel : nat) (w : W) :
  (forall pre m r post,
      (Consume c fuel w).2 = pre ++ EvCommit m r :: post ->
      exists pre', pre = pre' ++ [EvHandle m None])
  /\ (forall pre m e post,
      (Consume c fuel w).2 = pre ++ EvHandle m (Some e) :: post ->
      exists post',
        post = EvError "failed to handle message" e :: post'
        /\ not_commit post')
  /\ (forall w0 m w1 e w2,
      ctx_Err c w0 = None ->
      FetchMessage c w0 = (Ok m, w1) ->
      handler c m w1 = (Some e, w2) ->
      iteration c w0
      = (Continue, w2,
         [EvFetch (Ok m); EvHandle m (Some e);
          EvError "failed to handle message" e])).
Proof.
  pose proof (Consume_loop_trace c fuel w) as Htr.
  rewrite Consume_events. split; [|split].
  - intros pre m r post Heq. destruct pre as [|ev pre]; [done|].
    simplify_eq/=.
    destruct (loop_trace_commit _ Htr _ _ _ _ H0) as [pre' ->].
    by exists (EvInfo "starting consumer" :: pre').
  - intros pre m e post Heq. destruct pre as [|ev pre]; [done|].
    simplify_eq/=.
    destruct (loop_trace_failure _ Htr _ _ _ _ H0) as (post' & -> & Hp).
    eauto using loop_trace_head.
  - apply iteration_handler_failed.
Qed.

(** C7. When a fetch fails and the context is cancelled by then, the loop
    returns the reason of the context, not the fetch error, and what it has
    done ends with that fetch whatever fuel is left; when the context is not
    cancelled the error is logged and the loop goes on.  Whenever the loop
    returns, it returns the reason of the context, and it stays returned. *)
Theorem cancel_mid_fetch {TC : TimeCodec} {W : Type}
    (c : ConsumerEnv W) (w : W) (err : error) (w1 : W) :
  ctx_Err c w = None ->
  FetchMessage c w = (Error err, w1) ->
  (forall e n,
      ctx_Err c w1 = Some e ->
      Consume_loop c (S n) w = (Some (Some e), w1, [EvFetch (Error err)]))
  /\ (forall n,
      ctx_Err c w1 = None ->
      Consume_loop c (S n) w
      = (let '(r, w2, evs) := Consume_loop c n w1 in
         (r, w2,
          EvFetch (Error err)
          :: EvError "failed to fetch message" err :: evs)))
  /\ (forall fuel w0 r w' tr,
      Consume_loop c fuel w0 = (Some r, w', tr) ->
      is_Some r /\ r = ctx_Err c w'
      /\ forall fuel', (fuel <= fuel')%nat ->
           Consume_loop c fuel' w0 = (Some r, w', tr)).
Proof.
  intros Hctx Hf. split; [|split].
  - intros e n Hc. cbn. unfold iteration. by rewrite Hctx, Hf, Hc.
  - intros n Hc. cbn. unfold iteration. rewrite Hctx, Hf, Hc.
    by destruct (Consume_loop c n w1) as [[? ?] ?].
  - intros fuel w0 r w' tr Hrun.
    destruct (Consume_loop_result c _ _ _ _ _ Hrun) as [? ?].
    eauto using Consume_loop_stable.
Qed.

Section Examples.
Local Existing Instance civil.codec.

Definition order_msg : Message :=
  {| Topic := "orders"; Partition := 0; Offset := 7;
     Key := bytes_of "123"; Value := bytes_of "{}";
     MsgTime := civil.zero |}.

(** The handler fails on the first delivery and succeeds on the second;
    the fetch after that is interrupted by cancellation. *)
Definition redelivery : Sim :=
  {| pending := [Ok order_msg; Ok order_msg]; interrupt := [];
     cancelled := None; attempts := 0; failing := [0%nat];
     committed := [] |}.

(** The session breaks once while the context is live, then the context is
    cancelled while the next fetch blocks. *)
Definition flaky : Sim :=
  {| pending := [Error (External "EOF"); Error (External "EOF")];
     interrupt := [false; true];
     cancelled := None; attempts := 0; failing := [];
     committed := [] |}.

(** The scenario of the design document: one commit, for the second
    attempt, and the loop returns the cancellation reason. *)
Example redelivery_run :
  Consume sim 5 redelivery
  = (Some (Some Canceled),
     {| pending := []; interrupt := []; cancelled := Some Canceled;
        attempts := 2; failing := [0%nat]; committed := [order_msg] |},
     [EvInfo "starting consumer";
      EvFetch (Ok order_msg);
      EvHandle order_msg (Some (External "handler failed"));
      EvError "failed to handle message" (External "handler failed");
      EvFetch (Ok order_msg);
      EvHandle order_msg None;
      EvCommit order_msg None;
      EvFetch (Error Canceled)]).
Proof. reflexivity. Qed.

Lemma commit_only_after_success_witness :
  (exists pre',
      [EvInfo "starting consumer";
       EvFetch (Ok order_msg);
       EvHandle order_msg (Some (External "handler failed"));
       EvError "failed to handle message" (External "handler failed");
       EvFetch (Ok order_msg);
       EvHandle order_msg None]
      = pre' ++ [EvHandle order_msg None])
  /\ iteration sim redelivery
     = (Continue,
        {| pending := [Ok order_msg]; interrupt := [];
           cancelled := None; attempts := 1; failing := [0%nat];
           committed := [] |},
        [EvFetch (Ok order_msg);
         EvHandle order_msg (Some (External "handler failed"));
         EvError "failed to handle message" (External "handler failed")]).
Proof.
  destruct (commit_only_after_success sim 5 redelivery) as (Hc & _ & Hi).
  split.
  - exact (Hc [EvInfo "starting consumer";
               EvFetch (Ok order_msg);
               EvHandle order_msg (Some (External "handler failed"));
               EvError "failed to handle message" (External "handler failed");
               EvFetch (Ok order_msg);
               EvHandle order_msg None]
              order_msg None [EvFetch (Error Canceled)] eq_refl).
  - exact (Hi redelivery order_msg _ _ _ eq_refl eq_refl eq_refl).
Defined.

Lemma cancel_mid_fetch_witness :
  Consume_loop sim 1 flaky
  = (let '(r, w2, evs) := Consume_loop sim 0 (sim_fetch flaky).2 in
     (r, w2,
      EvFetch (Error (External "EOF"))
      :: EvError "failed to fetch message" (External "EOF") :: evs))
  /\ forall n,
      Consume_loop sim (S n) (sim_fetch flaky).2
      = (Some (Some Canceled), (sim_fetch (sim_fetch flaky).2).2,
         [EvFetch (Error (External "EOF"))]).
Proof.
  split.
  - destruct (cancel_mid_fetch sim flaky (External "EOF") (sim_fetch flaky).2
                eq_refl eq_refl) as (_ & H & _).
    exact (H 0%nat eq_refl).
  - intros n.
    destruct (cancel_mid_fetch sim (sim_fetch flaky).2 (External "EOF")
                (sim_fetch (sim_fetch flaky).2).2 eq_refl eq_refl)
      as (H & _ & _).
    exact (H Canceled n eq_refl).
Defined.

End Examples.

End consumer_facts.

Module producer_facts.
Import kafka.

Section Producer.
Context {TC : TimeCodec} {W : Type} (env : ProducerEnv W).

Lemma getWriter_cached topic (p : Producer W) w :
  writers p !! topic = Some w -> getWriter topic p = (w, p).
Proof. intros H. unfold getWriter. by rewrite H. Qed.

Lemma getWriter_entry topic (p : Producer W) :
  writers (getWriter topic p).2 !! topic = Some (getWriter topic p).1.
Proof.
  unfold getWriter. destruct (writers p !! topic) as [w|] eqn:H; cbn; [done|].
  by rewrite lookup_insert_eq.
Qed.

Lemma getWriter_keeps topic (p : Producer W) t w :
  writers p !! t = Some w -> writers (getWriter topic p).2 !! t = Some w.
Proof.
  intros H. unfold getWriter.
  destruct (writers p !! topic) as [w'|] eqn:Ht; cbn; [done|].
  rewrite lookup_insert_ne; [done|]. intros ->. congruence.
Qed.

(** What a call of [Publish] that reaches the writer leaves behind. *)
Lemma Publish_reaches topic key payload (p : Producer W) data :
  Marshal_payload payload = Ok data ->
  exists r w l,
    Publish env topic key payload p
    = (r, with_log l (with_world w (getWriter topic p).2)).
Proof.
  intros Hm. unfold Publish. rewrite Hm.
  destruct (getWriter topic p) as [writer p1]. cbn.
  destruct (Now env (world p1)) as [now w1].
  destruct (WriteMessages env writer _ w1) as [[err|] w2]; eauto.
Qed.







End Producer.


(** C9. A payload whose serialization fails makes [Publish] return the
    wrapped serialization error with the producer exactly as it was: map,
    writers, log and world (nothing sent) untouched. *)
Theorem Publish_marshal_error {TC : TimeCodec} {W : Type}
    (env : ProducerEnv W) (topic key : string) (payload : Payload)
    (p : Producer W) (err : error) :
  Marshal_payload payload = Error err ->
  Publish env topic key payload p
  = (Some (Errorf "failed to marshal payload" err), p)
  /\ Unwrap (Errorf "failed to marshal payload" err) = Some err.
Proof. intros Hm. unfold Publish. by rewrite Hm. Qed.

(** C8. [PublishEvent] is [Publish] under the identifier of the envelope
    with the envelope as payload: the same result and the same producer
    afterwards, as the design document words [PublishEnvelope]. *)
Theorem PublishEvent_is_Publish {TC : TimeCodec} {W : Type}
    (env : ProducerEnv W) (topic : string) (event : CloudEvent)
    (p : Producer W) :
  PublishEvent env topic event p = PublishEnvelope_spec env topic event p
  /\ PublishEvent env topic event p
     = Publish env topic (ID event) (PEvent event) p.
Proof. split; reflexivity. Qed.

(** C6. When the broker write fails, [Publish] returns an error that
    wraps the transport error; the map is the one [getWriter] left (the
    map before the call when the topic was already in it), no entry is
    removed, the entry of the topic is there, and the next [getWriter] for
    the topic returns the same writer without creating one. *)
Theorem Publish_write_error {TC : TimeCodec} {W : Type}
    (env : ProducerEnv W) (topic key : string) (payload : Payload)
    (p : Producer W) (data : bytes) (err : error) :
  Marshal_payload payload = Ok data ->
  let writer := (getWriter topic p).1 in
  let p1 := (getWriter topic p).2 in
  let now := (Now env (world p1)).1 in
  let w1 := (Now env (world p1)).2 in
  let msg := {| Topic := ""; Partition := 0; Offset := 0;
                Key := bytes_of key; Value := data; MsgTime := now |} in
  (WriteMessages env writer msg w1).1 = Some err ->
  exists p',
    Publish env topic key payload p
    = (Some (Errorf ("failed to publish to " +:+ topic) err), p')
    /\ Unwrap (Errorf ("failed to publish to " +:+ topic) err) = Some err
    /\ writers p' = writers p1
    /\ objects p' = objects p1
    /\ (forall w, writers p !! topic = Some w -> writers p' = writers p)
    /\ (forall t w, writers p !! t = Some w -> writers p' !! t = Some w)
    /\ writers p' !! topic = Some writer
    /\ getWriter topic p' = (writer, p').
Proof.
  intros Hm writer p1 now w1 msg Hw.
  unfold Publish. rewrite Hm.
  subst writer p1 now w1 msg.
  pose proof (getWriter_entry topic p) as Hentry.
  pose proof (getWriter_keeps topic p) as Hkeeps.
  pose proof (getWriter_cached topic p) as Hcached.
  destruct (getWriter topic p) as [writer p1]. cbn in *.
  destruct (Now env (world p1)) as [now w1]. cbn in *.
  destruct (WriteMessages env writer _ w1) as [r w2]. cbn in Hw. subst r.
  eexists. split; [reflexivity|]. cbn.
  repeat split; try done.
  - intros w Hsome. specialize (Hcached _ Hsome). by simplify_eq.
  - apply getWriter_cached. done.
Qed.

Section Examples.
Local Existing Instance civil.codec.

Definition quiet : PSim :=
  {| clock := civil.zero; acks := []; delivered := [] |}.

Definition refusing : PSim :=
  {| clock := civil.zero;
     acks := [Some (External "connection refused")];
     delivered := [] |}.

Definition order : Payload :=
  PValue (json.VMap [("orderId", json.VString "123")]).

Definition unserializable : Payload := PValue (json.VSlice [json.VChan]).



Lemma Publish_marshal_error_witness :
  Publish psim "orders" "123" unserializable
    (NewProducer ["broker:9092"] quiet)
  = (Some (Errorf "failed to marshal payload" UnsupportedTypeError),
     NewProducer ["broker:9092"] quiet)
  /\ Unwrap (Errorf "failed to marshal payload" UnsupportedTypeError)
     = Some UnsupportedTypeError.
Proof.
  apply (Publish_marshal_error psim "orders" "123" unserializable).
  reflexivity.
Defined.

Lemma Publish_write_error_witness :
  exists p',
    Publish psim "orders" "123" order (NewProducer ["broker:9092"] refusing)
    = (Some (Errorf "failed to publish to orders"
               (External "connection refused")), p')
    /\ writers p' !! "orders" = Some 0%nat
    /\ getWriter "orders" p' = (0%nat, p').
Proof.
  destruct (Publish_write_error psim "orders" "123" order
              (NewProducer ["broker:9092"] refusing)
              (json.encode (json.VMap [("orderId", json.VString "123")]))
              (External "connection refused") eq_refl eq_refl)
    as (p' & Hp & _ & _ & _ & _ & _ & Hentry & Hnext).
  exists p'. split; [exact Hp|]. split; [exact Hentry|exact Hnext].
Defined.

End Examples.

End producer_facts.

Module concurrency_facts.
Import kafka.

Definition unreturned (c : Caller) : bool :=
  match c with Returned _ => false | _ => true end.

Definition pending (cs : list Caller) : nat :=
  length (filter (fun c => unreturned c = true) cs).

Lemma pending_insert cs i c c' :
  cs !! i = Some c ->
  (pending (<[i := c']> cs) + (if unreturned c then 1 else 0)
   = pending cs + (if unreturned c' then 1 else 0))%nat.
Proof.
  intros Hi. unfold pending.
  rewrite insert_take_drop by (by eapply lookup_lt_Some).
  rewrite <- (take_drop_middle cs i c Hi) at 3.
  rewrite !filter_app, !filter_cons, !length_app.
  destruct (unreturned c), (unreturned c'); repeat case_decide; try done;
    cbn; lia.
Qed.

Lemma pending_all_returned cs : all_returned cs -> pending cs = 0%nat.
Proof.
  unfold all_returned, pending. induction 1 as [|c cs Hc _ IH]; [done|].
  rewrite filter_cons. destruct c; first [done | by case_decide].
Qed.

Lemma created_for_snoc topic s o :
  length (filter (fun w => WTopic w = topic) (sh_objects s ++ [o]))
  = (sh_created_for topic s + (if decide (WTopic o = topic) then 1 else 0))%nat.
Proof.
  unfold sh_created_for. rewrite filter_app, length_app, filter_cons.
  by destruct (decide (WTopic o = topic)).
Qed.

(** A writer is created at most once per caller. *)
Lemma run_schedule_bound topic sched cs s :
  (sh_created_for topic (run_schedule sched cs s).2
   + pending (run_schedule sched cs s).1
   <= sh_created_for topic s + pending cs)%nat.
Proof.
  revert cs s. induction sched as [|i sched IH]; intros cs s; cbn; [done|].
  destruct (cs !! i) as [c|] eqn:Hi; [|apply IH].
  destruct (caller_step c s) as [c' s'] eqn:Hstep.
  etrans; [apply IH|].
  pose proof (pending_insert cs i c c' Hi) as Hp.
  destruct c as [t|t|w]; cbn in Hstep.
  - destruct (sh_writers s !! t); simplify_eq; cbn [unreturned] in Hp; lia.
  - simplify_eq. cbn [unreturned] in Hp. unfold sh_created_for at 1. cbn [sh_objects].
    rewrite created_for_snoc. cbn. destruct (decide (t = topic)); lia.
  - simplify_eq. cbn [unreturned] in Hp. lia.
Qed.

(** The callers of one topic on a producer that starts without it: the
    objects are all writers of the topic, the map is empty before the first
    store and holds the writer stored last after it, and a caller has only
    returned once the map holds an entry. *)
Definition on_topic (topic : string) (c : Caller) : Prop :=
  match c with
  | AtLookup t | AtStore t => t = topic
  | Returned _ => True
  end.

Definition coherent (topic : string) (cs : list Caller) (s : Shared) : Prop :=
  Forall (on_topic topic) cs
  /\ Forall (fun o => WTopic o = topic) (sh_objects s)
  /\ (sh_objects s = [] /\ sh_writers s = ∅ /\ pending cs = length cs
      \/ sh_objects s <> []
         /\ sh_writers s = {[ topic := (length (sh_objects s) - 1)%nat ]}).

Lemma coherent_run topic sched cs s :
  coherent topic cs s ->
  coherent topic (run_schedule sched cs s).1 (run_schedule sched cs s).2.
Proof.
  revert cs s. induction sched as [|i sched IH]; intros cs s Hc; cbn; [done|].
  destruct (cs !! i) as [c|] eqn:Hi; [|by apply IH].
  destruct (caller_step c s) as [c' s'] eqn:Hstep. apply IH.
  destruct Hc as (Hcs & Hos & Hmap).
  pose proof (pending_insert cs i c c' Hi) as Hp.
  assert (Hc0 : on_topic topic c).
  { rewrite Forall_forall in Hcs. apply Hcs. by eapply list_elem_of_lookup_2. }
  destruct c as [t|t|w]; cbn in Hstep, Hc0.
  - subst t. destruct (sh_writers s !! topic) as [w|] eqn:Hw; simplify_eq.
    + split; [|split; [done|]].
      { apply Forall_insert; done. }
      destruct Hmap as [(_ & Hempty & _)|Hmap]; [|by right].
      by rewrite Hempty, lookup_empty in Hw.
    + split; [|split; [done|]].
      { apply Forall_insert; done. }
      destruct Hmap as [(Ho & Hempty & Hpend)|Hmap]; [|by right].
      left. rewrite length_insert. cbn in Hp. split; [done|]. split; [done|]. lia.
  - subst t. simplify_eq. split; [|split].
    + apply Forall_insert; done.
    + cbn. apply Forall_app. split; [done|]. by constructor.
    + right. cbn. split; [by destruct (sh_objects s)|].
      rewrite length_app. cbn.
      replace (length (sh_objects s) + 1 - 1)%nat with (length (sh_objects s)) by lia.
      destruct Hmap as [(_ & -> & _)|(_ & ->)].
      * by rewrite insert_empty.
      * by rewrite insert_singleton_eq.
  - simplify_eq. split; [|split; [done|]].
    + by rewrite list_insert_id.
    + rewrite list_insert_id by done. done.
Qed.

Lemma coherent_created topic cs s :
  coherent topic cs s -> sh_created_for topic s = length (sh_objects s).
Proof.
  intros (_ & Hos & _). unfold sh_created_for.
  induction Hos as [|o os Ho _ IH]; [done|].
  rewrite filter_cons, decide_True by done. cbn. by rewrite IH.
Qed.

Lemma run_schedule_length sched cs s :
  length (run_schedule sched cs s).1 = length cs.
Proof.
  revert cs s. induction sched as [|i sched IH]; intros cs s; cbn; [done|].
  destruct (cs !! i) as [c|]; [|apply IH].
  destruct (caller_step c s) as [c' s']. by rewrite IH, length_insert.
Qed.

Lemma pending_replicate n topic :
  pending (replicate n (AtLookup topic)) = n.
Proof.
  unfold pending. induction n as [|n IH]; [done|]. cbn [replicate].
  rewrite filter_cons. case_decide; [|done]. cbn. by rewrite IH.
Qed.

Lemma coherent_fresh bs topic n :
  coherent topic (replicate n (AtLookup topic)) (fresh bs).
Proof.
  split; [|split].
  - apply Forall_replicate. done.
  - constructor.
  - left. by rewrite pending_replicate, length_replicate.
Qed.

(** No caller is between its look-up and its store. *)
Definition calm (cs : list Caller) : Prop :=
  Forall (fun c => match c with AtStore _ => False | _ => True end) cs.

Lemma serial_run topic n :
  forall sched cs s,
    (length sched <= n)%nat ->
    serial sched ->
    coherent topic cs s -> calm cs -> (length (sh_objects s) <= 1)%nat ->
    calm (run_schedule sched cs s).1
    /\ (length (sh_objects (run_schedule sched cs s).2) <= 1)%nat.
Proof.
  induction n as [|n IH]; intros sched cs s Hlen Hser Hco Hcalm Hone.
  { destruct sched; [done|cbn in Hlen; lia]. }
  destruct sched as [|i [|j sched]]; [done|done|].
  destruct Hser as [<- Hser]. cbn in Hlen.
  cbn [run_schedule].
  destruct (cs !! i) as [c|] eqn:Hi; [|apply IH; [lia|done..]].
  assert (Hc0 : on_topic topic c).
  { destruct Hco as (Hcs & _). rewrite Forall_forall in Hcs.
    apply Hcs. by eapply list_elem_of_lookup_2. }
  assert (Hc1 : match c with AtStore _ => False | _ => True end).
  { unfold calm in Hcalm. rewrite Forall_forall in Hcalm.
    apply Hcalm. by eapply list_elem_of_lookup_2. }
  pose proof (coherent_run topic [i; i] cs s Hco) as Hco2.
  cbn [run_schedule] in Hco2. rewrite Hi in Hco2.
  destruct c as [t|t|w]; [|done|]; cbn in Hc0; cbn [caller_step] in *.
  - subst t. destruct (sh_writers s !! topic) as [w|] eqn:Hw.
    + rewrite list_lookup_insert_eq in * by (by eapply lookup_lt_Some).
      cbn [caller_step] in *. apply IH; [lia|done|done| |done].
      rewrite list_insert_insert_eq. by apply Forall_insert.
    + rewrite list_lookup_insert_eq in * by (by eapply lookup_lt_Some).
      cbn [caller_step] in *. apply IH; [lia|done|done| |].
      * rewrite list_insert_insert_eq. by apply Forall_insert.
      * cbn. destruct Hco as (_ & _ & [(-> & _)|(_ & Hm)]); [cbn; lia|].
        by rewrite Hm, lookup_singleton_eq in Hw.
  - rewrite list_lookup_insert_eq in * by (by eapply lookup_lt_Some).
    cbn [caller_step] in *. apply IH; [lia|done|done| |done].
    rewrite list_insert_insert_eq. by apply Forall_insert.
Qed.

(** C2 (amended). [getWriter] takes no lock.  Of [n >= 1] callers that
    all publish first to a topic the producer has not seen, every schedule
    that lets them all return creates at least one and at most [n] writers
    for the topic, and the map ends with the writer stored last; exactly
    one writer is created when the callers run one after the other. *)
Theorem concurrent_first_use (bs : list string) (topic : string) (n : nat)
    (sched : list nat) :
  (1 <= n)%nat ->
  let r := run_schedule sched (replicate n (AtLookup topic)) (fresh bs) in
  all_returned r.1 ->
  (1 <= sh_created_for topic r.2 <= n)%nat
  /\ sh_writers r.2 = {[ topic := (sh_created_for topic r.2 - 1)%nat ]}
  /\ (serial sched -> sh_created_for topic r.2 = 1%nat).
Proof.
  intros Hn r Hret. subst r.
  set (cs := replicate n (AtLookup topic)) in *.
  pose proof (coherent_run topic sched cs (fresh bs) (coherent_fresh bs topic n))
    as Hco.
  pose proof (coherent_created topic _ _ Hco) as Hcr.
  pose proof (run_schedule_bound topic sched cs (fresh bs)) as Hb.
  pose proof (run_schedule_length sched cs (fresh bs)) as Hl.
  pose proof (pending_all_returned _ Hret) as Hp0.
  unfold cs in Hb, Hl. rewrite pending_replicate in Hb.
  rewrite length_replicate in Hl. fold cs in Hb, Hl.
  rewrite Hp0 in Hb. cbn in Hb.
  destruct Hco as (_ & _ & [(_ & _ & Hpend)|(Hne & Hm)]); [lia|].
  assert (1 <= length (sh_objects (run_schedule sched cs (fresh bs)).2))%nat.
  { destruct (sh_objects (run_schedule sched cs (fresh bs)).2); [done|cbn; lia]. }
  split; [lia|]. split; [by rewrite Hcr|].
  intros Hser.
  destruct (serial_run topic (length sched) sched cs (fresh bs)
              ltac:(lia) Hser (coherent_fresh bs topic n)) as [_ Hone].
  - apply Forall_replicate. done.
  - cbn. lia.
  - lia.
Qed.

(** Two callers whose look-ups both come before either store: two
    writers are created for the one topic and the callers hold different
    ones. *)
Lemma concurrent_first_use_counterexample :
  run_schedule [0; 1; 0; 1]%nat
    [AtLookup "orders"; AtLookup "orders"] (fresh ["broker:9092"])
  = ([Returned 0; Returned 1],
     {| sh_writers := {[ "orders" := 1%nat ]};
        sh_brokers := ["broker:9092"];
        sh_objects :=
          [{| Addr := ["broker:9092"]; WTopic := "orders";
              BatchTimeout := 10; RequiredAcks := 1 |};
           {| Addr := ["broker:9092"]; WTopic := "orders";
              BatchTimeout := 10; RequiredAcks := 1 |}] |})
  /\ sh_created_for "orders"
       (run_schedule [0; 1; 0; 1]%nat
          [AtLookup "orders"; AtLookup "orders"] (fresh ["broker:9092"])).2
     = 2%nat.
Proof. split; reflexivity. Qed.

Lemma concurrent_first_use_witness :
  let r := run_schedule [0; 0; 1; 1; 2; 2]%nat
             (replicate 3 (AtLookup "orders")) (fresh ["broker:9092"]) in
  (1 <= sh_created_for "orders" r.2 <= 3)%nat
  /\ sh_writers r.2 = {[ "orders" := (sh_created_for "orders" r.2 - 1)%nat ]}
  /\ sh_created_for "orders" r.2 = 1%nat.
Proof.
  destruct (concurrent_first_use ["broker:9092"] "orders" 3
              [0; 0; 1; 1; 2; 2]%nat ltac:(lia)) as (Hb & Hm & Hs).
  - repeat constructor.
  - split; [exact Hb|]. split; [exact Hm|]. apply Hs. cbn. tauto.
Defined.

End concurrency_facts.

Module consumer_more.
Import kafka consumer_facts.

Section Traces.
Context {TC : TimeCodec}.

(** The messages of the successful fetches, of the handler calls, of the
    handler calls that returned no error and of the commit calls of a
    trace, each in order. *)
Definition fetched (tr : list Event) : list Message :=
  omap (fun ev => match ev with EvFetch (Ok m) => Some m | _ => None end) tr.

Definition handled (tr : list Event) : list Message :=
  omap (fun ev => match ev with EvHandle m _ => Some m | _ => None end) tr.

Definition accepted (tr : list Event) : list Message :=
  omap (fun ev => match ev with EvHandle m None => Some m | _ => None end) tr.

Definition commits (tr : list Event) : list Message :=
  omap (fun ev => match ev with EvCommit m _ => Some m | _ => None end) tr.

Lemma loop_trace_projections tr :
  loop_trace tr ->
  handled tr = fetched tr /\ commits tr = accepted tr.
Proof.
  unfold handled, fetched, commits, accepted.
  induction 1 as [| |err|err tr Htr [IH1 IH2]|m e tr Htr [IH1 IH2]
                  |m tr Htr [IH1 IH2]|m e tr Htr [IH1 IH2]];
    cbn; rewrite ?IH1, ?IH2; done.
Qed.



End Traces.

(** X1. Every message a fetch returns is handed to the handler, once and in
    the order fetched, and every message the handler accepts has exactly one
    commit call, in the same order. *)
Theorem handled_once_in_order {TC : TimeCodec} {W : Type}
    (c : ConsumerEnv W) (fuel : nat) (w : W) :
  handled (Consume c fuel w).2 = fetched (Consume c fuel w).2
  /\ commits (Consume c fuel w).2 = accepted (Consume c fuel w).2.
Proof.
  rewrite Consume_events.
  destruct (loop_trace_projections _ (Consume_loop_trace c fuel w)) as [H1 H2].
  split; [exact H1|exact H2].
Qed.


Section Blocking.
Context {TC : TimeCodec} {W : Type} (c : ConsumerEnv W).

Lemma Consume_loop_live fuel w :
  (forall w', ctx_Err c w' = None) ->
  (Consume_loop c fuel w).1.1 = None
  /\ length (omap (fun ev => match ev with EvFetch _ => Some () | _ => None end)
               (Consume_loop c fuel w).2) = fuel.
Proof.
  intros Hlive. revert w. induction fuel as [|n IH]; intros w; [done|].
  cbn. unfold iteration. rewrite Hlive.
  destruct (FetchMessage c w) as [[m|err] w1].
  - destruct (handler c m w1) as [[e|] w2].
    + specialize (IH w2). destruct (Consume_loop c n w2) as [[r w3] evs].
      cbn in *. destruct IH as [-> <-]. done.
    + destruct (CommitMessages c m w2) as [[e|] w3]; specialize (IH w3);
        destruct (Consume_loop c n w3) as [[r w4] evs];
        cbn in *; destruct IH as [-> <-]; done.
  - rewrite Hlive. specialize (IH w1).
    destruct (Consume_loop c n w1) as [[r w2] evs].
    cbn in *. destruct IH as [-> <-]. done.
Qed.

End Blocking.

(** X3. [Consume] blocks until the context is cancelled: while the context is
    live the loop has not returned after any number of passes, each of
    which made one fetch; called with a context already cancelled it
    returns the reason at once and fetches nothing. *)
Theorem Consume_blocks_until_cancelled {TC : TimeCodec} {W : Type}
    (c : ConsumerEnv W) (w : W) :
  ((forall w', ctx_Err c w' = None) ->
   forall fuel,
     (Consume c fuel w).1.1 = None
     /\ length (omap (fun ev =>
                  match ev with EvFetch _ => Some () | _ => None end)
                  (Consume c fuel w).2) = fuel)
  /\ (forall e fuel,
      ctx_Err c w = Some e ->
      Consume c (S fuel) w
      = (Some (Some e), w,
         [EvInfo "starting consumer"; EvInfo "consumer stopping"])).
Proof.
  split.
  - intros Hlive fuel.
    destruct (Consume_loop_live c fuel w Hlive) as [H1 H2].
    unfold Consume. destruct (Consume_loop c fuel w) as [[r w'] evs].
    cbn in *. done.
  - intros e fuel He. unfold Consume. cbn. unfold iteration. by rewrite He.
Qed.

Section Examples.
Local Existing Instance civil.codec.

Definition delivery : Message :=
  {| Topic := "orders"; Partition := 0; Offset := 7;
     Key := bytes_of "123"; Value := bytes_of "{}";
     MsgTime := civil.zero |}.

(** A session in which the commit fails; the context is cancelled after
    the first commit call (the world counts them). *)
Definition unacked : ConsumerEnv nat :=
  {| ctx_Err := fun n => if (n <? 1)%nat then None else Some Canceled;
     FetchMessage := fun n => (Ok delivery, n);
     handler := fun _ n => (None, n);
     CommitMessages := fun _ n => (Some (External "commit failed"), S n) |}.

(** A session that only fails while the context stays live. *)
Definition stalled : ConsumerEnv unit :=
  {| ctx_Err := fun _ => None;
     FetchMessage := fun w => (Error (External "EOF"), w);
     handler := fun _ w => (None, w);
     CommitMessages := fun _ w => (None, w) |}.


Lemma Consume_blocks_until_cancelled_witness :
  (Consume stalled 3 tt).1.1 = None
  /\ Consume unacked 4 1%nat
     = (Some (Some Canceled), 1%nat,
        [EvInfo "starting consumer"; EvInfo "consumer stopping"]).
Proof.
  split.
  - destruct (Consume_blocks_until_cancelled stalled tt) as [H _].
    exact (proj1 (H (fun _ => eq_refl) 3%nat)).
  - destruct (Consume_blocks_until_cancelled unacked 1%nat) as [_ H].
    exact (H Canceled 3%nat eq_refl).
Defined.

End Examples.

End consumer_more.

Module producer_more.
Import kafka.

Section Closing.
Context {TC : TimeCodec} {W : Type} (WriterClose : nat -> W -> option error * W).

(** The log entries of the failed calls among [calls]. *)
Definition close_failures (calls : list (string * nat * option error))
  : list LogEntry :=
  omap (fun c =>
          match c.2 with
          | Some err =>
              Some {| level := LvError; text := "failed to close writer";
                      log_topic := c.1.1; log_key := "";
                      log_err := Some err |}
          | None => None
          end) calls.

Lemma Close_range_spec order (p : Producer W) :
  writers (Close_range WriterClose order p).1 = writers p
  /\ objects (Close_range WriterClose order p).1 = objects p
  /\ brokers (Close_range WriterClose order p).1 = brokers p
  /\ map fst (Close_range WriterClose order p).2 = order
  /\ logged (Close_range WriterClose order p).1
     = logged p ++ close_failures (Close_range WriterClose order p).2.
Proof.
  revert p. induction order as [|[topic w] order IH]; intros p.
  { cbn. by rewrite app_nil_r. }
  cbn [Close_range].
  destruct (WriterClose w (world p)) as [r w1].
  match goal with
  | |- context [Close_range WriterClose order ?q] =>
      specialize (IH q); destruct (Close_range WriterClose order q)
        as [p3 calls]
  end.
  cbn [fst snd] in IH. destruct IH as (Hw & Ho & Hb & Hc & Hl).
  cbn. rewrite Hw, Ho, Hb, Hc, Hl.
  unfold close_failures. destruct r as [err|]; cbn.
  - by rewrite <- app_assoc.
  - done.
Qed.

End Closing.

(** X4. [Close] calls [Close] on each writer of the map once, logs the calls
    that fail and returns nil whatever they return.  It leaves the map as
    it is: a topic published to before still has its writer (now closed),
    and [getWriter] hands that one out again instead of making a new
    one. *)
Theorem Close_keeps_writers {TC : TimeCodec} {W : Type}
    (WriterClose : nat -> W -> option error * W)
    (order : list (string * nat)) (p : Producer W) :
  order ≡ₚ map_to_list (writers p) ->
  let '(r, p', calls) := Close WriterClose order p in
  r = None
  /\ map fst calls ≡ₚ map_to_list (writers p)
  /\ logged p' = logged p ++ close_failures calls
  /\ writers p' = writers p /\ objects p' = objects p
  /\ forall topic w,
       writers p !! topic = Some w -> getWriter topic p' = (w, p').
Proof.
  intros Hperm. unfold Close.
  pose proof (Close_range_spec WriterClose order p) as H.
  destruct (Close_range WriterClose order p) as [p' calls].
  cbn [fst snd] in H. destruct H as (Hw & Ho & _ & Hc & Hl).
  repeat split; try done.
  - by rewrite Hc.
  - intros topic w Hlook. unfold getWriter. by rewrite Hw, Hlook.
Qed.

Section Delivery.
Context {TC : TimeCodec}.

(** The text [Publish] sends for a payload. *)
Definition wire (payload : Payload) : bytes :=
  match Marshal_payload payload with Ok data => data | Error _ => [] end.

Definition sent (now : Time) (c : string * Payload) : nat * Message :=
  (0%nat,
   {| Topic := ""; Partition := 0; Offset := 0;
      Key := bytes_of c.1; Value := wire c.2; MsgTime := now |}).

Definition published (topic : string) (c : string * Payload) : LogEntry :=
  {| level := LvDebug; text := "message published";
     log_topic := topic; log_key := c.1; log_err := None |}.

Lemma Publish_delivered topic key payload (p : Producer PSim) :
  is_Ok (Marshal_payload payload) ->
  acks (world p) = [] ->
  (writers p = ∅ /\ objects p = []) \/ writers p !! topic = Some 0%nat ->
  let '(r, p') := Publish psim topic key payload p in
  r = None
  /\ writers p' !! topic = Some 0%nat
  /\ acks (world p') = [] /\ clock (world p') = clock (world p)
  /\ delivered (world p')
     = delivered (world p) ++ [sent (clock (world p)) (key, payload)]
  /\ logged p' = logged p ++ [published topic (key, payload)].
Proof.
  intros Hok Hacks Hstate. unfold Publish, sent, wire. cbn [fst snd].
  destruct (Marshal_payload payload) as [data|]; [|done].
  assert (Hg : exists p1, getWriter topic p = (0%nat, p1)
                 /\ world p1 = world p /\ logged p1 = logged p
                 /\ writers p1 !! topic = Some 0%nat).
  { unfold getWriter. destruct Hstate as [[Hw Ho]|Hw].
    - rewrite Hw, lookup_empty, Ho. eexists. split; [done|]. cbn.
      by rewrite lookup_insert_eq.
    - rewrite Hw. by eexists. }
  destruct Hg as (p1 & -> & Hworld & Hlog & Hw1).
  cbn [psim Now WriteMessages]. unfold psim_write.
  rewrite Hworld, Hacks. cbn. by rewrite Hlog.
Qed.

End Delivery.

(** X5. Publishes to one topic on a new producer, with payloads that
    serialize and a broker that acknowledges every write: each call returns
    nil, the broker has received one message per call, in the order of the
    calls and all through the one writer, each with the key given and the
    serialized payload as value, and the log holds one entry per call. *)
Theorem Publish_all_delivers {TC : TimeCodec} (bs : list string) (w0 : PSim)
    (topic : string) (calls : list (string * Payload)) :
  acks w0 = [] ->
  Forall (fun c => is_Ok (Marshal_payload c.2)) calls ->
  let '(rs, p) := Publish_all psim topic calls (NewProducer bs w0) in
  rs = map (fun _ => None) calls
  /\ delivered (world p) = delivered w0 ++ map (sent (clock w0)) calls
  /\ logged p = map (published topic) calls.
Proof.
  intros Hacks Hok.
  assert (Hgen : forall p0 : Producer PSim,
    acks (world p0) = [] ->
    (writers p0 = ∅ /\ objects p0 = []) \/ writers p0 !! topic = Some 0%nat ->
    let '(rs, p) := Publish_all psim topic calls p0 in
    rs = map (fun _ => None) calls
    /\ delivered (world p)
       = delivered (world p0) ++ map (sent (clock (world p0))) calls
    /\ logged p = logged p0 ++ map (published topic) calls).
  { induction Hok as [|[key payload] calls Hc Hcs IH]; intros p0 Ha Hs.
    { cbn. by rewrite !app_nil_r. }
    cbn [Publish_all].
    pose proof (Publish_delivered topic key payload p0 Hc Ha Hs) as H1.
    destruct (Publish psim topic key payload p0) as [r p1].
    destruct H1 as (-> & Hw & Ha1 & Hck & Hd & Hl).
    specialize (IH p1 Ha1 (or_intror Hw)).
    destruct (Publish_all psim topic calls p1) as [rs p2].
    destruct IH as (-> & Hd2 & Hl2).
    rewrite Hd2, Hd, Hl2, Hl, Hck, <- !app_assoc. done. }
  specialize (Hgen (NewProducer bs w0) Hacks (or_introl (conj eq_refl eq_refl))).
  destruct (Publish_all psim topic calls (NewProducer bs w0)) as [rs p].
  done.
Qed.

Section Examples.
Local Existing Instance civil.codec.

(** A producer that has published to two topics; the world lists the
    writers closed, and the second writer fails to close. *)
Definition two_topics : Producer (list nat) :=
  {| writers := {[ "orders" := 0%nat; "payments" := 1%nat ]};
     brokers := ["kafka:9092"];
     objects := [{| Addr := ["kafka:9092"]; WTopic := "orders";
                    BatchTimeout := 10; RequiredAcks := 1 |};
                 {| Addr := ["kafka:9092"]; WTopic := "payments";
                    BatchTimeout := 10; RequiredAcks := 1 |}];
     logged := [];
     world := [] |}.

Definition acking : PSim :=
  {| clock := civil.zero; acks := []; delivered := [] |}.

Definition receipt : Payload :=
  PValue (json.VMap [("orderId", json.VString "123")]).

Definition close_second_fails (w : nat) (closed : list nat)
  : option error * list nat :=
  (if (w =? 1)%nat then Some (External "broken pipe") else None,
   closed ++ [w]).

Lemma two_topics_list :
  [("orders", 0%nat); ("payments", 1%nat)] ≡ₚ map_to_list (writers two_topics).
Proof. vm_compute. first [reflexivity | apply perm_swap]. Qed.

Lemma Close_keeps_writers_witness :
  let '(r, p', calls) :=
    Close close_second_fails [("orders", 0%nat); ("payments", 1%nat)]
      two_topics in
  r = None
  /\ map fst calls ≡ₚ map_to_list (writers two_topics)
  /\ logged p' = logged two_topics ++ close_failures calls
  /\ writers p' = writers two_topics /\ objects p' = objects two_topics
  /\ forall topic w,
       writers two_topics !! topic = Some w -> getWriter topic p' = (w, p').
Proof.
  exact (Close_keeps_writers close_second_fails
           [("orders", 0%nat); ("payments", 1%nat)] two_topics
           two_topics_list).
Defined.

(** What that run leaves: both writers closed, one entry logged. *)
Example Close_run :
  Close close_second_fails [("orders", 0%nat); ("payments", 1%nat)] two_topics
  = (None,
     {| writers := writers two_topics; brokers := brokers two_topics;
        objects := objects two_topics;
        logged := [{| level := LvError; text := "failed to close writer";
                      log_topic := "payments"; log_key := "";
                      log_err := Some (External "broken pipe") |}];
        world := [0%nat; 1%nat] |},
     [("orders", 0%nat, None);
      ("payments", 1%nat, Some (External "broken pipe"))]).
Proof. reflexivity. Qed.

Lemma Publish_all_delivers_witness :
  let '(rs, p) :=
    Publish_all psim "orders" [("k1", receipt); ("k2", receipt)]
      (NewProducer ["kafka:9092"] acking) in
  rs = [None; None]
  /\ delivered (world p)
     = [sent civil.zero ("k1", receipt); sent civil.zero ("k2", receipt)]
  /\ logged p = [published "orders" ("k1", receipt);
                 published "orders" ("k2", receipt)].
Proof.
  refine (Publish_all_delivers ["kafka:9092"] acking "orders"
            [("k1", receipt); ("k2", receipt)] eq_refl _).
  repeat constructor.
Defined.

End Examples.

End producer_more.

Module envelope_more.
Import Init.Byte.
Import json kafka json_facts decode_facts envelope_facts.
Local Open Scope N_scope.

Section Wire.
Context {TC : TimeCodec} {laws : TimeCodecLaws TC}.

(** The text of a new envelope and what the decoder makes of it. *)
Lemma new_event_wire id now source eventType data :
  Valid (bytes_of id) = true ->
  Valid (bytes_of source) = true ->
  Valid (bytes_of eventType) = true ->
  wf_value data = true ->
  1 + vdepth data <= maxNestingDepth ->
  is_Ok (Time_MarshalJSON now) ->
  let event := {| ID := id; Source := source; Type_ := eventType;
                  Time_ := now; DataContentType := "application/json";
                  Data := Some (encode data) |} in
  NewCloudEvent id now source eventType data = (event, None)
  /\ exists text,
       Marshal_CloudEvent event = Ok text
       /\ ParseCloudEvent text = (event, None).
Proof.
  intros Hid Hsrc Hty Hwf Hd Hnow event.
  destruct (Time_MarshalJSON now) as [tb|] eqn:Htb; [|done].
  destruct (Time_text now tb Htb) as (ts & -> & Hts).
  assert (Hev : wf_event event) by (by repeat split).
  split.
  { unfold NewCloudEvent, Marshal. by rewrite wf_serializable. }
  exists (event_text event ts data). split.
  - apply Marshal_CloudEvent_text; try done. lia.
  - unfold ParseCloudEvent, Unmarshal_CloudEvent.
    rewrite parse_top_event by done.
    rewrite (decode_event event ts data now); [done|].
    by apply time_roundtrip.
Qed.

End Wire.

(** X6. From producer to consumer.  For an identifier, a source and a
    type in valid UTF-8, well-formed data nested less deep than the decoder
    allows and a time [Time] can print: the envelope [NewCloudEvent] makes,
    published with [PublishEvent] by a new producer through a broker that
    acknowledges the write, arrives as one message whose key is the
    identifier of the envelope and whose value [ParseCloudEvent] reads back
    as the envelope published.  [ParseData] on it gives a target the image
    of the data in the type of the target, or an [UnmarshalTypeError]
    where there is none, and a target of a type built from [bool],
    [int64], [string], slices and maps, each part of the data being of the
    kind the type asks for, the data part for part. *)
Theorem published_event_parses {TC : TimeCodec} {laws : TimeCodecLaws TC}
    (id : string) (now : Time) (source eventType : string) (data : value)
    (bs : list string) (w0 : PSim) (topic : string) :
  Valid (bytes_of id) = true ->
  Valid (bytes_of source) = true ->
  Valid (bytes_of eventType) = true ->
  wf_value data = true ->
  1 + vdepth data <= maxNestingDepth ->
  is_Ok (Time_MarshalJSON now) ->
  acks w0 = [] ->
  let event := (NewCloudEvent id now source eventType data).1 in
  let '(r, p) := PublishEvent psim topic event (NewProducer bs w0) in
  r = None
  /\ exists msg,
       delivered (world p) = delivered w0 ++ [(0%nat, msg)]
       /\ Key msg = bytes_of id
       /\ ParseCloudEvent (Value msg) = (event, None)
       /\ (forall target,
             ParseData (ParseCloudEvent (Value msg)).1 target
             = match image target data with
               | Some h => Ok h
               | None => Error (UnmarshalTypeError "")
               end)
       /\ (forall target,
             has_type target data = true ->
             ParseData (ParseCloudEvent (Value msg)).1 target
             = Ok (held_of data)).
Proof.
  intros Hid Hsrc Hty Hwf Hd Hnow Hacks.
  destruct (new_event_wire id now source eventType data Hid Hsrc Hty Hwf Hd
              Hnow) as (Hnew & text & Htext & Hparse).
  rewrite Hnew. cbn [fst].
  unfold PublishEvent, Publish, Marshal_payload. rewrite Htext.
  unfold getWriter, NewProducer. cbn [writers objects]. rewrite lookup_empty.
  cbn [psim Now WriteMessages world fst snd length]. unfold psim_write.
  rewrite Hacks. cbn. split; [done|].
  eexists. split; [done|]. cbn [Key Value]. rewrite Hparse.
  assert (Hdata : forall target,
            ParseData
              {| ID := id; Source := source; Type_ := eventType;
                 Time_ := now; DataContentType := "application/json";
                 Data := Some (encode data) |} target
            = match image target data with
              | Some h => Ok h
              | None => Error (UnmarshalTypeError "")
              end).
  { intros target. unfold ParseData. cbn [Data].
    apply Unmarshal_encode; [done|lia]. }
  split; [done|]. split; [done|]. cbn [fst]. split; [done|].
  intros target Htarget. by rewrite Hdata, image_typed.
Qed.

Section Decoding.
Context {TC : TimeCodec}.

(** [ParseData] on an envelope read from an object that has no [data]
    member: the raw data is nil, and [json.Unmarshal] of no input is a
    syntax error. *)
Lemma Unmarshal_empty ty : Unmarshal ty [] = Error SyntaxError.
Proof. by vm_compute. Qed.

(** The value a string field holds. *)
Definition get_string (f : field) (e : CloudEvent) : string :=
  match f with
  | FID => ID e
  | FSource => Source e
  | FType => Type_ e
  | FDataContentType => DataContentType e
  | FTime | FData => ""
  end.

Definition string_field (f : field) : bool :=
  match f with FTime | FData => false | _ => true end.

Lemma decode_members_last ms k raw t f :
  find_field k = Some f -> string_field f = true ->
  forall e saved e',
    decode_members (ms ++ [(k, raw, JStr t)]) e saved = Ok e' ->
    get_string f e' = string_of t.
Proof.
  intros Hk Hf. induction ms as [|[[k0 raw0] j0] ms IH]; intros e saved e' Hdec.
  - cbn [app] in Hdec. rewrite decode_members_cons, Hk in Hdec.
    destruct f; try done; cbn [decode_members] in Hdec;
      destruct saved; simplify_eq; done.
  - rewrite <- app_comm_cons, decode_members_cons in Hdec.
    destruct (find_field k0) as [g|]; [|by eapply IH].
    destruct g.
    all: try (destruct j0; by eapply IH).
    destruct (Time_UnmarshalJSON raw0 (Time_ e)); [by eapply IH|done].
Qed.

(** [foldName] on ASCII text puts the letters in upper case. *)
Definition upper (b : Byte.byte) : Byte.byte :=
  if (0x61 <=? cc b) && (cc b <=? 0x7A) then byte_of_N (cc b - 32) else b.

Lemma foldName_ascii k :
  forallb (fun b => cc b <? 0x80) k = true -> foldName k = map upper k.
Proof.
  unfold foldName. induction k as [|b k IH]; intros H; [done|].
  cbn in H. apply andb_true_iff in H. destruct H as [Hb Hk].
  cbn [foldName_from map]. rewrite Hb, IH by done. done.
Qed.

End Decoding.

(** X7. [ParseData] needs the [data] member: for an object without one that
    [ParseCloudEvent] accepts, the envelope returned has no data and
    [ParseData] on it fails, whatever the target, with the syntax error of
    an empty input. *)
Theorem ParseData_without_data {TC : TimeCodec} (text : bytes)
    (ms : list (bytes * bytes * syntax)) :
  parse_top text = Some (JObj ms) ->
  absent FData ms ->
  (ParseCloudEvent text).2 = None ->
  Data (ParseCloudEvent text).1 = None
  /\ forall target,
       ParseData (ParseCloudEvent text).1 target = Error SyntaxError.
Proof.
  intros Htop Habs. unfold ParseCloudEvent, Unmarshal_CloudEvent.
  rewrite Htop.
  destruct (decode_members ms CloudEvent_zero None) as [e|] eqn:Hdec; [|done].
  intros _. cbn [fst].
  pose proof (decode_members_absent FData ms Habs _ _ _ Hdec) as Hd.
  cbn in Hd. unfold ParseData. rewrite Hd. split; [done|].
  intros target. apply Unmarshal_empty.
Qed.

(** X8. Keys are matched without regard to the case of their ASCII letters,
    and of several members for one field the last decides: when the last
    member of the object has a key that is the name of a string field up
    to case and a string as value, an accepted text gives that string to
    the field, whatever earlier members said. *)
Theorem last_member_decides {TC : TimeCodec} (text : bytes)
    (ms : list (bytes * bytes * syntax)) (k raw t : bytes) (f : field) :
  string_field f = true ->
  forallb (fun b => cc b <? 0x80) k = true ->
  map upper k = map upper (bytes_of (field_name f)) ->
  parse_top text = Some (JObj (ms ++ [(k, raw, JStr t)])) ->
  (ParseCloudEvent text).2 = None ->
  get_string f (ParseCloudEvent text).1 = string_of t.
Proof.
  intros Hf Hascii Hup Htop.
  assert (Hk : find_field k = Some f).
  { unfold find_field. rewrite (foldName_ascii k Hascii), Hup.
    destruct f; try done; by vm_compute. }
  unfold ParseCloudEvent, Unmarshal_CloudEvent. rewrite Htop.
  destruct (decode_members _ CloudEvent_zero None) as [e|] eqn:Hdec; [|done].
  intros _. cbn [fst]. by eapply decode_members_last.
Qed.

Section Examples.
Local Existing Instance civil.codec.

Definition shipped_at : civil.t :=
  {| civil.year := 2026; civil.month := 10; civil.day := 30;
     civil.hour := 19; civil.minute := 44; civil.second := 1 |}.

Definition shipment : value :=
  VMap [("items", VSlice [VInt 2; VInt (-7); VBool true; VNil]);
        ("orderId", VString "123")].

(** The text [{"id":"abc"}]. *)
Definition id_only : bytes :=
  bytes_of "{" ++ [x22] ++ bytes_of "id" ++ [x22] ++ bytes_of ":"
  ++ [x22] ++ bytes_of "abc" ++ [x22] ++ bytes_of "}".

(** What an [interface{}] receives for [shipment]. *)
Definition shipment_held : held :=
  HMap [("items",
         HSlice [HFloat (FFinite false (2 ^ 52) (- 51));
                 HFloat (FFinite true (7 * 2 ^ 50) (- 50));
                 HBool true; HNil]);
        ("orderId", HString "123")].

Lemma published_event_parses_witness :
  let event :=
    (NewCloudEvent "6ba7b810-9dad-11d1-80b4-00c04fd430c8" shipped_at
       "order-service" "order.created" shipment).1 in
  let '(r, p) :=
    PublishEvent psim "orders" event
      (NewProducer ["kafka:9092"] producer_more.acking) in
  r = None
  /\ exists msg,
       delivered (world p) = [] ++ [(0%nat, msg)]
       /\ Key msg = bytes_of "6ba7b810-9dad-11d1-80b4-00c04fd430c8"
       /\ ParseCloudEvent (Value msg) = (event, None)
       /\ ParseData (ParseCloudEvent (Value msg)).1 TAny = Ok shipment_held.
Proof.
  pose proof (@published_event_parses civil.codec civil_facts.codec_laws
                "6ba7b810-9dad-11d1-80b4-00c04fd430c8" shipped_at
                "order-service" "order.created" shipment
                ["kafka:9092"] producer_more.acking "orders"
                ltac:(by vm_compute) ltac:(by vm_compute)
                ltac:(by vm_compute) ltac:(by vm_compute)
                ltac:(vm_compute; discriminate) ltac:(vm_compute; exact I)
                ltac:(reflexivity)) as H.
  cbv zeta in H |- *.
  destruct (PublishEvent psim "orders" _ _) as [r p].
  destruct H as (Hr & msg & Hdel & Hkey & Hparse & Himg & _).
  split; [exact Hr|]. exists msg.
  split; [exact Hdel|]. split; [exact Hkey|]. split; [exact Hparse|].
  rewrite Himg. by vm_compute.
Defined.

Lemma ParseData_without_data_witness :
  Data (ParseCloudEvent id_only).1 = None
  /\ forall target,
       ParseData (ParseCloudEvent id_only).1 target = Error SyntaxError.
Proof.
  refine (ParseData_without_data id_only
            [(bytes_of "id", [x22] ++ bytes_of "abc" ++ [x22],
              JStr (bytes_of "abc"))] _ _ _).
  - by vm_compute.
  - repeat constructor. by vm_compute.
  - by vm_compute.
Defined.

(** The text [{"id":"a","ID":"b"}]. *)
Definition id_twice : bytes :=
  bytes_of "{" ++ [x22] ++ bytes_of "id" ++ [x22] ++ bytes_of ":"
  ++ [x22] ++ bytes_of "a" ++ [x22] ++ bytes_of ","
  ++ [x22] ++ bytes_of "ID" ++ [x22] ++ bytes_of ":"
  ++ [x22] ++ bytes_of "b" ++ [x22] ++ bytes_of "}".

Lemma last_member_decides_witness :
  get_string FID (ParseCloudEvent id_twice).1 = "b".
Proof.
  refine (last_member_decides id_twice
            [(bytes_of "id", [x22] ++ bytes_of "a" ++ [x22],
              JStr (bytes_of "a"))]
            (bytes_of "ID") ([x22] ++ bytes_of "b" ++ [x22]) (bytes_of "b")
            FID _ _ _ _ _).
  - reflexivity.
  - by vm_compute.
  - by vm_compute.
  - by vm_compute.
  - by vm_compute.
Defined.

End Examples.

End envelope_more.

Module error_facts.
Import domain.

(** An error wrapped by [fmt.Errorf] with [%w] once for each of [msgs],
    the first being the outermost. *)
Definition wrap_all (msgs : list string) (e : err) : err :=
  foldr Wrapped e msgs.

Lemma As_wrap_all msgs e : As (wrap_all msgs e) = As e.
Proof. induction msgs as [|m msgs IH]; [done|]. by cbn. Qed.

Lemma Is_wrap_all msgs e t : Is (wrap_all msgs e) t = Is e t.
Proof. induction msgs as [|m msgs IH]; [done|]. by cbn. Qed.

Lemma Error_wrapped msgs e :
  response.Error (Some (wrap_all msgs e))
  = match As e with
    | Some _ => response.Error (Some e)
    | None =>
        if Is e ErrNotFound || Is e ErrUnauthorized || Is e ErrForbidden
           || negb (Is e ErrValidation)
        then response.Error (Some e)
        else response.failure 400 (Error (wrap_all msgs e))
    end.
Proof.
  unfold response.Error. rewrite As_wrap_all, !Is_wrap_all.
  destruct (As e); [done|].
  destruct (Is e ErrNotFound); [done|].
  destruct (Is e ErrUnauthorized); [done|].
  destruct (Is e ErrForbidden); [done|].
  by destruct (Is e ErrValidation).
Qed.

(** X9. The reply to an error made by a constructor of the package, also when
    callers have wrapped it with [%w] on the way up: the code, the message
    and the detail the constructor set. *)
Theorem Error_of_constructors (msgs : list string)
    (entity id message from to field value : string) :
  let reply code msg detail :=
    response.JSON code
      {[ "success" := json.VBool false; "error" := json.VString msg;
         "detail" := json.VString detail ]} in
  response.Error (Some (wrap_all msgs (NewNotFoundError entity id)))
  = reply 404 (entity +:+ " not found")
      (entity +:+ " with id '" +:+ id +:+ "' was not found")
  /\ response.Error (Some (wrap_all msgs (NewValidationError message)))
     = reply 400 message ""
  /\ response.Error (Some (wrap_all msgs (NewConflictError message)))
     = reply 409 message ""
  /\ response.Error (Some (wrap_all msgs (NewInvalidStateError from to)))
     = reply 422
         ("cannot transition from '" +:+ from +:+ "' to '" +:+ to +:+ "'") ""
  /\ response.Error (Some (wrap_all msgs (NewUnauthorizedError message)))
     = reply 401 message ""
  /\ response.Error (Some (wrap_all msgs (NewForbiddenError message)))
     = reply 403 message ""
  /\ response.Error
       (Some (wrap_all msgs (NewAlreadyExistsError entity field value)))
     = reply 409
         (entity +:+ " with " +:+ field +:+ " '" +:+ value
          +:+ "' already exists") "".
Proof.
  cbn zeta. repeat split; rewrite Error_wrapped; reflexivity.
Qed.

(** X10. The reply to a bare sentinel, wrapped or not.  Four of the seven have
    a status of their own; the other three (optimistic lock, invalid state,
    already exists), whose constructors answer 409 and 422, fall through to
    500.  Only for the validation sentinel is the text of the error sent,
    and then the text of the outermost error. *)
Theorem Error_of_sentinels (msgs : list string) (s : sentinel) :
  response.Error (Some (wrap_all msgs (Sentinel s)))
  = match s with
    | ErrNotFound => response.failure 404 "not found"
    | ErrUnauthorized => response.failure 401 "unauthorized"
    | ErrForbidden => response.failure 403 "forbidden"
    | ErrValidation =>
        response.failure 400 (Error (wrap_all msgs (Sentinel s)))
    | ErrOptimisticLock | ErrInvalidState | ErrAlreadyExists =>
        response.failure 500 "internal server error"
    end.
Proof. rewrite Error_wrapped. by destruct s. Qed.

(** The code of a reply. *)
Definition code_of (c : response.Call) : Z :=
  match c with response.JSON code _ | response.Status code => code end.

(** X11. Wrapping with [%w] never changes the status of the reply, and changes
    the body only where the text of the error is sent (the validation
    sentinel without a [DomainError]); an error that matches nothing gets
    500 and the fixed text, a nil error too. *)
Theorem Error_status_under_wrapping (msg : string) (e : err) :
  code_of (response.Error (Some (Wrapped msg e)))
  = code_of (response.Error (Some e))
  /\ (response.Error (Some (Wrapped msg e)) <> response.Error (Some e) ->
      As e = None /\ Is e ErrValidation = true
      /\ response.Error (Some (Wrapped msg e)) = response.failure 400 msg)
  /\ (As e = None ->
      Is e ErrNotFound = false -> Is e ErrUnauthorized = false ->
      Is e ErrForbidden = false -> Is e ErrValidation = false ->
      response.Error (Some e) = response.failure 500 "internal server error")
  /\ response.Error None = response.failure 500 "internal server error".
Proof.
  pose proof (Error_wrapped [msg] e) as H. cbn [wrap_all foldr] in H.
  rewrite H. clear H. unfold response.Error.
  destruct (As e) as [d|]; [by repeat split|].
  destruct (Is e ErrNotFound); [by repeat split|].
  destruct (Is e ErrUnauthorized); [by repeat split|].
  destruct (Is e ErrForbidden); [by repeat split|].
  destruct (Is e ErrValidation); cbn; by repeat split.
Qed.

(** X12. What [errors.Is] and the method [Error] say of the errors the
    constructors make, wrapped or not: each is its own sentinel and none of
    the others, and its text is the message followed by the text of the
    sentinel. *)
Theorem constructors_wrap_sentinels (msgs : list string)
    (entity id message from to field value : string) (t : sentinel) :
  Is (wrap_all msgs (NewNotFoundError entity id)) t
  = bool_decide (t = ErrNotFound)
  /\ Is (wrap_all msgs (NewValidationError message)) t
     = bool_decide (t = ErrValidation)
  /\ Is (wrap_all msgs (NewConflictError message)) t
     = bool_decide (t = ErrOptimisticLock)
  /\ Is (wrap_all msgs (NewInvalidStateError from to)) t
     = bool_decide (t = ErrInvalidState)
  /\ Is (wrap_all msgs (NewUnauthorizedError message)) t
     = bool_decide (t = ErrUnauthorized)
  /\ Is (wrap_all msgs (NewForbiddenError message)) t
     = bool_decide (t = ErrForbidden)
  /\ Is (wrap_all msgs (NewAlreadyExistsError entity field value)) t
     = bool_decide (t = ErrAlreadyExists)
  /\ Error (NewNotFoundError entity id)
     = (entity +:+ " not found") +:+ ": entity not found"
  /\ Error (Errorf field (NewValidationError message))
     = field +:+ ": " +:+ message +:+ ": validation error".
Proof.
  rewrite !Is_wrap_all. repeat split; by destruct t.
Qed.

Lemma Error_status_under_wrapping_witness :
  code_of (response.Error
             (Some (Wrapped "save order: validation error"
                      (Sentinel ErrValidation))))
  = code_of (response.Error (Some (Sentinel ErrValidation)))
  /\ response.Error
       (Some (Wrapped "save order: validation error"
                (Sentinel ErrValidation)))
     = response.failure 400 "save order: validation error"
  /\ response.Error (Some (Other "connection reset"))
     = response.failure 500 "internal server error".
Proof.
  destruct (Error_status_under_wrapping "save order: validation error"
              (Sentinel ErrValidation)) as (H1 & H2 & _ & _).
  destruct (Error_status_under_wrapping "" (Other "connection reset"))
    as (_ & _ & H3 & _).
  split; [exact H1|]. split.
  - apply H2. intros Heq.
    apply (f_equal (fun c => match c with
                             | response.JSON _ obj => obj !! "error"
                             | response.Status _ => None
                             end)) in Heq.
    vm_compute in Heq. discriminate Heq.
  - exact (H3 eq_refl eq_refl eq_refl eq_refl eq_refl).
Defined.

End error_facts.

Module page_facts.
Import domain.

(** X13. [NewPaginatedResult] keeps the items, the total, the page and the
    limit as given and, for a positive limit and a total that is not
    negative, counts the pages so that page [p >= 1] holds an item (its
    first offset [(p - 1) * limit] is below the total) exactly when
    [p <= TotalPages]; the count is the one [response.Paginated] reports.
    A limit of zero is a division panic; the page asked for is not checked
    against the count. *)
Theorem NewPaginatedResult_pages {T : Type} (items : list T)
    (total page limit : Z) :
  in_int total -> 0 <= total ->
  (0 < limit ->
   exists r,
     NewPaginatedResult items total page limit = Some r
     /\ Items r = items /\ Total r = total /\ Page r = page
     /\ Limit r = limit
     /\ (forall p, 1 <= p -> ((p - 1) * limit < total <-> p <= TotalPages r))
     /\ (total = 0 <-> TotalPages r = 0)
     /\ option_map (fun b => response.pg_total_pages (response.pagination b))
          (response.Paginated items total page limit)
        = Some (TotalPages r))
  /\ NewPaginatedResult items total page 0 = None.
Proof.
  intros Hr Ht. split; [|done]. intros Hl.
  unfold NewPaginatedResult, response.Paginated, int_quo, int_rem.
  assert ((limit =? 0) = false) as -> by lia.
  destruct (response_facts.quot_in_int total limit Hr Hl) as [Hq Hc].
  pose proof (response_facts.quot_rem_ceil total limit Hl) as Hceil.
  rewrite (response_facts.wrap_int_id _ Hq).
  assert (Hpages :
    (if 0 <? Z.rem total limit
     then wrap_int (Z.quot total limit + 1) else Z.quot total limit)
    = response.ceil_div total limit).
  { destruct (0 <? Z.rem total limit) eqn:E; [|done].
    rewrite response_facts.wrap_int_id; [done|]. by rewrite Hceil. }
  eexists. split; [done|]. cbn [Items Total Page Limit TotalPages option_map
    response.pagination response.pg_total_pages].
  rewrite Hpages.
  assert (Hspec : limit * (response.ceil_div total limit - 1) < total
                  <= limit * response.ceil_div total limit)
    by by apply response_facts.ceil_div_spec.
  repeat split; try done.
  - intros Hp. nia.
  - intros Hp. nia.
  - intros ->. nia.
  - intros H0. rewrite H0 in Hspec. lia.
Qed.

Lemma NewPaginatedResult_pages_witness :
  exists r,
    NewPaginatedResult ["a"; "b"; "c"] 7 3 3 = Some r
    /\ Items r = ["a"; "b"; "c"] /\ Total r = 7 /\ Page r = 3 /\ Limit r = 3
    /\ (forall p, 1 <= p -> ((p - 1) * 3 < 7 <-> p <= TotalPages r))
    /\ (7 = 0 <-> TotalPages r = 0)
    /\ option_map (fun b => response.pg_total_pages (response.pagination b))
         (response.Paginated ["a"; "b"; "c"] 7 3 3)
       = Some (TotalPages r).
Proof.
  refine (proj1 (NewPaginatedResult_pages ["a"; "b"; "c"] 7 3 3 _ _) _).
  - by vm_compute.
  - lia.
  - lia.
Defined.


End page_facts.

Module money_facts.
Import domain.

Lemma wrap_int_range z : in_int (wrap_int z).
Proof.
  unfold in_int, int_min, int_max, wrap_int.
  pose proof (Z.mod_pos_bound (z + 2 ^ 63) (2 ^ 64) ltac:(lia)). lia.
Qed.

Lemma wrap_int_sub_add a b : in_int a -> wrap_int (wrap_int (a + b) - b) = a.
Proof.
  intros Ha. unfold wrap_int at 1.
  replace (wrap_int (a + b) - b + 2 ^ 63)
    with ((a + b + 2 ^ 63) mod 2 ^ 64 - b) by (unfold wrap_int; lia).
  rewrite Zminus_mod_idemp_l.
  replace (a + b + 2 ^ 63 - b) with (a + 2 ^ 63) by lia.
  unfold in_int, int_min, int_max in Ha. rewrite Z.mod_small; lia.
Qed.

Lemma wrap_int_add_sub a b : in_int a -> wrap_int (wrap_int (a - b) + b) = a.
Proof.
  intros Ha. unfold wrap_int at 1.
  replace (wrap_int (a - b) + b + 2 ^ 63)
    with ((a - b + 2 ^ 63) mod 2 ^ 64 + b) by (unfold wrap_int; lia).
  rewrite Zplus_mod_idemp_l.
  replace (a - b + 2 ^ 63 + b) with (a + 2 ^ 63) by lia.
  unfold in_int, int_min, int_max in Ha. rewrite Z.mod_small; lia.
Qed.

Lemma wrap_int_add_assoc a b c :
  wrap_int (wrap_int (a + b) + c) = wrap_int (a + wrap_int (b + c)).
Proof.
  unfold wrap_int. f_equal.
  replace ((a + b + 2 ^ 63) mod 2 ^ 64 - 2 ^ 63 + c + 2 ^ 63)
    with ((a + b + 2 ^ 63) mod 2 ^ 64 + c) by lia.
  replace (a + ((b + c + 2 ^ 63) mod 2 ^ 64 - 2 ^ 63) + 2 ^ 63)
    with (a + (b + c + 2 ^ 63) mod 2 ^ 64) by lia.
  rewrite Zplus_mod_idemp_l, Zplus_mod_idemp_r. f_equal. lia.
Qed.

(** The amount of a [Money] is an [int64]. *)
Definition in_range (m : Money) : Prop := in_int (amount m).

(** X14. [Add] and [Subtract] refuse exactly the pairs of different
    currencies, with the zero value and an error; on one currency they undo
    each other, also when the sum or the difference has wrapped around. *)
Theorem Add_Subtract_inverse (m other : Money) :
  in_range m ->
  (currency m <> currency other ->
   (Add m other).1 = Money_zero /\ is_Some (Add m other).2
   /\ (Subtract m other).1 = Money_zero /\ is_Some (Subtract m other).2)
  /\ (currency m = currency other ->
      (Add m other).2 = None /\ (Subtract m other).2 = None
      /\ Subtract (Add m other).1 other = (m, None)
      /\ Add (Subtract m other).1 other = (m, None)).
Proof.
  intros Hm. unfold Add, Subtract. split; intros Hc.
  - rewrite !bool_decide_eq_true_2 by done. by repeat split.
  - rewrite !bool_decide_eq_false_2 by (intros H; by apply H).
    cbn [fst snd currency amount].
    rewrite ?bool_decide_eq_false_2 by (intros H; by apply H).
    rewrite wrap_int_sub_add, wrap_int_add_sub by done.
    by destruct m.
Qed.

(** X15. On one currency [Add] is commutative and associative and [Zero] is
    its unit, wrap-around included. *)
Theorem Add_commutative_monoid (a b c : Money) :
  in_range a ->
  currency a = currency b -> currency b = currency c ->
  Add a b = Add b a
  /\ Add (Add a b).1 c = Add a (Add b c).1
  /\ Add a (Zero (currency a)) = (a, None)
  /\ Add (Zero (currency a)) a = (a, None).
Proof.
  intros Ha Hab Hbc. unfold Add, Zero. cbn [currency amount].
  rewrite <- Hbc, <- Hab.
  rewrite !bool_decide_eq_false_2 by (intros H; by apply H).
  cbn [fst currency amount].
  rewrite ?bool_decide_eq_false_2 by (intros H; by apply H).
  rewrite wrap_int_add_assoc, (Z.add_comm (amount a) (amount b)).
  rewrite Z.add_0_r, Z.add_0_l, (response_facts.wrap_int_id _ Ha).
  destruct a. by repeat split.
Qed.

(** X16. [Add] does not report an overflow: a sum beyond the largest [int64]
    comes back without an error, as a negative amount. *)
Theorem Add_overflow_unreported (m other : Money) :
  in_range m -> in_range other ->
  currency m = currency other ->
  int_max < amount m + amount other ->
  (Add m other).2 = None
  /\ amount (Add m other).1 = amount m + amount other - 2 ^ 64
  /\ IsNegative (Add m other).1 = true.
Proof.
  unfold in_range, in_int, int_min, int_max. intros Hm Ho Hc Hsum.
  unfold Add, IsNegative.
  rewrite bool_decide_eq_false_2 by (intros H; by apply H).
  cbn [fst snd amount].
  assert (Hw : wrap_int (amount m + amount other)
               = amount m + amount other - 2 ^ 64).
  { unfold wrap_int.
    replace (amount m + amount other + 2 ^ 63)
      with (amount m + amount other - 2 ^ 63 + 1 * 2 ^ 64) by lia.
    rewrite Z.mod_add by lia. rewrite Z.mod_small; lia. }
  rewrite Hw. repeat split. lia.
Qed.

(** X17. The three sign tests exclude each other and one of them holds;
    between two amounts of one currency exactly one of [GreaterThan] either
    way and [Equals] holds, between amounts of different currencies none
    does; and [Equals] holds of equal values only. *)
Theorem Money_comparisons (a b : Money) :
  (IsNegative a, IsZero a, IsPositive a)
    ∈ [(true, false, false); (false, true, false); (false, false, true)]
  /\ (currency a = currency b ->
      (GreaterThan a b, Equals a b, GreaterThan b a)
        ∈ [(true, false, false); (false, true, false); (false, false, true)])
  /\ (currency a <> currency b ->
      GreaterThan a b = false /\ Equals a b = false /\ GreaterThan b a = false)
  /\ (Equals a b = true <-> a = b).
Proof.
  unfold IsNegative, IsZero, IsPositive, GreaterThan, Equals.
  split; [|split; [|split]].
  - destruct (Z.ltb_spec (amount a) 0), (Z.eqb_spec (amount a) 0),
      (Z.ltb_spec 0 (amount a)); try lia; set_solver.
  - intros Hc. rewrite <- Hc.
    rewrite !bool_decide_eq_true_2 by done. cbn [andb].
    rewrite andb_true_r.
    destruct (Z.ltb_spec (amount b) (amount a)), (Z.eqb_spec (amount a) (amount b)),
      (Z.ltb_spec (amount a) (amount b)); try lia; set_solver.
  - intros Hc.
    rewrite !bool_decide_eq_false_2 by (intros H; by apply Hc).
    by rewrite andb_false_r.
  - rewrite andb_true_iff, Z.eqb_eq, bool_decide_eq_true.
    destruct a, b; cbn. split; [intros [-> ->]; done|by intros [= -> ->]].
Qed.

Lemma Add_Subtract_inverse_witness :
  (Add (MYR 1050) (NewMoney 1 CurrencyUSD)).1 = Money_zero
  /\ (Subtract (MYR 1050) (NewMoney 1 CurrencyUSD)).1 = Money_zero
  /\ Subtract (Add (MYR int_max) (MYR 1)).1 (MYR 1) = (MYR int_max, None).
Proof.
  assert (H1 : in_range (MYR 1050)) by (by vm_compute).
  assert (H2 : in_range (MYR int_max)) by (by vm_compute).
  destruct (Add_Subtract_inverse (MYR 1050) (NewMoney 1 CurrencyUSD) H1)
    as [Hd _].
  destruct (Hd ltac:(done)) as (Ha & _ & Hs & _).
  destruct (Add_Subtract_inverse (MYR int_max) (MYR 1) H2) as [_ Hsame].
  destruct (Hsame eq_refl) as (_ & _ & Hinv & _).
  split; [exact Ha|]. split; [exact Hs|exact Hinv].
Defined.

Lemma Add_commutative_monoid_witness :
  Add (MYR 250) (MYR 1050) = Add (MYR 1050) (MYR 250)
  /\ Add (Add (MYR 250) (MYR 1050)).1 (MYR 5)
     = Add (MYR 250) (Add (MYR 1050) (MYR 5)).1
  /\ Add (MYR 250) (Zero (currency (MYR 250))) = (MYR 250, None)
  /\ Add (Zero (currency (MYR 250))) (MYR 250) = (MYR 250, None).
Proof.
  refine (Add_commutative_monoid (MYR 250) (MYR 1050) (MYR 5) _ eq_refl
            eq_refl).
  by vm_compute.
Defined.

Lemma Add_overflow_unreported_witness :
  (Add (MYR int_max) (MYR 1)).2 = None
  /\ amount (Add (MYR int_max) (MYR 1)).1
     = amount (MYR int_max) + amount (MYR 1) - 2 ^ 64
  /\ IsNegative (Add (MYR int_max) (MYR 1)).1 = true.
Proof.
  refine (Add_overflow_unreported (MYR int_max) (MYR 1) _ _ eq_refl _).
  - by vm_compute.
  - by vm_compute.
  - by vm_compute.
Defined.

Lemma Money_comparisons_witness :
  (GreaterThan (MYR 2) (MYR 1), Equals (MYR 2) (MYR 1),
   GreaterThan (MYR 1) (MYR 2))
    ∈ [(true, false, false); (false, true, false); (false, false, true)]
  /\ GreaterThan (MYR 2) (NewMoney 1 CurrencyUSD) = false
  /\ GreaterThan (NewMoney 1 CurrencyUSD) (MYR 2) = false.
Proof.
  destruct (Money_comparisons (MYR 2) (MYR 1)) as (_ & Hsame & _ & _).
  destruct (Money_comparisons (MYR 2) (NewMoney 1 CurrencyUSD))
    as (_ & _ & Hdiff & _).
  destruct (Hdiff ltac:(done)) as (Hg & _ & Hl).
  split; [exact (Hsame eq_refl)|]. split; [exact Hg|exact Hl].
Defined.

End money_facts.

Module entity_facts.
Import domain.

Section Entity.
Context {TC : TimeCodec}.

(** The calls a service makes on an aggregate root between loading and
    saving it, with what the clock and the caller supply. *)
Inductive Call :=
  | CIncrementVersion (now : Time)
  | CSetVersion (v : Z)
  | CSoftDelete (now : Time) (deletedBy : option UUID)
  | CAddDomainEvent (event : DomainEvent)
  | CClearDomainEvents.

Definition on_base (f : BaseEntity -> BaseEntity) (ar : AggregateRoot)
  : AggregateRoot :=
  {| Auditable := {| Base := f (Base (Auditable ar));
                     CreatedBy := CreatedBy (Auditable ar);
                     UpdatedBy := UpdatedBy (Auditable ar);
                     DeletedAt := DeletedAt (Auditable ar) |};
     domainEvents := domainEvents ar |}.

Definition call (c : Call) (ar : AggregateRoot) : AggregateRoot :=
  match c with
  | CIncrementVersion now => on_base (IncrementVersion now) ar
  | CSetVersion v => on_base (SetVersion v) ar
  | CSoftDelete now by_ =>
      {| Auditable := SoftDelete now by_ (Auditable ar);
         domainEvents := domainEvents ar |}
  | CAddDomainEvent event => AddDomainEvent event ar
  | CClearDomainEvents => ClearDomainEvents ar
  end.

Definition calls (cs : list Call) (ar : AggregateRoot) : AggregateRoot :=
  foldl (fun ar c => call c ar) ar cs.

(** The events added by [cs] since the last clearing. *)
Fixpoint pending (acc : list DomainEvent) (cs : list Call)
  : list DomainEvent :=
  match cs with
  | [] => acc
  | CAddDomainEvent event :: cs' => pending (acc ++ [event]) cs'
  | CClearDomainEvents :: cs' => pending [] cs'
  | _ :: cs' => pending acc cs'
  end.

Fixpoint increments (cs : list Call) : Z :=
  match cs with
  | [] => 0
  | CIncrementVersion _ :: cs' => 1 + increments cs'
  | _ :: cs' => increments cs'
  end.

Lemma increments_nonneg cs : 0 <= increments cs.
Proof. induction cs as [|[] cs IH]; cbn [increments]; lia. Qed.

Definition sets_version (c : Call) : Prop :=
  match c with CSetVersion _ => True | _ => False end.

Lemma calls_events cs ar :
  GetDomainEvents (calls cs ar) = pending (domainEvents ar) cs.
Proof.
  revert ar. induction cs as [|c cs IH]; intros ar; [done|].
  cbn [calls foldl]. fold (calls cs (call c ar)). rewrite IH.
  by destruct c.
Qed.

Lemma calls_identity cs ar :
  ID (Base (Auditable (calls cs ar))) = ID (Base (Auditable ar))
  /\ CreatedAt (Base (Auditable (calls cs ar)))
     = CreatedAt (Base (Auditable ar))
  /\ CreatedBy (Auditable (calls cs ar)) = CreatedBy (Auditable ar)
  /\ (IsDeleted (Auditable ar) = true ->
      IsDeleted (Auditable (calls cs ar)) = true).
Proof.
  revert ar. induction cs as [|c cs IH]; intros ar; [done|].
  cbn [calls foldl]. fold (calls cs (call c ar)).
  destruct (IH (call c ar)) as (-> & -> & -> & Hd).
  repeat split; try by destruct c.
  intros Hdel. apply Hd. destruct c; try done.
Qed.

Lemma calls_version cs ar :
  Forall (fun c => ~ sets_version c) cs ->
  in_int (Version (Base (Auditable ar))) ->
  in_int (Version (Base (Auditable ar)) + increments cs) ->
  Version (Base (Auditable (calls cs ar)))
  = Version (Base (Auditable ar)) + increments cs.
Proof.
  intros Hcs. revert ar. induction Hcs as [|c cs Hc Hcs IH]; intros ar H0 Hr.
  { cbn. lia. }
  cbn [calls foldl]. fold (calls cs (call c ar)).
  pose proof (increments_nonneg cs) as Hn.
  destruct c; try (by destruct Hc); cbn [increments] in *.
  - assert (Hv : Version (Base (Auditable (call (CIncrementVersion now) ar)))
                 = Version (Base (Auditable ar)) + 1).
    { cbn. apply response_facts.wrap_int_id.
      unfold in_int, int_min, int_max in *. lia. }
    rewrite IH; rewrite Hv; unfold in_int, int_min, int_max in *; lia.
  - by rewrite IH.
  - by rewrite IH.
  - by rewrite IH.
Qed.

End Entity.

(** X18. Whatever is called on an aggregate root, its identity (ID, creation
    time, creator) stays, a soft-deleted root stays deleted (no method
    clears [DeletedAt]), and the pending events are those added since the
    last clearing, in the order added; [HasDomainEvents] says whether there
    are any. *)
Theorem aggregate_invariants {TC : TimeCodec} (cs : list Call)
    (ar : AggregateRoot) :
  ID (Base (Auditable (calls cs ar))) = ID (Base (Auditable ar))
  /\ CreatedAt (Base (Auditable (calls cs ar)))
     = CreatedAt (Base (Auditable ar))
  /\ CreatedBy (Auditable (calls cs ar)) = CreatedBy (Auditable ar)
  /\ (IsDeleted (Auditable ar) = true ->
      IsDeleted (Auditable (calls cs ar)) = true)
  /\ GetDomainEvents (calls cs ar) = pending (GetDomainEvents ar) cs
  /\ (HasDomainEvents (calls cs ar) = true
      <-> pending (GetDomainEvents ar) cs <> []).
Proof.
  destruct (calls_identity cs ar) as (H1 & H2 & H3 & H4).
  pose proof (calls_events cs ar) as H5.
  repeat split; try done.
  - unfold HasDomainEvents. unfold GetDomainEvents in H5. rewrite H5.
    intros Hlen Hnil. unfold GetDomainEvents in Hnil. rewrite Hnil in Hlen.
    done.
  - unfold HasDomainEvents. unfold GetDomainEvents in H5. rewrite H5.
    unfold GetDomainEvents. intros Hne.
    destruct (pending (domainEvents ar) cs); done.
Qed.

(** X19. The version counts the calls of [IncrementVersion]: a root made by
    [NewAggregateRoot] has version 1, and after calls among which none sets
    the version it is 1 plus the number of increments (short of the end of
    [int64]); soft deletion, adding and clearing events leave the version
    alone. *)
Theorem version_counts_increments {TC : TimeCodec} (id : UUID) (now : Time)
    (createdBy : option UUID) (cs : list Call) :
  Forall (fun c => ~ sets_version c) cs ->
  in_int (1 + increments cs) ->
  Version (Base (Auditable (calls cs (NewAggregateRoot id now createdBy))))
  = 1 + increments cs.
Proof.
  intros Hcs Hr. rewrite calls_version; [done|done| |done].
  cbn. unfold in_int, int_min, int_max. lia.
Qed.

Section Examples.
Local Existing Instance civil.codec.

Definition noon : civil.t :=
  {| civil.year := 2026; civil.month := 10; civil.day := 30;
     civil.hour := 12; civil.minute := 0; civil.second := 0 |}.

Definition order_placed : @DomainEvent civil.codec :=
  NewDomainEvent (TC := civil.codec) (replicate 16 Byte.x01) noon "order.placed"
    (replicate 16 Byte.x02) 1 [].

Definition edits : list (@Call civil.codec) :=
  [CAddDomainEvent order_placed; CIncrementVersion noon;
   CSoftDelete noon None; CIncrementVersion noon].

Definition order : @AggregateRoot civil.codec :=
  NewAggregateRoot (TC := civil.codec) (replicate 16 Byte.x02) noon None.

Lemma aggregate_invariants_witness :
  IsDeleted
    (Auditable
       (calls [@CIncrementVersion civil.codec noon; CClearDomainEvents]
          (calls edits order)))
  = true.
Proof.
  destruct (aggregate_invariants (TC := civil.codec)
              [@CIncrementVersion civil.codec noon; CClearDomainEvents]
              (calls edits order))
    as (_ & _ & _ & H & _).
  exact (H eq_refl).
Defined.

Lemma version_counts_increments_witness :
  Version (Base (Auditable (calls edits order))) = 1 + increments edits.
Proof.
  refine (version_counts_increments (TC := civil.codec)
            (replicate 16 Byte.x02) noon None edits _ _).
  - repeat constructor; by intros [].
  - by vm_compute.
Defined.

End Examples.

End entity_facts.

Module retry_facts.
Import resilience.

Section Retry.
Context {W : Type} (env : RetryEnv W) (config : RetryConfig)
  (operation : string).

(** The runs of the loop from attempt [a] on, with the error returned. *)
Inductive run : Z -> option error -> list Event -> Prop :=
  | run_success a : run a None [EvCall a None]
  | run_exhausted e :
      run (MaxRetries config) (Some e) [EvCall (MaxRetries config) (Some e)]
  | run_cancelled a e ce :
      a < MaxRetries config ->
      run a (Some ce)
        [EvCall a (Some e);
         EvWarn operation (a + 1) (delay_of env config a) e;
         EvWait (delay_of env config a) (Some ce)]
  | run_retry a e res evs :
      a < MaxRetries config ->
      run (a + 1) res evs ->
      run a res
        (EvCall a (Some e)
         :: EvWarn operation (a + 1) (delay_of env config a) e
         :: EvWait (delay_of env config a) None :: evs).

Lemma attempts_run left a lastErr w :
  0 <= a -> a + Z.of_nat left = MaxRetries config + 1 -> left <> 0%nat ->
  run a (attempts env config operation left a lastErr w).1.1
    (attempts env config operation left a lastErr w).2.
Proof.
  revert a lastErr w. induction left as [|left IH]; intros a lastErr w Ha Hsum Hl;
    [done|].
  cbn [attempts]. destruct (fn env w) as [[e|] w1]; [|constructor].
  destruct (Z.eqb_spec a (MaxRetries config)) as [->|Hne]; [constructor|].
  assert (Hlt : a < MaxRetries config) by lia.
  destruct (wait env (delay_of env config a) w1) as [[ce|] w2].
  { by constructor. }
  specialize (IH (a + 1) (Some e) w2 ltac:(lia) ltac:(lia) ltac:(lia)).
  destruct (attempts env config operation left (a + 1) (Some e) w2)
    as [[res w3] evs].
  cbn in *. by constructor.
Qed.

Definition calls (evs : list Event) : list Z :=
  omap (fun ev => match ev with EvCall a _ => Some a | _ => None end) evs.

Lemma run_calls a res evs :
  run a res evs -> a <= MaxRetries config ->
  exists n : nat,
    calls evs = map (fun i => a + Z.of_nat i) (seq 0 (S n))
    /\ a + Z.of_nat n <= MaxRetries config.
Proof.
  induction 1 as [a|e|a e ce Hlt|a e res evs Hlt Hrun IH]; intros Ha.
  - exists 0%nat. cbn. rewrite Z.add_0_r. split; [done|lia].
  - exists 0%nat. cbn. rewrite Z.add_0_r. split; [done|lia].
  - exists 0%nat. cbn. rewrite !Z.add_0_r. split; [done|lia].
  - destruct (IH ltac:(lia)) as (n & Hc & Hle).
    exists (S n). split; [|lia].
    replace (calls (EvCall a (Some e)
                    :: EvWarn operation (a + 1) (delay_of env config a) e
                    :: EvWait (delay_of env config a) None :: evs))
      with (a :: calls evs) by done.
    rewrite Hc.
    change (seq 0 (S (S n))) with (0%nat :: seq 1 (S n)).
    cbn [map]. rewrite Z.add_0_r. f_equal.
    rewrite <- seq_shift, map_map. apply map_ext. intros i. lia.
Qed.

Lemma run_nonempty a res evs : run a res evs -> evs <> [].
Proof. by destruct 1. Qed.

Lemma run_last a res evs :
  run a res evs ->
  match last evs with
  | Some (EvCall k None) => res = None
  | Some (EvCall k (Some e)) => res = Some e /\ k = MaxRetries config
  | Some (EvWait _ (Some ce)) => res = Some ce
  | _ => False
  end.
Proof.
  induction 1 as [a|e|a e ce Hlt|a e res evs Hlt Hrun IH]; try done.
  pose proof (run_nonempty _ _ _ Hrun) as Hne.
  destruct evs as [|ev evs]; [done|]. exact IH.
Qed.

Lemma run_success_last a res evs :
  run a res evs ->
  forall pre k post, evs = pre ++ EvCall k None :: post -> post = [].
Proof.
  induction 1 as [a|e|a e ce Hlt|a e res evs Hlt Hrun IH];
    intros pre k post Heq.
  - destruct pre as [|? [|? ?]]; simplify_eq/=; done.
  - destruct pre as [|? [|? ?]]; simplify_eq/=.
  - destruct pre as [|? [|? [|? [|? ?]]]]; simplify_eq/=.
  - destruct pre as [|? [|? [|? pre]]]; simplify_eq/=. eauto.
Qed.

Lemma run_waits a res evs :
  run a res evs -> 0 <= a ->
  forall pre d c post,
    evs = pre ++ EvWait d c :: post ->
    exists k e pre',
      a <= k < MaxRetries config
      /\ d = delay_of env config k
      /\ pre = pre' ++ [EvCall k (Some e); EvWarn operation (k + 1) d e].
Proof.
  induction 1 as [a|e|a e ce Hlt|a e res evs Hlt Hrun IH];
    intros Ha pre d c post Heq.
  - destruct pre as [|? [|? ?]]; simplify_eq/=.
  - destruct pre as [|? [|? ?]]; simplify_eq/=.
  - destruct pre as [|? [|? [|? [|? ?]]]]; simplify_eq/=.
    exists a, e, []. split; [lia|]. done.
  - destruct pre as [|? [|? [|? pre]]]; simplify_eq/=.
    + exists a, e, []. split; [lia|]. done.
    + destruct (IH ltac:(lia) _ _ _ _ eq_refl) as (k & e' & pre' & Hk & -> & ->).
      exists k, e',
        (EvCall a (Some e)
         :: EvWarn operation (a + 1) (delay_of env config a) e
         :: EvWait (delay_of env config a) None :: pre').
      split; [lia|]. done.
Qed.

Lemma delay_of_capped k : delay_of env config k <= MaxDelay config.
Proof.
  unfold delay_of.
  destruct (Z.ltb_spec (MaxDelay config) (backoff env (BaseDelay config) k));
    lia.
Qed.

Lemma delay_of_exact k :
  0 <= k <= 1023 ->
  0 <= BaseDelay config < 2 ^ 53 ->
  BaseDelay config * 2 ^ k < 2 ^ 63 ->
  delay_of env config k = Z.min (BaseDelay config * 2 ^ k) (MaxDelay config).
Proof.
  intros Hk Hb Hp. unfold delay_of, backoff.
  assert (0 <= BaseDelay config * 2 ^ k).
  { apply Z.mul_nonneg_nonneg; [lia|]. apply Z.pow_nonneg. lia. }
  assert (((0 <=? k) && (k <=? 1023)
           && (- 2 ^ 53 <? BaseDelay config) && (BaseDelay config <? 2 ^ 53)
           && (- 2 ^ 63 <? BaseDelay config * 2 ^ k)
           && (BaseDelay config * 2 ^ k <? 2 ^ 63)) = true) as ->.
  { repeat (apply andb_true_iff; split); lia. }
  destruct (Z.ltb_spec (MaxDelay config) (BaseDelay config * 2 ^ k)); lia.
Qed.

End Retry.

(** X20. [WithRetry] calls the operation at most [MaxRetries + 1] times, the
    attempts being numbered from 0 without gaps, and at least once when
    [MaxRetries] is not negative.  With a negative [MaxRetries] the
    operation is never called and nil is returned. *)
Theorem WithRetry_calls {W : Type} (env : RetryEnv W) (config : RetryConfig)
    (operation : string) (w : W) :
  (MaxRetries config < 0 ->
   WithRetry env config operation w = (None, w, []))
  /\ (0 <= MaxRetries config ->
      exists n : nat,
        calls (WithRetry env config operation w).2
        = map Z.of_nat (seq 0 (S n))
        /\ Z.of_nat n <= MaxRetries config).
Proof.
  unfold WithRetry. split; intros Hm.
  - replace (Z.to_nat (MaxRetries config + 1)) with 0%nat by lia. done.
  - pose proof (attempts_run env config operation
                  (Z.to_nat (MaxRetries config + 1)) 0 None w
                  ltac:(lia) ltac:(lia) ltac:(lia)) as Hrun.
    destruct (run_calls env config operation _ _ _ Hrun Hm) as (n & Hc & Hle).
    exists n. split; [|lia]. rewrite Hc. apply map_ext. intros i. lia.
Qed.

(** X21. How a run of [WithRetry] ends, for [MaxRetries] not negative: with a
    successful call, and then nil is returned; or with the failure of
    attempt number [MaxRetries], and then that error is returned; or with a
    wait cut short by the context, and then the error of the context is
    returned, not the one of the operation.  A successful call is the last
    thing that happens. *)
Theorem WithRetry_outcome {W : Type} (env : RetryEnv W) (config : RetryConfig)
    (operation : string) (w : W) :
  0 <= MaxRetries config ->
  match last (WithRetry env config operation w).2 with
  | Some (EvCall k None) => (WithRetry env config operation w).1.1 = None
  | Some (EvCall k (Some e)) =>
      (WithRetry env config operation w).1.1 = Some e
      /\ k = MaxRetries config
  | Some (EvWait _ (Some ce)) =>
      (WithRetry env config operation w).1.1 = Some ce
  | _ => False
  end
  /\ forall pre k post,
       (WithRetry env config operation w).2 = pre ++ EvCall k None :: post ->
       post = [].
Proof.
  intros Hm. unfold WithRetry.
  pose proof (attempts_run env config operation
                (Z.to_nat (MaxRetries config + 1)) 0 None w
                ltac:(lia) ltac:(lia) ltac:(lia)) as Hrun.
  split.
  - exact (run_last env config operation _ _ _ Hrun).
  - exact (run_success_last env config operation _ _ _ Hrun).
Qed.

(** X22. The waits of [WithRetry]: each follows a failed attempt [k] below
    [MaxRetries] and its warning, lasts [delay_of k], which is never more
    than [MaxDelay], and is the base delay doubled [k] times or [MaxDelay],
    whichever is less, as long as that product is a number the clock can
    hold. *)
Theorem WithRetry_delays {W : Type} (env : RetryEnv W) (config : RetryConfig)
    (operation : string) (w : W) :
  forall pre d c post,
    (WithRetry env config operation w).2 = pre ++ EvWait d c :: post ->
    d <= MaxDelay config
    /\ exists k e pre',
         0 <= k < MaxRetries config
         /\ pre = pre' ++ [EvCall k (Some e); EvWarn operation (k + 1) d e]
         /\ d = delay_of env config k
         /\ (k <= 1023 -> 0 <= BaseDelay config < 2 ^ 53 ->
             BaseDelay config * 2 ^ k < 2 ^ 63 ->
             d = Z.min (BaseDelay config * 2 ^ k) (MaxDelay config)).
Proof.
  intros pre d c post Heq. unfold WithRetry in Heq.
  destruct (Z.lt_ge_cases (MaxRetries config) 0) as [Hneg|Hm].
  { replace (Z.to_nat (MaxRetries config + 1)) with 0%nat in Heq by lia.
    by destruct pre. }
  pose proof (attempts_run env config operation
                (Z.to_nat (MaxRetries config + 1)) 0 None w
                ltac:(lia) ltac:(lia) ltac:(lia)) as Hrun.
  destruct (run_waits env config operation _ _ _ Hrun ltac:(lia) _ _ _ _ Heq)
    as (k & e & pre' & Hk & -> & ->).
  split; [apply delay_of_capped|].
  exists k, e, pre'. repeat split; try done; try lia.
  intros Hk' Hb Hp. apply delay_of_exact; [lia|done|done].
Qed.

Section Examples.

(** An operation that times out twice and then succeeds (the world counts
    the calls), waits that are never cut short, and the conversion of an
    over-large product as an amd64 machine makes it. *)
Definition flaky : RetryEnv nat :=
  {| fn := fun n =>
       (if (n <? 2)%nat then Some (External "timeout") else None, S n);
     wait := fun _ n => (None, n);
     out_of_range := fun _ _ => - 2 ^ 63 |}.

(** The same when the context is cancelled during the first wait. *)
Definition cancelled : RetryEnv nat :=
  {| fn := fun n => (Some (External "timeout"), S n);
     wait := fun _ n => (Some Canceled, n);
     out_of_range := fun _ _ => - 2 ^ 63 |}.

Example WithRetry_run :
  WithRetry flaky DefaultRetryConfig "charge" 0%nat
  = (None, 3%nat,
     [EvCall 0 (Some (External "timeout"));
      EvWarn "charge" 1 100000000 (External "timeout");
      EvWait 100000000 None;
      EvCall 1 (Some (External "timeout"));
      EvWarn "charge" 2 200000000 (External "timeout");
      EvWait 200000000 None;
      EvCall 2 None]).
Proof. reflexivity. Qed.

Lemma WithRetry_calls_witness :
  WithRetry flaky {| MaxRetries := -1; BaseDelay := 1; MaxDelay := 1 |}
    "charge" 0%nat
  = (None, 0%nat, [])
  /\ exists n : nat,
       calls (WithRetry flaky DefaultRetryConfig "charge" 0%nat).2
       = map Z.of_nat (seq 0 (S n))
       /\ Z.of_nat n <= MaxRetries DefaultRetryConfig.
Proof.
  split.
  - refine (proj1 (WithRetry_calls flaky
                     {| MaxRetries := -1; BaseDelay := 1; MaxDelay := 1 |}
                     "charge" 0%nat) _).
    reflexivity.
  - refine (proj2 (WithRetry_calls flaky DefaultRetryConfig "charge" 0%nat) _).
    by vm_compute.
Defined.

Lemma WithRetry_outcome_witness :
  (WithRetry flaky DefaultRetryConfig "charge" 0%nat).1.1 = None
  /\ (WithRetry cancelled DefaultRetryConfig "charge" 0%nat).1.1
     = Some Canceled.
Proof.
  split.
  - refine (proj1 (WithRetry_outcome flaky DefaultRetryConfig "charge" 0%nat _)).
    by vm_compute.
  - refine (proj1 (WithRetry_outcome cancelled DefaultRetryConfig "charge"
                     0%nat _)).
    by vm_compute.
Defined.

Lemma WithRetry_delays_witness :
  200000000 <= MaxDelay DefaultRetryConfig
  /\ exists k e pre',
       0 <= k < MaxRetries DefaultRetryConfig
       /\ [EvCall 0 (Some (External "timeout"));
           EvWarn "charge" 1 100000000 (External "timeout");
           EvWait 100000000 None;
           EvCall 1 (Some (External "timeout"));
           EvWarn "charge" 2 200000000 (External "timeout")]
          = pre' ++ [EvCall k (Some e); EvWarn "charge" (k + 1) 200000000 e]
       /\ 200000000 = delay_of flaky DefaultRetryConfig k
       /\ (k <= 1023 -> 0 <= BaseDelay DefaultRetryConfig < 2 ^ 53 ->
           BaseDelay DefaultRetryConfig * 2 ^ k < 2 ^ 63 ->
           200000000
           = Z.min (BaseDelay DefaultRetryConfig * 2 ^ k)
               (MaxDelay DefaultRetryConfig)).
Proof.
  exact (WithRetry_delays flaky DefaultRetryConfig "charge" 0%nat
           [EvCall 0 (Some (External "timeout"));
            EvWarn "charge" 1 100000000 (External "timeout");
            EvWait 100000000 None;
            EvCall 1 (Some (External "timeout"));
            EvWarn "charge" 2 200000000 (External "timeout")]
           200000000 None [EvCall 2 None] eq_refl).
Defined.

End Examples.

End retry_facts.

Module ratelimit_facts.
Import middleware.

Section Limit.
Context (maxRequests window : Z).

(** The decision on a request and the entry it leaves depend on the entry
    of its address only, and no other entry is touched. *)
Lemma RateLimit_local ip t1 t2 vs vs' :
  vs !! ip = vs' !! ip ->
  (RateLimit maxRequests window ip t1 t2 vs).1
  = (RateLimit maxRequests window ip t1 t2 vs').1
  /\ (RateLimit maxRequests window ip t1 t2 vs).2 !! ip
     = (RateLimit maxRequests window ip t1 t2 vs').2 !! ip.
Proof.
  intros H. unfold RateLimit. rewrite <- H.
  destruct (vs !! ip) as [v|]; cbn; [|by rewrite !lookup_insert_eq].
  destruct (window <? Since t1 (lastSeen v)); cbn;
    [by rewrite !lookup_insert_eq|].
  destruct (maxRequests <? wrap_int (count v + 1)); cbn;
    by rewrite !lookup_insert_eq.
Qed.

Lemma RateLimit_other ip ip' t1 t2 vs :
  ip' <> ip ->
  (RateLimit maxRequests window ip t1 t2 vs).2 !! ip' = vs !! ip'.
Proof.
  intros H. unfold RateLimit.
  destruct (vs !! ip) as [v|]; cbn; [|by rewrite lookup_insert_ne].
  destruct (window <? Since t1 (lastSeen v)); cbn;
    [by rewrite lookup_insert_ne|].
  destruct (maxRequests <? wrap_int (count v + 1)); cbn;
    by rewrite lookup_insert_ne.
Qed.

(** The requests of one address, and the decisions on them. *)
Definition from (ip : string) (reqs : list (string * Z * Z))
  : list (string * Z * Z) :=
  List.filter (fun r => bool_decide (r.1.1 = ip)) reqs.

Definition decisions (ip : string) (os : list (string * Outcome))
  : list Outcome :=
  map snd (List.filter (fun o => bool_decide (o.1 = ip)) os).

Lemma serve_local ip reqs :
  forall vs vs',
    vs !! ip = vs' !! ip ->
    decisions ip (serve maxRequests window reqs vs).1
    = decisions ip (serve maxRequests window (from ip reqs) vs').1
    /\ (serve maxRequests window reqs vs).2 !! ip
       = (serve maxRequests window (from ip reqs) vs').2 !! ip.
Proof.
  induction reqs as [|[[ip0 t1] t2] reqs IH]; intros vs vs' H; [done|].
  cbn [serve from List.filter fst].
  destruct (decide (ip0 = ip)) as [->|Hne].
  - rewrite bool_decide_eq_true_2 by done. cbn [serve].
    destruct (RateLimit_local ip t1 t2 vs vs' H) as [Ho Hv].
    destruct (RateLimit maxRequests window ip t1 t2 vs) as [o vs1].
    destruct (RateLimit maxRequests window ip t1 t2 vs') as [o' vs1'].
    cbn [fst snd] in *. subst o'.
    destruct (IH vs1 vs1' Hv) as [IH1 IH2]. fold (from ip reqs) in *.
    destruct (serve maxRequests window reqs vs1) as [os vs2].
    destruct (serve maxRequests window (from ip reqs) vs1') as [os' vs2'].
    cbn [fst snd] in *. unfold decisions in *. cbn [List.filter fst].
    rewrite bool_decide_eq_true_2 by done. cbn [map snd].
    by rewrite IH1.
  - rewrite bool_decide_eq_false_2 by done. fold (from ip reqs).
    pose proof (RateLimit_other ip0 ip t1 t2 vs ltac:(done)) as Hv.
    destruct (RateLimit maxRequests window ip0 t1 t2 vs) as [o vs1].
    cbn [snd] in Hv.
    destruct (IH vs1 vs' ltac:(by rewrite Hv)) as [IH1 IH2].
    destruct (serve maxRequests window reqs vs1) as [os vs2].
    cbn [fst snd] in *. unfold decisions in *. cbn [List.filter fst].
    by rewrite bool_decide_eq_false_2 by done.
Qed.

(** A burst: each request comes within [window] of the one before. *)
Fixpoint in_burst (last : Z) (times : list (Z * Z)) : Prop :=
  match times with
  | [] => True
  | (t1, t2) :: rest => Since t1 last <= window /\ in_burst t2 rest
  end.

Definition requests (ip : string) (times : list (Z * Z))
  : list (string * Z * Z) :=
  map (fun t => (ip, t.1, t.2)) times.

(** The decision on the request that brings the count to [c]. *)
Definition verdict (c : Z) : Outcome :=
  if maxRequests <? c then refuse 429 "rate limit exceeded" else Next.

Lemma serve_burst ip times :
  forall vs c last,
    vs !! ip = Some {| count := c; lastSeen := last |} ->
    in_burst last times ->
    0 <= c -> c + Z.of_nat (length times) <= int_max ->
    (serve maxRequests window (requests ip times) vs).1
    = imap (fun k _ => (ip, verdict (c + Z.of_nat k + 1))) times
    /\ option_map count
         ((serve maxRequests window (requests ip times) vs).2 !! ip)
       = Some (c + Z.of_nat (length times)).
Proof.
  induction times as [|[t1 t2] times IH]; intros vs c last Hv Hb Hc Hn.
  { cbn. rewrite Hv. cbn. split; [done|]. f_equal. lia. }
  cbn [requests map serve fst snd]. destruct Hb as [Hgap Hb].
  unfold RateLimit. rewrite Hv. cbn [lastSeen count].
  assert ((window <? Since t1 last) = false) as -> by (by apply Z.ltb_ge).
  cbn [length] in Hn.
  assert (Hw : wrap_int (c + 1) = c + 1).
  { unfold wrap_int, int_min, int_max in *. rewrite Z.mod_small; lia. }
  rewrite Hw.
  set (vs1 := <[ip := {| count := c + 1; lastSeen := t2 |}]> vs).
  assert (Hv1 : vs1 !! ip = Some {| count := c + 1; lastSeen := t2 |})
    by apply lookup_insert_eq.
  destruct (IH vs1 (c + 1) t2 Hv1 Hb ltac:(lia) ltac:(lia)) as [IH1 IH2].
  fold (requests ip times) in *.
  assert (Hstep :
    (if maxRequests <? c + 1
     then (refuse 429 "rate limit exceeded", vs1) else (Next, vs1))
    = (verdict (c + 1), vs1)).
  { unfold verdict. by destruct (maxRequests <? c + 1). }
  rewrite Hstep.
  destruct (serve maxRequests window (requests ip times) vs1) as [os vs2].
  cbn [fst snd] in *. split.
  - cbn [imap]. rewrite Z.add_0_r. f_equal. rewrite IH1.
    apply imap_ext. intros k x _. cbn. do 2 f_equal. lia.
  - rewrite IH2. f_equal. cbn [length]. lia.
Qed.

Lemma Since_mono now now' t : now <= now' -> Since now t <= Since now' t.
Proof. unfold Since. lia. Qed.

End Limit.

(** X23. The limiter keeps the addresses apart: the decisions on the requests
    of one address, and the entry they leave, are what they would be had
    no other address sent anything. *)
Theorem RateLimit_isolation (maxRequests window : Z) (ip : string)
    (reqs : list (string * Z * Z)) (visitors : gmap string visitor) :
  decisions ip (serve maxRequests window reqs visitors).1
  = decisions ip (serve maxRequests window (from ip reqs) visitors).1
  /\ (serve maxRequests window reqs visitors).2 !! ip
     = (serve maxRequests window (from ip reqs) visitors).2 !! ip.
Proof. by apply serve_local. Qed.

(** X24. A burst from an address not seen before: the first request is let
    through whatever the limit, request number [k] after it is let through
    exactly when [k <= maxRequests], and the count goes on growing while
    the burst lasts, so a client that keeps sending after its refusal stays
    refused. *)
Theorem RateLimit_burst (maxRequests window : Z) (ip : string)
    (t1 t2 : Z) (times : list (Z * Z)) (visitors : gmap string visitor) :
  visitors !! ip = None ->
  in_burst window t1 times ->
  1 + Z.of_nat (length times) <= int_max ->
  (serve maxRequests window (requests ip ((t1, t2) :: times)) visitors).1
  = (ip, Next)
    :: imap (fun k _ => (ip, verdict maxRequests (Z.of_nat k + 2))) times
  /\ option_map count
       ((serve maxRequests window (requests ip ((t1, t2) :: times))
           visitors).2 !! ip)
     = Some (1 + Z.of_nat (length times)).
Proof.
  intros Hnew Hb Hn. cbn [requests map serve fst snd].
  set (vs1 := <[ip := {| count := 1; lastSeen := t1 |}]> visitors).
  assert (Hfirst : RateLimit maxRequests window ip t1 t2 visitors
                   = (Next, vs1)).
  { unfold RateLimit. by rewrite Hnew. }
  rewrite Hfirst.
  assert (Hv1 : vs1 !! ip = Some {| count := 1; lastSeen := t1 |})
    by apply lookup_insert_eq.
  destruct (serve_burst maxRequests window ip times vs1 1 t1 Hv1 Hb
              ltac:(lia) Hn) as [H1 H2].
  cbv beta iota. fold (requests ip times).
  destruct (serve maxRequests window (requests ip times) vs1) as [os vs2].
  cbn [fst snd] in *. split; [|done].
  f_equal. rewrite H1. apply imap_ext. intros k x _. cbn. do 2 f_equal. lia.
Qed.

(** X25. The cleanup is not seen by the clients: a round of it before a
    request changes neither the decision on the request nor the count the
    request leaves (an entry it removes is one the handler would have
    started afresh). *)
Theorem cleanup_transparent (maxRequests window : Z) (now : string -> Z)
    (ip : string) (t1 t2 : Z) (visitors : gmap string visitor) :
  now ip <= t1 ->
  (RateLimit maxRequests window ip t1 t2 (cleanup window now visitors)).1
  = (RateLimit maxRequests window ip t1 t2 visitors).1
  /\ option_map count
       ((RateLimit maxRequests window ip t1 t2
           (cleanup window now visitors)).2 !! ip)
     = option_map count
         ((RateLimit maxRequests window ip t1 t2 visitors).2 !! ip).
Proof.
  intros Hnow. unfold RateLimit, cleanup.
  destruct (visitors !! ip) as [v|] eqn:Hv.
  - destruct (decide (window < Since (now ip) (lastSeen v))) as [Hold|Hfresh].
    + assert (Hgone : filter (fun kv : string * visitor =>
                ~ (window < Since (now kv.1) (lastSeen kv.2))) visitors !! ip
              = None).
      { apply map_lookup_filter_None. right. intros v' Hv'.
        rewrite Hv in Hv'. injection Hv' as <-. cbn. tauto. }
      rewrite Hgone.
      pose proof (Since_mono (now ip) t1 (lastSeen v) Hnow).
      assert ((window <? Since t1 (lastSeen v)) = true) as ->
        by (apply Z.ltb_lt; lia).
      cbn. by rewrite !lookup_insert_eq.
    + assert (Hkept : filter (fun kv : string * visitor =>
                ~ (window < Since (now kv.1) (lastSeen kv.2))) visitors !! ip
              = Some v).
      { apply map_lookup_filter_Some. split; [done|]. cbn. tauto. }
      rewrite Hkept.
      destruct (window <? Since t1 (lastSeen v)); cbn;
        [by rewrite !lookup_insert_eq|].
      destruct (maxRequests <? wrap_int (count v + 1)); cbn;
        by rewrite !lookup_insert_eq.
  - assert (Hnone : filter (fun kv : string * visitor =>
                ~ (window < Since (now kv.1) (lastSeen kv.2))) visitors !! ip
              = None).
    { apply map_lookup_filter_None. by left. }
    rewrite Hnone. cbn. by rewrite !lookup_insert_eq.
Qed.

Section Examples.

(** Three requests of one address within a second of each other, under a
    limit of two requests a minute (times in nanoseconds). *)
Definition three_quick : list (Z * Z) :=
  [(1000000000, 1000000010); (1500000000, 1500000010)].

Lemma RateLimit_burst_witness :
  (serve 2 60000000000 (requests "10.0.0.7" ((0, 10) :: three_quick)) ∅).1
  = ("10.0.0.7", Next)
    :: imap (fun k _ => ("10.0.0.7", verdict 2 (Z.of_nat k + 2))) three_quick
  /\ option_map count
       ((serve 2 60000000000 (requests "10.0.0.7" ((0, 10) :: three_quick))
           ∅).2 !! "10.0.0.7")
     = Some (1 + Z.of_nat (length three_quick)).
Proof.
  refine (RateLimit_burst 2 60000000000 "10.0.0.7" 0 10 three_quick ∅ _ _ _).
  - apply lookup_empty.
  - by vm_compute.
  - by vm_compute.
Defined.

(** What that comes to: the third request is refused. *)
Example burst_run :
  map snd
    (serve 2 60000000000 (requests "10.0.0.7" ((0, 10) :: three_quick)) ∅).1
  = [Next; Next; refuse 429 "rate limit exceeded"].
Proof. reflexivity. Qed.

Lemma cleanup_transparent_witness :
  (RateLimit 2 60000000000 "10.0.0.7" 90000000000 90000000010
     (cleanup 60000000000 (fun _ => 80000000000)
        {[ "10.0.0.7" := {| count := 5; lastSeen := 10 |} ]})).1
  = (RateLimit 2 60000000000 "10.0.0.7" 90000000000 90000000010
       {[ "10.0.0.7" := {| count := 5; lastSeen := 10 |} ]}).1.
Proof.
  refine (proj1 (cleanup_transparent 2 60000000000 (fun _ => 80000000000)
                   "10.0.0.7" 90000000000 90000000010
                   {[ "10.0.0.7" := {| count := 5; lastSeen := 10 |} ]} _)).
  by vm_compute.
Defined.

End Examples.

End ratelimit_facts.

Module auth_facts.
Import middleware.

(** No space in a text. *)
Fixpoint spaceless (s : string) : bool :=
  match s with
  | EmptyString => true
  | String c rest => negb (Ascii.eqb c " ") && spaceless rest
  end.

Lemma SplitN2_spec s scheme token :
  SplitN2 s = Some (scheme, token) ->
  s = scheme +:+ " " +:+ token /\ spaceless scheme = true.
Proof.
  revert scheme. induction s as [|c s IH]; intros scheme H; [done|].
  cbn [SplitN2] in H. destruct (Ascii.eqb c " ") eqn:Hc.
  - apply Ascii.eqb_eq in Hc. subst c. injection H as <- <-. by split.
  - destruct (SplitN2 s) as [[a b]|]; [|done].
    injection H as <- <-. destruct (IH a eq_refl) as [-> Hns].
    split; [done|]. cbn [spaceless]. by rewrite Hc, Hns.
Qed.

Lemma SplitN2_join scheme token :
  spaceless scheme = true ->
  SplitN2 (scheme +:+ " " +:+ token) = Some (scheme, token).
Proof.
  induction scheme as [|c scheme IH]; intros H; [done|].
  cbn [spaceless] in H. apply andb_true_iff in H. destruct H as [Hc Hs].
  apply negb_true_iff in Hc.
  change (String c scheme +:+ " " +:+ token)
    with (String c (scheme +:+ " " +:+ token)).
  cbn [SplitN2]. by rewrite Hc, IH.
Qed.

Section Auth.
Context (ParseWithClaims : string -> result (auth.Claims * bool))
        (unicode_ToLower : string -> string).

(** The context keys after the middleware has let a request through. *)
Definition signed_in (claims : auth.Claims) (keys : gmap string any)
  : gmap string any :=
  <[ContextKeyRole := AnyRole (auth.Role claims)]>
    (<[ContextKeyEmail := AnyString (auth.Email claims)]>
       (<[ContextKeyUserID := AnyUUID (auth.UserID claims)]> keys)).

Lemma ValidateAccessToken_Ok token claims :
  auth.ValidateAccessToken ParseWithClaims token = Ok claims <->
  ParseWithClaims token = Ok (claims, true)
  /\ auth.TokenType claims = auth.AccessToken.
Proof.
  unfold auth.ValidateAccessToken, auth.ValidateToken.
  destruct (ParseWithClaims token) as [[c valid]|err].
  - destruct valid.
    + destruct (decide (auth.TokenType c = auth.AccessToken)) as [Ht|Ht].
      * rewrite bool_decide_eq_false_2 by (intros H; by apply H).
        split; [by intros [= ->]|by intros [[= ->] _]].
      * rewrite bool_decide_eq_true_2 by done.
        split; [done|]. intros [[= ->] H]. done.
    + split; [done|]. by intros [[=] _].
  - split; [done|]. by intros [[=] _].
Qed.

End Auth.

(** X26. [AuthMiddleware] lets a request through exactly when its header is a
    scheme, one space and a token, the scheme is [bearer] in lower case,
    the parser accepts the token as valid and the token is an access token
    (a valid refresh token is turned away); the context then holds the
    user, email and role of the claims, which [GetUserID] and
    [GetUserRole] give back.  Every other request is answered 401 and the
    context is left as it was. *)
Theorem AuthMiddleware_admission
    (ParseWithClaims : string -> result (auth.Claims * bool))
    (unicode_ToLower : string -> string)
    (authHeader : string) (keys : gmap string any) :
  let r := AuthMiddleware ParseWithClaims unicode_ToLower authHeader keys in
  (r.1 = Next ->
   exists scheme token claims,
     authHeader = scheme +:+ " " +:+ token
     /\ spaceless scheme = true
     /\ ToLower unicode_ToLower scheme = "bearer"
     /\ ParseWithClaims token = Ok (claims, true)
     /\ auth.TokenType claims = auth.AccessToken
     /\ r.2 = signed_in claims keys
     /\ GetUserID r.2 = (auth.UserID claims, true)
     /\ GetUserRole r.2 = (auth.Role claims, true))
  /\ (r.1 <> Next -> exists text, r = (refuse 401 text, keys))
  /\ (forall scheme token claims,
      authHeader = scheme +:+ " " +:+ token ->
      spaceless scheme = true ->
      ToLower unicode_ToLower scheme = "bearer" ->
      ParseWithClaims token = Ok (claims, true) ->
      auth.TokenType claims = auth.AccessToken ->
      r = (Next, signed_in claims keys)).
Proof.
  cbn zeta. split; [|split].
  - unfold AuthMiddleware.
    destruct (bool_decide (authHeader = "")); [done|].
    destruct (SplitN2 authHeader) as [[scheme token]|] eqn:Hsplit; [|done].
    destruct (decide (ToLower unicode_ToLower scheme = "bearer")) as [Hb|Hb].
    2:{ by rewrite bool_decide_eq_true_2. }
    rewrite bool_decide_eq_false_2 by (intros H; by apply H).
    destruct (auth.ValidateAccessToken ParseWithClaims token) as [claims|err]
      eqn:Hv; [|done].
    apply ValidateAccessToken_Ok in Hv. destruct Hv as [Hp Ht].
    destruct (SplitN2_spec _ _ _ Hsplit) as [Hh Hns].
    intros _. exists scheme, token, claims.
    cbn [snd]. repeat split; try done.
    + unfold GetUserID, ContextKeyRole, ContextKeyEmail, ContextKeyUserID.
      rewrite !lookup_insert_ne by done. by rewrite lookup_insert_eq.
    + unfold GetUserRole. by rewrite lookup_insert_eq.
  - unfold AuthMiddleware.
    destruct (bool_decide (authHeader = "")); [eauto|].
    destruct (SplitN2 authHeader) as [[scheme token]|]; [|eauto].
    destruct (bool_decide (ToLower unicode_ToLower scheme <> "bearer"));
      [eauto|].
    destruct (auth.ValidateAccessToken ParseWithClaims token); [done|eauto].
  - intros scheme token claims -> Hns Hb Hp Ht. unfold AuthMiddleware.
    rewrite bool_decide_eq_false_2 by (by destruct scheme).
    rewrite (SplitN2_join _ _ Hns).
    rewrite bool_decide_eq_false_2 by (intros H; by apply H).
    assert (Hv : auth.ValidateAccessToken ParseWithClaims token = Ok claims)
      by (by apply ValidateAccessToken_Ok).
    by rewrite Hv.
Qed.

(** X27. After [AuthMiddleware] has let a request through, [RequireRole] lets
    it on exactly when the role of the token is one of the roles named, and
    answers 403 otherwise, never 401 or 500; with no role named it refuses
    everyone.  A request that did not pass [AuthMiddleware] (no role in the
    context) is answered 401. *)
Theorem RequireRole_after_AuthMiddleware
    (ParseWithClaims : string -> result (auth.Claims * bool))
    (unicode_ToLower : string -> string)
    (authHeader : string) (keys : gmap string any) (roles : list string) :
  let r := AuthMiddleware ParseWithClaims unicode_ToLower authHeader keys in
  (r.1 = Next ->
   exists claims,
     r.2 = signed_in claims keys
     /\ (auth.Role claims ∈ roles -> RequireRole roles r.2 = Next)
     /\ (auth.Role claims ∉ roles ->
         RequireRole roles r.2 = refuse 403 "insufficient permissions")
     /\ RequireRole [] r.2 = refuse 403 "insufficient permissions")
  /\ (keys !! ContextKeyRole = None ->
      RequireRole roles keys = refuse 401 "authentication required").
Proof.
  cbn zeta. split.
  - unfold AuthMiddleware.
    destruct (bool_decide (authHeader = "")); [done|].
    destruct (SplitN2 authHeader) as [[scheme token]|]; [|done].
    destruct (bool_decide (ToLower unicode_ToLower scheme <> "bearer"));
      [done|].
    destruct (auth.ValidateAccessToken ParseWithClaims token) as [claims|err];
      [|done].
    intros _. exists claims. cbn [snd]. split; [done|].
    unfold RequireRole. rewrite lookup_insert_eq.
    split; [|split].
    + intros Hin. by rewrite bool_decide_eq_true_2.
    + intros Hout. by rewrite bool_decide_eq_false_2.
    + rewrite bool_decide_eq_false_2; [done|]. by intros ?%elem_of_nil.
  - intros Hnone. unfold RequireRole. by rewrite Hnone.
Qed.

Section Examples.

Definition alice : auth.Claims :=
  {| auth.UserID := replicate 16 Byte.x07; auth.Email := "alice@example.com";
     auth.Role := auth.RoleOwner; auth.TokenType := auth.AccessToken |}.

(** A parser that knows two tokens, both valid: an access token and a
    refresh token of the same user. *)
Definition parser (token : string) : result (auth.Claims * bool) :=
  if bool_decide (token = "a.b.c") then Ok (alice, true)
  else if bool_decide (token = "r.e.f") then
    Ok ({| auth.UserID := auth.UserID alice; auth.Email := "";
           auth.Role := ""; auth.TokenType := auth.RefreshToken |}, true)
  else Error (External "token is malformed").

Lemma AuthMiddleware_admission_witness :
  (exists scheme token claims,
     "BeArEr a.b.c" = scheme +:+ " " +:+ token
     /\ spaceless scheme = true
     /\ ToLower id scheme = "bearer"
     /\ parser token = Ok (claims, true)
     /\ auth.TokenType claims = auth.AccessToken
     /\ (AuthMiddleware parser id "BeArEr a.b.c" ∅).2 = signed_in claims ∅
     /\ GetUserID (AuthMiddleware parser id "BeArEr a.b.c" ∅).2
        = (auth.UserID claims, true)
     /\ GetUserRole (AuthMiddleware parser id "BeArEr a.b.c" ∅).2
        = (auth.Role claims, true))
  /\ exists text,
       AuthMiddleware parser id "Bearer r.e.f" ∅ = (refuse 401 text, ∅).
Proof.
  split.
  - refine (proj1 (AuthMiddleware_admission parser id "BeArEr a.b.c" ∅) _).
    reflexivity.
  - refine (proj1 (proj2 (AuthMiddleware_admission parser id "Bearer r.e.f"
                            ∅)) _).
    by vm_compute.
Defined.

Lemma RequireRole_after_AuthMiddleware_witness :
  (exists claims,
     (AuthMiddleware parser id "Bearer a.b.c" ∅).2 = signed_in claims ∅
     /\ (auth.Role claims ∈ [auth.RoleAdmin] ->
         RequireRole [auth.RoleAdmin]
           (AuthMiddleware parser id "Bearer a.b.c" ∅).2 = Next)
     /\ (auth.Role claims ∉ [auth.RoleAdmin] ->
         RequireRole [auth.RoleAdmin]
           (AuthMiddleware parser id "Bearer a.b.c" ∅).2
         = refuse 403 "insufficient permissions")
     /\ RequireRole [] (AuthMiddleware parser id "Bearer a.b.c" ∅).2
        = refuse 403 "insufficient permissions")
  /\ RequireRole [auth.RoleAdmin] ∅ = refuse 401 "authentication required".
Proof.
  split.
  - refine (proj1 (RequireRole_after_AuthMiddleware parser id "Bearer a.b.c"
                     ∅ [auth.RoleAdmin]) _).
    reflexivity.
  - refine (proj2 (RequireRole_after_AuthMiddleware parser id "Bearer a.b.c"
                     ∅ [auth.RoleAdmin]) _).
    apply lookup_empty.
Defined.

End Examples.

End auth_facts.

Module config_facts.
Import config.

(** The commas of a text. *)
Fixpoint commas (s : string) : nat :=
  match s with
  | EmptyString => 0
  | String c rest => (if Ascii.eqb c "," then 1 else 0) + commas rest
  end.

Lemma Split_nonempty s : Split s <> [].
Proof.
  destruct s as [|c s]; [done|]. cbn.
  destruct (Ascii.eqb c ","); [done|]. by destruct (Split s).
Qed.

Lemma Split_length s : length (Split s) = S (commas s).
Proof.
  induction s as [|c s IH]; [done|]. cbn [Split commas].
  destruct (Ascii.eqb c ","); cbn; [by rewrite IH|].
  pose proof (Split_nonempty s). destruct (Split s); [done|]. cbn in *. lia.
Qed.

Lemma Join_cons p q ps : Join (p :: q :: ps) = p +:+ "," +:+ Join (q :: ps).
Proof. reflexivity. Qed.

Lemma Join_Split s : Join (Split s) = s.
Proof.
  induction s as [|c s IH]; [done|]. cbn [Split].
  pose proof (Split_nonempty s) as Hne.
  destruct (Ascii.eqb_spec c ",") as [->|Hc].
  - destruct (Split s) as [|q ps] eqn:E; [done|].
    rewrite Join_cons, IH. reflexivity.
  - destruct (Split s) as [|q ps] eqn:E; [done|].
    destruct ps as [|q' ps].
    + cbn in IH |- *. by rewrite IH.
    + rewrite Join_cons in IH |- *. rewrite <- IH. reflexivity.
Qed.

Lemma Split_no_comma s :
  Forall (fun p => commas p = 0%nat) (Split s).
Proof.
  induction s as [|c s IH]; [by repeat constructor|]. cbn [Split].
  pose proof (Split_nonempty s) as Hne.
  destruct (Ascii.eqb c ",") eqn:Hc; [by constructor|].
  destruct (Split s) as [|q ps]; [done|].
  inversion IH as [|? ? Hq Hps]; subst. constructor; [|done].
  cbn [commas]. by rewrite Hc, Hq.
Qed.

(** X28. The broker list of [LoadKafkaConfig] is never empty: it has one
    address more than the setting has commas, no address holds a comma, and
    joined with commas the addresses give the setting back.  A setting left
    empty gives one broker, the empty address. *)
Theorem LoadKafkaConfig_brokers (v : Viper) :
  let setting := GetString v "KAFKA_BROKERS" in
  let brokers := Brokers (LoadKafkaConfig v) in
  length brokers = S (commas setting)
  /\ Forall (fun b => commas b = 0%nat) brokers
  /\ Join brokers = setting
  /\ (setting = "" -> brokers = [""]).
Proof.
  cbn zeta. unfold LoadKafkaConfig. cbn [Brokers].
  split; [apply Split_length|]. split; [apply Split_no_comma|].
  split; [apply Join_Split|]. by intros ->.
Qed.

Lemma LoadKafkaConfig_brokers_witness :
  Brokers (LoadKafkaConfig {| GetString := fun _ => ""; GetInt := fun _ => 0 |})
  = [""].
Proof.
  exact (proj2 (proj2 (proj2 (LoadKafkaConfig_brokers
           {| GetString := fun _ => ""; GetInt := fun _ => 0 |}))) eq_refl).
Defined.

(** X29. [GetServicePort] gives a colon followed by the decimal digits of the
    port configured, which read back as that port, and of 8080 when the
    setting is missing or zero: the text [":0"] is never returned.  No
    other validation is made: a negative setting gives a colon, a minus
    sign and digits. *)
Theorem GetServicePort_text (v : Viper) (key : string) :
  in_int (GetInt v key) ->
  let port := if GetInt v key =? 0 then 8080 else GetInt v key in
  GetServicePort v key = ":" +:+ string_of (json.format_int port)
  /\ json.int_of_lit (json.format_int port) = Some port
  /\ port <> 0
  /\ (GetInt v key = 0 -> GetServicePort v key = ":8080").
Proof.
  intros Hr. cbn zeta. unfold GetServicePort.
  split; [done|]. split; [|split].
  - apply json_facts.int_of_lit_format_int.
    destruct (Z.eqb_spec (GetInt v key) 0); [|done].
    unfold in_int, int_min, int_max. lia.
  - destruct (Z.eqb_spec (GetInt v key) 0); lia.
  - intros ->. by vm_compute.
Qed.

Lemma GetServicePort_text_witness :
  GetServicePort {| GetString := fun _ => ""; GetInt := fun _ => 9090 |}
    "ORDER_PORT"
  = ":" +:+ string_of (json.format_int 9090)
  /\ json.int_of_lit (json.format_int 9090) = Some 9090.
Proof.
  destruct (GetServicePort_text
              {| GetString := fun _ => ""; GetInt := fun _ => 9090 |}
              "ORDER_PORT") as (H1 & H2 & _).
  - by vm_compute.
  - split; [exact H1|exact H2].
Defined.


End config_facts.
